(** * The Feishu agent-card renderer: a shallow embedding and its properties

    Sources embedded here:
    - [extensions/feishu/src/renderers/agent-card-view.ts]
      (message projection, run tracker, render projector, card builder);
    - [extensions/feishu/src/renderers/feishu-renderer.ts]
      (text merge, plain-text heuristic, payload probing, verbose events,
       update scheduler, renderer controller).

    Conventions of the embedding:
    - a JavaScript string is the list of its UTF-16 code units ([list N]);
      string literals of the source are written [js "..."] and decoded from
      the UTF-8 bytes of the Rocq literal;
    - a JavaScript number that holds a time stamp or a duration is an
      integer number of milliseconds ([Z]); [Date.now()] is an explicit
      argument [now];
    - an optional field ([x?: T]) is an [option]; the line feed is the code
      unit 10, so ["\n"] is [[10]];
    - the tracker's [Set<string>] is a [gset]; the correlation
      [Map<string, ...>] of the projection is a [gmap];
    - asynchronous code (the update scheduler) is a transition system whose
      events are the host's calls and the completions of the timers and of
      the external edit operation. *)

From Stdlib Require Import ZArith NArith Lia DecimalString.
From stdpp Require Import gmap list strings.

Local Open Scope N_scope.

(** ** JavaScript strings *)

Module JsString.

Abbreviation jsstring := (list N).

Fixpoint bytes_of (s : string) : list N :=
  match s with
  | EmptyString => []
  | String a s' => Ascii.N_of_ascii a :: bytes_of s'
  end.

(** Code points of a well-formed UTF-8 byte sequence. *)
Fixpoint utf8_decode (bs : list N) : list N :=
  match bs with
  | [] => []
  | b0 :: r0 =>
      if b0 <? 128 then b0 :: utf8_decode r0
      else
        match r0 with
        | [] => []
        | b1 :: r1 =>
            if b0 <? 224 then ((b0 - 192) * 64 + (b1 - 128)) :: utf8_decode r1
            else
              match r1 with
              | [] => []
              | b2 :: r2 =>
                  if b0 <? 240
                  then ((b0 - 224) * 4096 + (b1 - 128) * 64 + (b2 - 128))
                         :: utf8_decode r2
                  else
                    match r2 with
                    | [] => []
                    | b3 :: r3 =>
                        ((b0 - 240) * 262144 + (b1 - 128) * 4096
                         + (b2 - 128) * 64 + (b3 - 128)) :: utf8_decode r3
                    end
              end
        end
  end.

(** UTF-16 code units of a code point (a surrogate pair above U+FFFF). *)
Definition utf16_units (cp : N) : list N :=
  if cp <? 65536 then [cp]
  else [55296 + (cp - 65536) / 1024; 56320 + (cp - 65536) mod 1024].

Definition js (s : string) : jsstring :=
  flat_map utf16_units (utf8_decode (bytes_of s)).
Arguments js _%_string.
#[global] Arguments js : simpl never.

(** [!s] for a string: the empty string is the only falsy one. *)
Definition isEmpty (s : jsstring) : bool :=
  match s with [] => true | _ :: _ => false end.

Definition eqb (a b : jsstring) : bool := bool_decide (a = b).

(** [s.startsWith(p)] *)
Fixpoint startsWith (s p : jsstring) {struct p} : bool :=
  match p, s with
  | [], _ => true
  | _ :: _, [] => false
  | b :: p', a :: s' => (a =? b) && startsWith s' p'
  end.

(** White space of [String.prototype.trim] and of the regular-expression
    class [\s]: WhiteSpace and LineTerminator code points. *)
Definition isSpace (c : N) : bool :=
  ((9 <=? c) && (c <=? 13)) || (c =? 32) || (c =? 160) || (c =? 5760)
  || ((8192 <=? c) && (c <=? 8202)) || (c =? 8232) || (c =? 8233)
  || (c =? 8239) || (c =? 8287) || (c =? 12288) || (c =? 65279).

Fixpoint trimStart (s : jsstring) : jsstring :=
  match s with
  | [] => []
  | c :: r => if isSpace c then trimStart r else s
  end.

Fixpoint trimEnd (s : jsstring) : jsstring :=
  match s with
  | [] => []
  | c :: r =>
      match trimEnd r with
      | [] => if isSpace c then [] else [c]
      | r' => c :: r'
      end
  end.

(** [s.trim()] *)
Definition trim (s : jsstring) : jsstring := trimEnd (trimStart s).

(** [s.replace(/\s+/g, " ")]: every maximal run of white space becomes one
    space; [inRun] tells that the previous unit was white space. *)
Fixpoint collapseSpaces (inRun : bool) (s : jsstring) : jsstring :=
  match s with
  | [] => []
  | c :: r =>
      if isSpace c
      then (if inRun then collapseSpaces true r else 32 :: collapseSpaces true r)
      else c :: collapseSpaces false r
  end.

(** [parts.join(sep)] *)
Fixpoint join (sep : jsstring) (parts : list jsstring) : jsstring :=
  match parts with
  | [] => []
  | [p] => p
  | p :: rest => p ++ sep ++ join sep rest
  end.

(** Decimal digits of a natural number. *)
Definition digits (n : N) : jsstring :=
  bytes_of (NilZero.string_of_uint (N.to_uint n)).

(** [(Math.max(d, 0) / 1000).toFixed(1)] for an integer [d] below 2^53.

    The quotient is the double nearest to d/1000, and [toFixed(1)] picks
    the number of tenths nearest to that double, the larger one on an
    exact tie.  Off the half-way points (d = 50 mod 100) the double and
    the exact quotient round alike.  On a half-way point the quotient is
    a double exactly when d is an odd multiple of 250 (a tie: rounded
    up); otherwise the direction is that of the rounding error of the
    division, computed here on the 53-bit significand. *)
Definition toFixed1_tenths (d : Z) : N :=
  let m := Z.to_N (Z.max d 0) in
  if negb (m mod 100 =? 50) then (m + 50) / 100
  else if m mod 500 =? 250 then (m + 50) / 100
  else
    (* 2^52 <= m * 2^e / 1000 < 2^53 *)
    let e := 62 - N.log2 m in
    let e := if m * 2 ^ e <? 1000 * 2 ^ 52 then e + 1 else
             if 1000 * 2 ^ 53 <=? m * 2 ^ e then e - 1 else e in
    let sig := (2 * m * 2 ^ e + 1000) / 2000 in
    if m * 2 ^ e <? sig * 1000 then (m + 50) / 100 else (m - 50) / 100.

Definition toFixed1 (d : Z) : jsstring :=
  let n := toFixed1_tenths d in
  digits (n / 10) ++ [46] ++ digits (n mod 10).

End JsString.

Import JsString.

(** ** agent-card-view.ts: messages, timeline, tracker, render state *)

Module AgentCardView.

Inductive AgentContentPart :=
| TextPart (text : jsstring)
| ThinkingPart (text : jsstring)
| ToolCallPart (toolName : jsstring) (toolUseId : option jsstring)
               (startedAt : option Z).

(** The [raw] field of a tool result is never read and is left out. *)
Record AgentToolResultPart := {
  result_toolUseId : option jsstring;
  result_text : option jsstring;
  completedAt : option Z;
  result_durationMs : option Z
}.

Inductive AgentCoreMessage :=
| AssistantMessage (content : list AgentContentPart)
| ToolMessage (toolUseId : option jsstring) (content : list AgentToolResultPart).

Inductive EntryKind := KindText | KindThinking | KindToolCall.

Record TimelineEntry := {
  kind : EntryKind;
  content : jsstring;
  toolUseId : option jsstring;
  toolName : option jsstring;
  durationMs : option Z
}.

#[global] Instance EntryKind_eq_dec : EqDecision EntryKind.
Proof. solve_decision. Defined.

Inductive AgentRunStatus :=
| Idle | Thinking | ToolCalling | WaitingToolResult | Completed | Canceled | Error.

#[global] Instance AgentRunStatus_eq_dec : EqDecision AgentRunStatus.
Proof. solve_decision. Defined.

Definition statusTitles (s : AgentRunStatus) : jsstring :=
  match s with
  | Idle => js "等待指令"
  | Thinking => js "思考中"
  | ToolCalling => js "调用工具中"
  | WaitingToolResult => js "等待工具结果"
  | Completed => js "全部完成"
  | Canceled => js "任务已取消"
  | Error => js "执行异常"
  end.

Definition normalizeWhitespace (value : jsstring) : jsstring :=
  trim (collapseSpaces false value).

Definition formatToolCall (toolName : jsstring) : jsstring :=
  js "调用 `'" ++ toolName ++ js "'` 工具".

(** [typeof durationMs === "number" && Number.isFinite(durationMs)]: an
    integer duration is finite, an absent one is not a number. *)
Definition buildToolCallContent (toolName : jsstring) (durationMs : option Z)
  : jsstring :=
  let base := formatToolCall toolName in
  match durationMs with
  | Some d =>
      let formatted := toFixed1 d in
      let durationTag :=
        js "<text_tag color='turquoise'>耗时 " ++ formatted ++ js " 秒</text_tag>" in
      base ++ js " " ++ durationTag
  | None => base
  end.

Definition resolveDurationMs (now : Z)
    (reportedDurationMs startedAt completedAt : option Z) : option Z :=
  match reportedDurationMs with
  | Some r => Some r
  | None =>
      match startedAt with
      | Some s =>
          let end_ := match completedAt with Some c => c | None => now end in
          Some (Z.max 0 (end_ - s))
      | None => None
      end
  end.

(** [if (id)] on an optional string: present and not empty. *)
Definition truthy (id : option jsstring) : bool :=
  match id with
  | Some (_ :: _) => true
  | _ => false
  end.

Record ToolEntryMeta := {
  index : nat;
  meta_toolName : jsstring;
  meta_startedAt : option Z
}.

(** The three locals of [collectDisplayChunks]. *)
Record Collector := {
  col_timeline : list TimelineEntry;
  col_textParts : list jsstring;
  toolEntryMap : gmap jsstring ToolEntryMeta
}.

Definition collectContent (acc : Collector) (part : AgentContentPart) : Collector :=
  match part with
  | TextPart text =>
      if isEmpty (normalizeWhitespace text) then acc
      else {| col_timeline :=
                col_timeline acc ++
                [{| kind := KindText; content := trim text; toolUseId := None;
                    toolName := None; durationMs := None |}];
              col_textParts := col_textParts acc ++ [trim text];
              toolEntryMap := toolEntryMap acc |}
  | ThinkingPart text =>
      if isEmpty (normalizeWhitespace text) then acc
      else {| col_timeline :=
                col_timeline acc ++
                [{| kind := KindThinking; content := trim text; toolUseId := None;
                    toolName := None; durationMs := None |}];
              col_textParts := col_textParts acc;
              toolEntryMap := toolEntryMap acc |}
  | ToolCallPart name id startedAt =>
      let toolName_ := if isEmpty name then js "unknown-tool" else name in
      let entry := {| kind := KindToolCall; content := buildToolCallContent toolName_ None;
                      toolUseId := id; toolName := Some toolName_;
                      durationMs := None |} in
      {| col_timeline := col_timeline acc ++ [entry];
         col_textParts := col_textParts acc;
         toolEntryMap :=
           match id with
           | Some i =>
               if truthy id
               then <[i := {| index := length (col_timeline acc);
                              meta_toolName := toolName_;
                              meta_startedAt := startedAt |}]> (toolEntryMap acc)
               else toolEntryMap acc
           | None => toolEntryMap acc
           end |}
  end.

Definition collectResult (now : Z) (acc : Collector) (part : AgentToolResultPart)
  : Collector :=
  match result_toolUseId part with
  | Some i =>
      if truthy (result_toolUseId part) then
        match toolEntryMap acc !! i with
        | Some entryMeta =>
            match col_timeline acc !! index entryMeta with
            | Some entry =>
                let d := resolveDurationMs now (result_durationMs part)
                           (meta_startedAt entryMeta) (completedAt part) in
                {| col_timeline :=
                     <[index entryMeta :=
                         {| kind := kind entry;
                            content := buildToolCallContent (meta_toolName entryMeta) d;
                            toolUseId := toolUseId entry;
                            toolName := toolName entry;
                            durationMs := d |}]> (col_timeline acc);
                   col_textParts := col_textParts acc;
                   toolEntryMap := toolEntryMap acc |}
            | None => acc
            end
        | None => acc
        end
      else acc
  | None => acc
  end.

Definition collectMessage (now : Z) (acc : Collector) (message : AgentCoreMessage)
  : Collector :=
  match message with
  | AssistantMessage parts => foldl collectContent acc parts
  | ToolMessage _ parts => foldl (collectResult now) acc parts
  end.

Record MessageDisplayChunks := {
  chunk_timeline : list TimelineEntry;
  finalText : jsstring
}.

Definition collectDisplayChunks (now : Z) (messages : list AgentCoreMessage)
  : MessageDisplayChunks :=
  let acc := foldl (collectMessage now)
               {| col_timeline := []; col_textParts := []; toolEntryMap := ∅ |}
               messages in
  {| chunk_timeline := col_timeline acc;
     finalText := trim (join [10; 10] (col_textParts acc)) |}.

(** *** The run tracker *)

Record AgentRunTracker := {
  status : AgentRunStatus;
  timeline : list TimelineEntry;
  seen : gset jsstring;
  draftAnswer : jsstring
}.

(** [new AgentRunTracker()] *)
Definition newTracker : AgentRunTracker :=
  {| status := Thinking; timeline := []; seen := ∅; draftAnswer := [] |}.

Definition kindName (k : EntryKind) : jsstring :=
  match k with
  | KindText => js "text"
  | KindThinking => js "thinking"
  | KindToolCall => js "tool-call"
  end.

Definition getTimelineEntryKey (entry : TimelineEntry) : jsstring :=
  match kind entry, toolUseId entry with
  | KindToolCall, Some id =>
      if truthy (Some id) then js "tool:" ++ id
      else kindName (kind entry) ++ js "|" ++ content entry
  | _, _ => kindName (kind entry) ++ js "|" ++ content entry
  end.

Definition currentStatus (t : AgentRunTracker) : AgentRunStatus := status t.

Definition setStatus (s : AgentRunStatus) (t : AgentRunTracker) : AgentRunTracker :=
  {| status := s; timeline := timeline t; seen := seen t;
     draftAnswer := draftAnswer t |}.

(** [array.findIndex(p)], [None] for -1. *)
Fixpoint findIndex {A} (p : A -> bool) (l : list A) : option nat :=
  match l with
  | [] => None
  | x :: r => if p x then Some O else S <$> findIndex p r
  end.

(** One turn of the loop of [appendMessages]. *)
Definition appendEntry (t : AgentRunTracker) (entry : TimelineEntry)
  : AgentRunTracker :=
  let key := getTimelineEntryKey entry in
  if negb (isEmpty (content entry)) && negb (bool_decide (key ∈ seen t)) then
    {| status := status t; timeline := timeline t ++ [entry];
       seen := {[ key ]} ∪ seen t; draftAnswer := draftAnswer t |}
  else if bool_decide (kind entry = KindToolCall) && truthy (toolUseId entry)
          && negb (isEmpty (content entry)) then
    match findIndex (fun item => bool_decide (toolUseId item = toolUseId entry))
                    (timeline t) with
    | Some existingIndex =>
        {| status := status t; timeline := <[existingIndex := entry]> (timeline t);
           seen := seen t; draftAnswer := draftAnswer t |}
    | None => t
    end
  else t.

Definition appendMessages (now : Z) (messages : list AgentCoreMessage)
    (t : AgentRunTracker) : AgentRunTracker :=
  let chunks := collectDisplayChunks now messages in
  let t' := foldl appendEntry t (chunk_timeline chunks) in
  if isEmpty (finalText chunks) then t'
  else {| status := status t'; timeline := timeline t'; seen := seen t';
          draftAnswer := finalText chunks |}.

Definition setDraftAnswer (answer : jsstring) (t : AgentRunTracker)
  : AgentRunTracker :=
  {| status := status t; timeline := timeline t; seen := seen t;
     draftAnswer := answer |}.

Definition reset (t : AgentRunTracker) : AgentRunTracker :=
  {| status := Thinking; timeline := []; seen := ∅; draftAnswer := [] |}.

(** *** The render projector *)

Record RenderState := {
  rs_status : AgentRunStatus;
  headline : jsstring;
  body : jsstring;
  rs_timeline : list TimelineEntry;
  finalAnswer : option jsstring;
  isTimelineCollapsed : bool;
  timelineMarkdown : jsstring;
  showTimelinePanel : bool
}.

Definition isTerminalStatus (s : AgentRunStatus) : bool :=
  match s with
  | Completed | Canceled | Error => true
  | _ => false
  end.

Definition formatTimelineEntry (entry : TimelineEntry) : jsstring :=
  if isEmpty (content entry) then []
  else match kind entry with
       | KindThinking => js "*思考*: " ++ content entry
       | KindToolCall => content entry
       | KindText => content entry
       end.

Definition normalizeText (value : jsstring) : jsstring :=
  trim (collapseSpaces false value).

Definition filterTimelineEntries (entries : list TimelineEntry)
    (answerText : option jsstring) : list TimelineEntry :=
  match answerText with
  | None => entries
  | Some answer =>
      if isEmpty answer then entries
      else
        let normalizedAnswer := normalizeText answer in
        if isEmpty normalizedAnswer then entries
        else
          List.filter (fun entry =>
                    if bool_decide (kind entry = KindText)
                    then negb (eqb (normalizeText (content entry)) normalizedAnswer)
                    else true)
                 entries
  end.

(** [a || b] on strings. *)
Definition orElse (a b : jsstring) : jsstring := if isEmpty a then b else a.

Definition buildRenderState (collapseTimeline : bool) (t : AgentRunTracker)
  : RenderState :=
  let headline_ := statusTitles (status t) in
  let showFinalAnswer := isTerminalStatus (status t) in
  let finalAnswerText := trim (draftAnswer t) in
  let filteredTimeline :=
    filterTimelineEntries (timeline t)
      (if showFinalAnswer then Some finalAnswerText else None) in
  let timelineMarkdown_ :=
    join [10]
      (List.filter (fun s => negb (isEmpty s)) (map formatTimelineEntry filteredTimeline)) in
  let hasTimeline := negb (Nat.eqb (length filteredTimeline) 0) in
  if showFinalAnswer then
    let finalAnswer_ := if isEmpty finalAnswerText then None else Some finalAnswerText in
    {| rs_status := status t; headline := headline_;
       body := match finalAnswer_ with Some a => a | None => js "暂无最终回复" end;
       rs_timeline := filteredTimeline; finalAnswer := finalAnswer_;
       isTimelineCollapsed := collapseTimeline;
       timelineMarkdown := timelineMarkdown_; showTimelinePanel := hasTimeline |}
  else
    {| rs_status := status t; headline := headline_;
       body := orElse timelineMarkdown_ (orElse (draftAnswer t) (js "思考中..."));
       rs_timeline := filteredTimeline; finalAnswer := None;
       isTimelineCollapsed := collapseTimeline;
       timelineMarkdown := timelineMarkdown_; showTimelinePanel := false |}.

(** *** The card builder *)

Inductive CardElement :=
| CollapsiblePanel (expanded : bool) (title : jsstring) (markdown : jsstring)
| Markdown (content : jsstring).

(** The card document: header template, icon token and title, then the
    body elements; [schema] and [config] are constants. *)
Record LarkCard := {
  header_template : jsstring;
  header_icon : jsstring;
  header_title : jsstring;
  elements : list CardElement
}.

Definition headerTemplate (s : AgentRunStatus) : jsstring :=
  match s with
  | Completed => js "green"
  | ToolCalling => js "wathet"
  | Canceled => js "orange"
  | Error => js "red"
  | Thinking => js "blue"
  | _ => js "grey"
  end.

Definition iconTemplate (s : AgentRunStatus) : jsstring :=
  match s with
  | Completed => js "succeed_filled"
  | ToolCalling => js "setting-inter_filled"
  | Canceled => js "ban_filled"
  | Error => js "error_filled"
  | Thinking => js "premium-gleam_filled"
  | _ => js "info_filled"
  end.

Definition buildLarkCard (state : RenderState) : LarkCard :=
  let panel :=
    if showTimelinePanel state && negb (Nat.eqb (length (rs_timeline state)) 0)
    then [CollapsiblePanel (negb (isTimelineCollapsed state)) (js "执行过程")
            (orElse (timelineMarkdown state) (js "暂无过程记录"))]
    else [] in
  {| header_template := headerTemplate (rs_status state);
     header_icon := iconTemplate (rs_status state);
     header_title := headline state;
     elements := panel ++ [Markdown (orElse (body state) (js "思考中..."))] |}.

End AgentCardView.

Import AgentCardView.

(** ** feishu-renderer.ts: normalizer, scheduler, controller *)

(** What the embedding takes from outside the two source files: the
    Unicode property table behind [\p{Extended_Pictographic}], the text
    that the engine prints for the [Object] function (the label table is an
    object literal, so the key [constructor] is found on its prototype), and
    the mention formatter of [../mention.js]. *)
Class Host := {
  isExtendedPictographic : N -> bool;
  objectFunctionText : jsstring;
  MentionTarget : Type;
  buildMentionedCardContent : list MentionTarget -> jsstring -> jsstring
}.

Module FeishuRenderer.

Definition mergeStreamText (prev next : jsstring) : jsstring :=
  if isEmpty prev then next
  else if isEmpty next then prev
  else if startsWith next prev then next
  else if startsWith prev next then prev
  else prev ++ next.

Definition TOOL_NAME_LABELS : list (jsstring * jsstring) :=
  [ (js "read", js "读取文件");
    (js "write", js "写入文件");
    (js "edit", js "编辑文件");
    (js "exec", js "执行命令");
    (js "process", js "进程管理");
    (js "web_search", js "网页搜索");
    (js "web_fetch", js "抓取网页");
    (js "browser", js "浏览器");
    (js "message", js "发送消息");
    (js "sessions_list", js "列会话");
    (js "sessions_send", js "跨会话发送");
    (js "sessions_spawn", js "派生代理");
    (js "session_status", js "会话状态");
    (js "cron", js "定时任务");
    (js "feishu_doc_read", js "飞书读文档");
    (js "feishu_doc_write", js "飞书写文档");
    (js "feishu_doc_append", js "飞书追加");
    (js "feishu_doc_list_blocks", js "飞书列文档块");
    (js "feishu_doc_update", js "飞书更新文档块");
    (js "feishu_doc_delete_block", js "飞书删除文档块");
    (js "feishu_folder_list", js "飞书列文件夹");
    (js "feishu_doc_create", js "飞书创建文档");
    (js "memory_search", js "记忆搜索");
    (js "memory_get", js "读取记忆");
    (js "tts", js "语音合成");
    (js "canvas", js "画布控制");
    (js "nodes", js "节点管理");
    (js "gateway", js "网关管理");
    (js "agents_list", js "列出代理") ].

Section Normalizer.
Context `{Host}.

Definition applyMentions (mentions : option (list MentionTarget))
    (text : jsstring) : jsstring :=
  match mentions with
  | None => text
  | Some [] => text
  | Some ms => buildMentionedCardContent ms text
  end.

(** [TOOL_NAME_LABELS[normalized]]: an own key of the table, or the one
    inherited property whose name a normalized tool name can spell. *)
Definition lookupLabel (normalized : jsstring) : option jsstring :=
  match List.find (fun p => eqb (fst p) normalized) TOOL_NAME_LABELS with
  | Some p => Some (snd p)
  | None =>
      if eqb normalized (js "constructor") then Some objectFunctionText else None
  end.

(** *** The tool-line pattern

    Anchored at both ends and read with the [u] flag: white space; any
    number of pictographs, variation selectors U+FE0F, joiners U+200D
    and white space; group 1, an ASCII letter and at most 60 letters,
    digits, underscores and spaces; white space, a colon, white space;
    group 2, the rest of the line. *)

Definition isAsciiLetter (c : N) : bool :=
  ((65 <=? c) && (c <=? 90)) || ((97 <=? c) && (c <=? 122)).

Definition isNameChar (c : N) : bool :=
  isAsciiLetter c || ((48 <=? c) && (c <=? 57)) || (c =? 95) || (c =? 32).

(** What [.] refuses without the [s] flag. *)
Definition isLineTerminator (c : N) : bool :=
  (c =? 10) || (c =? 13) || (c =? 8232) || (c =? 8233).

Definition isHighSurrogate (c : N) : bool := (55296 <=? c) && (c <=? 56319).
Definition isLowSurrogate (c : N) : bool := (56320 <=? c) && (c <=? 57343).

(** One code unit in the class of the second star. *)
Definition inPrefixClass (c : N) : bool :=
  isSpace c || (c =? 65039) || (c =? 8205) || isExtendedPictographic c.

Fixpoint takeRun (n : nat) (p : N -> bool) (s : jsstring) : jsstring :=
  match n, s with
  | S n', c :: r => if p c then c :: takeRun n' p r else []
  | _, _ => []
  end.

(** The two groups, from the first letter on.  The name is the longest
    run the bounded repetition can take: giving back a unit of it never
    helps, because what follows the name must be white space up to the
    first colon, and the rest of the line is the same for every split. *)
Definition matchName (s : jsstring) : option (jsstring * jsstring) :=
  match s with
  | c :: r =>
      if isAsciiLetter c then
        let run := takeRun 60 isNameChar r in
        match trimStart (drop (length run) r) with
        | 58 :: after =>
            let group2 := trimStart after in
            if existsb isLineTerminator group2 then None
            else Some (c :: run, group2)
        | _ => None
        end
      else None
  | [] => None
  end.

(** The second star, longest first; with the [u] flag a surrogate pair is
    one character. *)
Fixpoint matchPrefix (s : jsstring) : option (jsstring * jsstring) :=
  match s with
  | [] => matchName []
  | c :: r =>
      match r with
      | lo :: r' =>
          if isHighSurrogate c && isLowSurrogate lo then
            if isExtendedPictographic
                 (65536 + (c - 55296) * 1024 + (lo - 56320))
            then match matchPrefix r' with
                 | Some m => Some m
                 | None => matchName s
                 end
            else matchName s
          else if inPrefixClass c then
            match matchPrefix r with
            | Some m => Some m
            | None => matchName s
            end
          else matchName s
      | [] =>
          if inPrefixClass c then
            match matchPrefix r with
            | Some m => Some m
            | None => matchName s
            end
          else matchName s
      end
  end.

(** The first star, [^\s*]. *)
Fixpoint matchToolLine (s : jsstring) : option (jsstring * jsstring) :=
  match s with
  | [] => matchPrefix []
  | c :: r =>
      if isSpace c then
        match matchToolLine r with
        | Some m => Some m
        | None => matchPrefix s
        end
      else matchPrefix s
  end.

(** [text.split(/\r?\n/)] *)
Fixpoint splitLines (s : jsstring) : list jsstring :=
  match s with
  | [] => [[]]
  | c :: r =>
      if c =? 10 then [] :: splitLines r
      else if (c =? 13) && (match r with 10 :: _ => true | _ => false end)
      then splitLines r
      else match splitLines r with
           | l :: rest => (c :: l) :: rest
           | [] => [[c]]
           end
  end.

(** [s.toLowerCase()] on a tool name, whose units are ASCII. *)
Definition toLowerCase (s : jsstring) : jsstring :=
  map (fun c => if (65 <=? c) && (c <=? 90) then c + 32 else c) s.

(** [s.replace(/[-\s]+/g, "_")] *)
Fixpoint underscoreRuns (inRun : bool) (s : jsstring) : jsstring :=
  match s with
  | [] => []
  | c :: r =>
      if (c =? 45) || isSpace c
      then (if inRun then underscoreRuns true r else 95 :: underscoreRuns true r)
      else c :: underscoreRuns false r
  end.

Record ToolSummary := {
  toolLines : list jsstring;
  remainingText : jsstring
}.

(** The body of the loop over the lines; the accumulator holds
    [toolLines] and [otherLines]. *)
Definition splitLine (acc : list jsstring * list jsstring) (rawLine : jsstring)
  : list jsstring * list jsstring :=
  let line := trim rawLine in
  if isEmpty line then (fst acc, snd acc ++ [rawLine])
  else
    match matchToolLine line with
    | Some (group1, group2) =>
        let rawToolName := trim group1 in
        let normalized := underscoreRuns false (toLowerCase rawToolName) in
        let label := match lookupLabel normalized with
                     | Some l => l
                     | None => rawToolName
                     end in
        let header := js "调用`" ++ label ++ js "`工具:" in
        let meta := trim group2 in
        (fst acc ++ [if isEmpty meta then header else header ++ js " " ++ meta],
         snd acc)
    | None => (fst acc, snd acc ++ [rawLine])
    end.

Definition splitToolSummaryLines (text : jsstring) : ToolSummary :=
  let acc := foldl splitLine ([], []) (splitLines text) in
  let remaining := trim (join [10] (snd acc)) in
  {| toolLines := fst acc;
     remainingText :=
       if negb (Nat.eqb (length (fst acc)) 0) && negb (isEmpty remaining)
       then [10; 10] ++ remaining
       else remaining |}.

End Normalizer.

(** *** Payloads *)

(** An element of a candidate message array: a message of the two roles
    the projection reads, some other object with a [role] attribute, or a
    value without one (not null).  The last two are skipped by every loop
    over messages. *)
Inductive RawItem :=
| RawMessage (m : AgentCoreMessage)
| RawOtherRole
| RawNoRole.

Inductive EventStream := StreamAssistant | StreamTool | StreamLifecycle | StreamOther.

(** A verbose event as [applyVerboseEvent] reads it: the discriminator
    [evt.stream ?? evt.event ?? evt.payload.stream] and, of the resolved
    [data], the fields that are looked at, each with its [typeof] test
    applied ([None] when the test fails).  [data_meta] is
    [safeText(data.meta)]; [data_output] is [safeText(data.output)] when
    [data.output] is not undefined. *)
Record VerboseEvent := {
  stream : EventStream;
  data_text : option jsstring;
  data_phase : option jsstring;
  data_name : option jsstring;
  data_toolCallId : option jsstring;
  data_isError : option bool;
  data_meta : jsstring;
  data_output : option jsstring;
  data_durationMs : option Z;
  data_error : option jsstring
}.

(** A reply payload: its text and the candidate locations of messages and
    of events; [None] where the location is absent or holds no array. *)
Record ReplyPayload := {
  text : option jsstring;
  messages : option (list RawItem);
  meta_agentMessages : option (list RawItem);
  meta_messages : option (list RawItem);
  extra_messages : option (list RawItem);
  context_messages : option (list RawItem);
  delta_messages : option (list RawItem);
  events : option (list VerboseEvent);
  meta_events : option (list VerboseEvent);
  extra_events : option (list VerboseEvent);
  context_events : option (list VerboseEvent);
  delta_events : option (list VerboseEvent)
}.

Definition hasRole (item : RawItem) : bool :=
  match item with
  | RawNoRole => false
  | _ => true
  end.

Fixpoint firstMessages (candidates : list (option (list RawItem)))
  : option (list RawItem) :=
  match candidates with
  | [] => None
  | Some (x :: l) :: rest =>
      if existsb hasRole (x :: l) then Some (x :: l) else firstMessages rest
  | _ :: rest => firstMessages rest
  end.

Definition extractAgentMessages (payload : ReplyPayload) : option (list RawItem) :=
  firstMessages
    [ messages payload; meta_agentMessages payload; meta_messages payload;
      extra_messages payload; context_messages payload; delta_messages payload ].

Fixpoint firstEvents (candidates : list (option (list VerboseEvent)))
  : option (list VerboseEvent) :=
  match candidates with
  | [] => None
  | Some (x :: l) :: _ => Some (x :: l)
  | _ :: rest => firstEvents rest
  end.

Definition extractVerboseEvents (payload : ReplyPayload)
  : option (list VerboseEvent) :=
  firstEvents
    [ events payload; meta_events payload; extra_events payload;
      context_events payload; delta_events payload ].

(** The messages among the elements; the other elements have no effect
    on [inferStatusFromMessages] and [collectDisplayChunks]. *)
Fixpoint coreMessages (items : list RawItem) : list AgentCoreMessage :=
  match items with
  | [] => []
  | RawMessage m :: rest => m :: coreMessages rest
  | _ :: rest => coreMessages rest
  end.

(** *** Verbose events *)

Definition phaseIs (phase : jsstring) (name : string) : bool := eqb phase (js name).

(** The tracker and [assistantBuffer.text]. *)
Definition applyVerboseEvent (now : Z) (st : AgentRunTracker * jsstring)
    (evt : VerboseEvent) : AgentRunTracker * jsstring :=
  let '(tracker, buffer) := st in
  match stream evt with
  | StreamAssistant =>
      let text_ := match data_text evt with Some t => t | None => [] end in
      if isEmpty text_ then st
      else
        let tracker := setStatus Thinking tracker in
        let prev := buffer in
        let buffer :=
          if startsWith text_ prev then text_
          else if startsWith prev text_ then prev
          else prev ++ text_ in
        (setDraftAnswer buffer tracker, buffer)
  | StreamTool =>
      let phase := match data_phase evt with Some p => p | None => js "unknown" end in
      let name := match data_name evt with Some n => n | None => js "unknown-tool" end in
      let toolCallId := data_toolCallId evt in
      if phaseIs phase "start" then
        (appendMessages now
           [AssistantMessage [ToolCallPart name toolCallId (Some now)]]
           (setStatus ToolCalling tracker),
         buffer)
      else if phaseIs phase "end" || phaseIs phase "result"
              || phaseIs phase "output" || phaseIs phase "error" then
        let isError := match data_isError evt with
                       | Some b => b
                       | None => phaseIs phase "error"
                       end in
        let meta := data_meta evt in
        let output := match data_output evt with Some o => o | None => [] end in
        let text_ :=
          join [10]
            (List.filter (fun s => negb (isEmpty s))
               [ if isEmpty output then [] else js "输出: " ++ output;
                 if isEmpty meta then [] else js "备注: " ++ meta;
                 if isError then js "错误: true" else [] ]) in
        let tracker :=
          appendMessages now
            [ToolMessage toolCallId
               [{| result_toolUseId := toolCallId;
                   result_text :=
                     Some (if isEmpty text_
                           then (if isError then js "工具执行失败" else js "工具执行完成")
                           else text_);
                   completedAt := Some now;
                   result_durationMs := data_durationMs evt |}]]
            tracker in
        (setStatus (if isError then Error else WaitingToolResult) tracker, buffer)
      else (setStatus ToolCalling tracker, buffer)
  | StreamLifecycle =>
      let phase := match data_phase evt with Some p => p | None => [] end in
      if phaseIs phase "start" then (setStatus Thinking tracker, buffer)
      else if phaseIs phase "error" then
        let err := match data_error evt with Some e => e | None => js "执行异常" end in
        (setDraftAnswer err (setStatus Error tracker), buffer)
      else st
  | StreamOther => st
  end.

Definition isToolCallPart (p : AgentContentPart) : bool :=
  match p with ToolCallPart _ _ _ => true | _ => false end.
Definition isThinkingPart (p : AgentContentPart) : bool :=
  match p with ThinkingPart _ => true | _ => false end.

Definition inferStatusFromMessages (msgs : list AgentCoreMessage)
  : option AgentRunStatus :=
  let parts := flat_map (fun m => match m with
                                  | AssistantMessage c => c
                                  | ToolMessage _ _ => []
                                  end) msgs in
  let sawToolCall := existsb isToolCallPart parts in
  let sawThinking := existsb isThinkingPart parts in
  if sawToolCall then Some ToolCalling
  else if sawThinking then Some Thinking
  else None.

End FeishuRenderer.

Import FeishuRenderer.

(** ** The update scheduler ([createCardUpdateController])

    The closure variables [pending], [inFlight] and [lastSentAt] together
    with the point at which each asynchronous function is suspended.  An
    event is a call by the host or the completion of what a suspended
    function awaits; everything that runs between two suspension points
    (the promise reactions included) is one transition.  Times are readings
    of [Date.now()]. *)

Module CardUpdateController.

Local Open Scope Z_scope.

Definition MIN_INTERVAL_MS : Z := 350.

(** Where the loop started by [kick] stands; [inFlight] is null exactly
    in [LoopIdle]. *)
Inductive LoopState :=
| LoopIdle
| LoopWaiting (due : Z)      (* in [flushOnce], awaiting the timer *)
| LoopPublishing.            (* in [flushOnce], awaiting [updateCardFeishu] *)

(** Where the latest call of [flush] stands. *)
Inductive FlushState :=
| FlushNone
| FlushAwaitingLoop          (* [await inFlight] *)
| FlushWaiting (due : Z)     (* in its own [flushOnce], awaiting the timer *)
| FlushPublishing            (* in its own [flushOnce], awaiting the update *)
| FlushResolved
| FlushRejected.

Record State := {
  pending : option LarkCard;
  lastSentAt : Z;
  inFlight : LoopState;
  flushCall : FlushState;
  clock : Z;
(** every call of [updateCardFeishu]: when it was made and its [card] *)
published : list (Z * option LarkCard)
}.

Definition createCardUpdateController (now : Z) : State :=
  {| pending := None; lastSentAt := 0; inFlight := LoopIdle;
     flushCall := FlushNone; clock := now; published := [] |}.

Inductive Once := OnceReturned | OnceWaiting (due : Z) | OncePublishing.

(** The end of [flushOnce]: take the card, stamp the time, call the
    external edit operation. *)
Definition publish (t : Z) (s : State) : State :=
  {| pending := None; lastSentAt := t; inFlight := inFlight s;
     flushCall := flushCall s; clock := clock s;
     published := published s ++ [(t, pending s)] |}.

(** [flushOnce] up to its first suspension point. *)
Definition flushOnce (t : Z) (s : State) : State * Once :=
  match pending s with
  | None => (s, OnceReturned)
  | Some _ =>
      let wait := Z.max 0 (MIN_INTERVAL_MS - (t - lastSentAt s)) in
      if 0 <? wait then (s, OnceWaiting (t + wait))
      else (publish t s, OncePublishing)
  end.

Definition setLoop (l : LoopState) (s : State) : State :=
  {| pending := pending s; lastSentAt := lastSentAt s; inFlight := l;
     flushCall := flushCall s; clock := clock s; published := published s |}.

Definition setFlush (f : FlushState) (s : State) : State :=
  {| pending := pending s; lastSentAt := lastSentAt s; inFlight := inFlight s;
     flushCall := f; clock := clock s; published := published s |}.

Definition setClock (t : Z) (s : State) : State :=
  {| pending := pending s; lastSentAt := lastSentAt s; inFlight := inFlight s;
     flushCall := flushCall s; clock := t; published := published s |}.

Definition setPending (c : option LarkCard) (s : State) : State :=
  {| pending := c; lastSentAt := lastSentAt s; inFlight := inFlight s;
     flushCall := flushCall s; clock := clock s; published := published s |}.

(** [flush] after its [await inFlight]: [if (pending) await flushOnce()]. *)
Definition flushTail (t : Z) (s : State) : State :=
  match flushOnce t s with
  | (s', OnceReturned) => setFlush FlushResolved s'
  | (s', OnceWaiting due) => setFlush (FlushWaiting due) s'
  | (s', OncePublishing) => setFlush FlushPublishing s'
  end.

(** The promise of the loop settles: a [flush] that awaits it goes on. *)
Definition loopSettled (ok : bool) (t : Z) (s : State) : State :=
  match flushCall s with
  | FlushAwaitingLoop => if ok then flushTail t s else setFlush FlushRejected s
  | _ => s
  end.

(** The test of [while (pending)] and what follows it, up to the next
    suspension point.  When the loop ends, [pending] is null, so the
    [finally] block only clears [inFlight]. *)
Definition loopTurn (t : Z) (s : State) : State :=
  match flushOnce t s with
  | (s', OnceReturned) => loopSettled true t (setLoop LoopIdle s')
  | (s', OnceWaiting due) => setLoop (LoopWaiting due) s'
  | (s', OncePublishing) => setLoop LoopPublishing s'
  end.

(** [kick], called when [pending] is set. *)
Definition kick (t : Z) (s : State) : State :=
  match inFlight s with
  | LoopIdle => loopTurn t s
  | _ => s
  end.

Definition schedule (t : Z) (card : LarkCard) (s : State) : State :=
  kick t (setPending (Some card) (setClock t s)).

Definition flush (t : Z) (s : State) : State :=
  let s := setClock t s in
  match inFlight s with
  | LoopIdle => flushTail t s
  | _ => setFlush FlushAwaitingLoop s
  end.

(** The timer of the loop fires: the second half of [flushOnce]. *)
Definition timerFired (t : Z) (s : State) : State :=
  setLoop LoopPublishing (publish t (setClock t s)).

(** [updateCardFeishu] settles in the loop.  On success the loop tests
    [pending] again.  On failure the exception leaves the loop through
    [finally], which clears [inFlight] and kicks again if a card is
    pending; the promise of the old loop is rejected. *)
Definition updateSettled (t : Z) (ok : bool) (s : State) : State :=
  let s := setClock t s in
  if ok then loopTurn t s
  else
    let s := setLoop LoopIdle s in
    let s := match pending s with Some _ => kick t s | None => s end in
    loopSettled false t s.

Definition flushTimerFired (t : Z) (s : State) : State :=
  setFlush FlushPublishing (publish t (setClock t s)).

Definition flushUpdateSettled (t : Z) (ok : bool) (s : State) : State :=
  setFlush (if ok then FlushResolved else FlushRejected) (setClock t s).

Inductive Event :=
| Schedule (t : Z) (card : LarkCard)
| Flush (t : Z)
| TimerFired (t : Z)
| UpdateSettled (t : Z) (ok : bool)
| FlushTimerFired (t : Z)
| FlushUpdateSettled (t : Z) (ok : bool).

Definition time (e : Event) : Z :=
  match e with
  | Schedule t _ | Flush t | TimerFired t | UpdateSettled t _
  | FlushTimerFired t | FlushUpdateSettled t _ => t
  end.

Definition flushOutstanding (s : State) : bool :=
  match flushCall s with
  | FlushAwaitingLoop | FlushWaiting _ | FlushPublishing => true
  | _ => false
  end.

(** An event can happen when time does not run backwards, a timer is not
    early, a completion answers an operation that is under way, and the
    host has no other [flush] outstanding. *)
Definition enabled (e : Event) (s : State) : bool :=
  (clock s <=? time e) &&
  match e with
  | Schedule _ _ => true
  | Flush _ => negb (flushOutstanding s)
  | TimerFired t =>
      match inFlight s with LoopWaiting due => due <=? t | _ => false end
  | UpdateSettled _ _ =>
      match inFlight s with LoopPublishing => true | _ => false end
  | FlushTimerFired t =>
      match flushCall s with FlushWaiting due => due <=? t | _ => false end
  | FlushUpdateSettled _ _ =>
      match flushCall s with FlushPublishing => true | _ => false end
  end.

Definition apply (e : Event) (s : State) : State :=
  match e with
  | Schedule t card => schedule t card s
  | Flush t => flush t s
  | TimerFired t => timerFired t s
  | UpdateSettled t ok => updateSettled t ok s
  | FlushTimerFired t => flushTimerFired t s
  | FlushUpdateSettled t ok => flushUpdateSettled t ok s
  end.

Definition step (e : Event) (s : State) : option State :=
  if enabled e s then Some (apply e s) else None.

Fixpoint run (trace : list Event) (s : State) : option State :=
  match trace with
  | [] => Some s
  | e :: rest =>
      match step e s with
      | Some s' => run rest s'
      | None => None
      end
  end.

Definition isSchedule (e : Event) : bool :=
  match e with Schedule _ _ => true | _ => false end.

Definition isHostCall (e : Event) : bool :=
  match e with Schedule _ _ | Flush _ => true | _ => false end.

(** The card of the last [schedule] call of a trace. *)
Fixpoint lastScheduled (trace : list Event) (before : option LarkCard)
  : option LarkCard :=
  match trace with
  | [] => before
  | Schedule _ card :: rest => lastScheduled rest (Some card)
  | _ :: rest => lastScheduled rest before
  end.

(** The [schedule] calls of a trace, in order. *)
Definition scheduleCalls (trace : list Event) : list (Z * LarkCard) :=
  flat_map (fun e => match e with Schedule t c => [(t, c)] | _ => [] end) trace.

(** The card of the last call of the external edit operation. *)
Definition lastPublished (s : State) : option LarkCard :=
  match last (published s) with
  | Some (_, c) => c
  | None => None
  end.

(** Consecutive publishes are at least the minimum interval apart. *)
Fixpoint spaced (times : list Z) : Prop :=
  match times with
  | t1 :: ((t2 :: _) as rest) => t1 + MIN_INTERVAL_MS <= t2 /\ spaced rest
  | _ => True
  end.

End CardUpdateController.

(** ** The renderer controller ([createAgentCardRenderer])

    [deliver] is taken as one transition: the host serializes its calls, so
    nothing runs between the external create operation and the assignment
    of [messageId].  The answer of the create operation is the argument
    [sendResult] ([None] when [sendCardFeishu] throws); it is read only when
    the operation is called. *)

Module AgentCardRenderer.

Import CardUpdateController.

Section Renderer.
Context `{Host}.
Variable mentionTargets : option (list MentionTarget).

Record Renderer := {
  tracker : AgentRunTracker;
  messageId : option jsstring;
  assistantBuffer : jsstring;
  assistantBufferState : jsstring;
  updater : option State;
(** every call of [sendCardFeishu], with its [card] *)
created : list LarkCard
}.

Definition createAgentCardRenderer : Renderer :=
  {| tracker := newTracker; messageId := None; assistantBuffer := [];
     assistantBufferState := []; updater := None; created := [] |}.

Definition theCard (collapseTimeline : bool) (r : Renderer) : LarkCard :=
  let state := buildRenderState collapseTimeline (tracker r) in
  buildLarkCard
    {| rs_status := rs_status state; headline := headline state;
       body := applyMentions mentionTargets (body state);
       rs_timeline := rs_timeline state; finalAnswer := finalAnswer state;
       isTimelineCollapsed := isTimelineCollapsed state;
       timelineMarkdown := timelineMarkdown state;
       showTimelinePanel := showTimelinePanel state |}.

Definition withTracker (t : AgentRunTracker) (r : Renderer) : Renderer :=
  {| tracker := t; messageId := messageId r;
     assistantBuffer := assistantBuffer r;
     assistantBufferState := assistantBufferState r;
     updater := updater r; created := created r |}.

Definition withUpdater (u : option State) (r : Renderer) : Renderer :=
  {| tracker := tracker r; messageId := messageId r;
     assistantBuffer := assistantBuffer r;
     assistantBufferState := assistantBufferState r;
     updater := u; created := created r |}.

(** [renderCard]: without a message the card is only returned. *)
Definition renderCard (now : Z) (collapseTimeline : bool) (r : Renderer)
  : Renderer :=
  match messageId r with
  | None => r
  | Some _ =>
      withUpdater (schedule now (theCard collapseTimeline r) <$> updater r) r
  end.

(** The verbose events of a payload, applied in order; afterwards a
    non-empty event buffer becomes the assistant buffer. *)
Definition applyEvents (now : Z) (evts : option (list VerboseEvent))
    (r : Renderer) : Renderer :=
  match evts with
  | Some ((_ :: _) as l) =>
      let '(t, buf) :=
        foldl (applyVerboseEvent now) (tracker r, assistantBufferState r) l in
      {| tracker := t; messageId := messageId r;
         assistantBuffer := if isEmpty buf then assistantBuffer r else buf;
         assistantBufferState := buf;
         updater := updater r; created := created r |}
  | _ => r
  end.

(** The branch of [deliver] for canonical messages. *)
Definition applyMessages (now : Z) (msgs : list RawItem) (r : Renderer)
  : Renderer :=
  let t := match inferStatusFromMessages (coreMessages msgs) with
           | Some nextStatus => setStatus nextStatus (tracker r)
           | None => tracker r
           end in
  withTracker (appendMessages now (coreMessages msgs) t) r.

(** The branch of [deliver] for plain text. *)
Definition applyText (now : Z) (payloadText : jsstring) (r : Renderer)
  : Renderer :=
  let summary := splitToolSummaryLines payloadText in
  let r :=
    match toolLines summary with
    | [] => r
    | lines =>
        withTracker
          (appendMessages now [AssistantMessage (map TextPart lines)]
             (setStatus ToolCalling (tracker r))) r
    end in
  if isEmpty (remainingText summary) then r
  else
    let buffer := mergeStreamText (assistantBuffer r) (remainingText summary) in
    let t := setDraftAnswer buffer (tracker r) in
    let t := match toolLines summary with
             | [] => setStatus Thinking t
             | _ => t
             end in
    {| tracker := t; messageId := messageId r; assistantBuffer := buffer;
       assistantBufferState := assistantBufferState r;
       updater := updater r; created := created r |}.

(** The end of [deliver]: the first card creates the message and the
    update controller, every later one is scheduled as an edit. *)
Definition present (now : Z) (sendResult : option jsstring) (r : Renderer)
  : Renderer :=
  match messageId r with
  | None =>
      let card := theCard false r in
      match sendResult with
      | Some id =>
          {| tracker := tracker r; messageId := Some id;
             assistantBuffer := assistantBuffer r;
             assistantBufferState := assistantBufferState r;
             updater := Some (createCardUpdateController now);
             created := created r ++ [card] |}
      | None =>
          {| tracker := tracker r; messageId := None;
             assistantBuffer := assistantBuffer r;
             assistantBufferState := assistantBufferState r;
             updater := updater r;
             created := created r ++ [card] |}
      end
  | Some _ => renderCard now false r
  end.

Definition deliver (now : Z) (sendResult : option jsstring)
    (payload : ReplyPayload) (r : Renderer) : Renderer :=
  let messages_ := extractAgentMessages payload in
  let events_ := extractVerboseEvents payload in
  let payloadText := match text payload with Some t => t | None => [] end in
  let r1 := applyEvents now events_ r in
  match messages_ with
  | Some msgs => present now sendResult (applyMessages now msgs r1)
  | None =>
      if negb (isEmpty (trim payloadText))
      then present now sendResult (applyText now payloadText r1)
      else match events_ with
           | None => r1
           | Some _ => present now sendResult r1
           end
  end.

Definition finalize (now : Z) (r : Renderer) : Renderer :=
  if bool_decide (messageId r = None) && isEmpty (trim (assistantBuffer r))
     && bool_decide (currentStatus (tracker r) = Thinking)
  then r
  else
    let r := renderCard now true (withTracker (setStatus Completed (tracker r)) r) in
    withUpdater (flush now <$> updater r) r.

Definition onError (now : Z) (r : Renderer) : Renderer :=
  if bool_decide (messageId r = None) && isEmpty (trim (assistantBuffer r))
  then r
  else
    let r := renderCard now true (withTracker (setStatus Error (tracker r)) r) in
    withUpdater (flush now <$> updater r) r.

(** A completion of a timer or of the external edit operation. *)
Definition settle (e : Event) (r : Renderer) : option Renderer :=
  if isHostCall e then None
  else match updater r with
       | Some u => (fun u' => withUpdater (Some u') r) <$> step e u
       | None => None
       end.

Fixpoint settleAll (trace : list Event) (r : Renderer) : option Renderer :=
  match trace with
  | [] => Some r
  | e :: rest =>
      match settle e r with
      | Some r' => settleAll rest r'
      | None => None
      end
  end.

Definition hostTime (r : Renderer) : Z :=
  match updater r with Some u => clock u | None => 0%Z end.

(** The renderers that calls by the host and completions can produce. *)
Inductive reachable : Renderer -> Prop :=
| reach_create : reachable createAgentCardRenderer
| reach_deliver now sendResult payload r :
    reachable r -> (hostTime r <= now)%Z ->
    reachable (deliver now sendResult payload r)
| reach_finalize now r :
    reachable r -> (hostTime r <= now)%Z -> reachable (finalize now r)
| reach_onError now r :
    reachable r -> (hostTime r <= now)%Z -> reachable (onError now r)
| reach_settle e r r' :
    reachable r -> settle e r = Some r' -> reachable r'.

End Renderer.

End AgentCardRenderer.

(** * Vocabulary of the properties *)

(** ** Run tracker *)

(** The public operations of the run tracker. *)
Inductive TrackerOp :=
| OpAppendMessages (now : Z) (messages : list AgentCoreMessage)
| OpSetStatus (s : AgentRunStatus)
| OpSetDraftAnswer (answer : jsstring)
| OpReset.

Definition applyOp (t : AgentRunTracker) (op : TrackerOp) : AgentRunTracker :=
  match op with
  | OpAppendMessages now messages => appendMessages now messages t
  | OpSetStatus s => setStatus s t
  | OpSetDraftAnswer answer => setDraftAnswer answer t
  | OpReset => reset t
  end.

Definition runOps (ops : list TrackerOp) (t : AgentRunTracker) : AgentRunTracker :=
  foldl applyOp t ops.

(** The tool-use ids of a timeline, one per entry that has one, in order. *)
Definition allToolUseIds (l : list TimelineEntry) : list jsstring :=
  omap toolUseId l.

(** The same, without the empty id. *)
Definition toolIds (l : list TimelineEntry) : list jsstring :=
  omap (fun e => match toolUseId e with
                 | Some (c :: r) => Some (c :: r)
                 | _ => None
                 end) l.

(** The entries of a timeline that carry the id [id]. *)
Definition entriesOf (id : jsstring) (l : list TimelineEntry) : list TimelineEntry :=
  List.filter (fun e => bool_decide (toolUseId e = Some id)) l.

(** A display content that ends with the elapsed-time tag. *)
Definition hasDurationTag (s : jsstring) : Prop :=
  exists label d,
    s = label ++ js " " ++ js "<text_tag color='turquoise'>耗时 " ++ toFixed1 d
          ++ js " 秒</text_tag>".

(** What the projection guarantees of an entry: only tool-call entries
    carry an id, a tool-call entry shows the label of its call with its
    recorded duration, and a duration is recorded only under a non-empty
    id. *)
Definition wfEntry (e : TimelineEntry) : Prop :=
  (kind e <> KindToolCall -> toolUseId e = None)
  /\ (kind e = KindToolCall ->
      exists name, content e = buildToolCallContent name (durationMs e))
  /\ (is_Some (durationMs e) -> truthy (toolUseId e) = true).

(** The correlation map points at tool-call entries of the right id. *)
Definition collectorInv (acc : Collector) : Prop :=
  Forall wfEntry (col_timeline acc)
  /\ (forall k m, toolEntryMap acc !! k = Some m ->
        k <> [] /\ exists e, col_timeline acc !! index m = Some e
                             /\ toolUseId e = Some k /\ kind e = KindToolCall).

Definition trackerInv (t : AgentRunTracker) : Prop :=
  Forall (fun e => wfEntry e /\ getTimelineEntryKey e ∈ seen t) (timeline t)
  /\ NoDup (toolIds (timeline t))
  /\ (forall k, k ∈ seen t ->
        exists i e, timeline t !! i = Some e /\ getTimelineEntryKey e = k).

(** A batch that holds one tool-call message. *)
Definition toolCallBatch (name id : jsstring) (startedAt : option Z)
  : list AgentCoreMessage :=
  [AssistantMessage [ToolCallPart name (Some id) startedAt]].

(** What the projection makes of a tool-call part. *)
Definition toolCallEntry (name : jsstring) (id : option jsstring) : TimelineEntry :=
  let toolName_ := if isEmpty name then js "unknown-tool" else name in
  {| kind := KindToolCall; content := formatToolCall toolName_;
     toolUseId := id; toolName := Some toolName_; durationMs := None |}.

(** Two tool calls whose id is the empty string, in one assistant message. *)
Definition emptyIdBatch : list AgentCoreMessage :=
  [AssistantMessage [ToolCallPart (js "read") (Some []) None;
                     ToolCallPart (js "write") (Some []) None]].

(** A short run: a call, a status change, a draft, the same call again. *)
Definition sampleOps : list TrackerOp :=
  [ OpAppendMessages 1000 (toolCallBatch (js "exec") (js "call-1") (Some 1000%Z));
    OpSetStatus ToolCalling;
    OpSetDraftAnswer (js "working");
    OpAppendMessages 1500 (toolCallBatch (js "exec") (js "call-1") (Some 1500%Z)) ].

(** A batch holds a tool-call part of the id [id]. *)
Definition isCallOf (id : jsstring) (p : AgentContentPart) : bool :=
  match p with
  | ToolCallPart _ (Some i) _ => eqb i id
  | _ => false
  end.

Definition hasToolCall (id : jsstring) (batch : list AgentCoreMessage) : bool :=
  existsb (fun m => match m with
                    | AssistantMessage parts => existsb (isCallOf id) parts
                    | ToolMessage _ _ => false
                    end) batch.

(** A batch holds a tool-result part of the id [id]. *)
Definition hasToolResult (id : jsstring) (batch : list AgentCoreMessage) : bool :=
  existsb (fun m => match m with
                    | AssistantMessage _ => false
                    | ToolMessage _ parts =>
                        existsb (fun p => bool_decide (result_toolUseId p = Some id))
                                parts
                    end) batch.

(** A call and its result in one batch, and the same call alone. *)
Definition timedBatch : list AgentCoreMessage :=
  [ AssistantMessage [ToolCallPart (js "exec") (Some (js "call-1")) (Some 1000%Z)];
    ToolMessage (Some (js "call-1"))
      [{| result_toolUseId := Some (js "call-1"); result_text := Some (js "done");
          completedAt := Some 2200%Z; result_durationMs := None |}] ].

(** A tool start and the matching tool end as verbose events. *)
Definition toolStartEvent : VerboseEvent :=
  {| stream := StreamTool; data_text := None; data_phase := Some (js "start");
     data_name := Some (js "exec"); data_toolCallId := Some (js "call-1");
     data_isError := None; data_meta := []; data_output := None;
     data_durationMs := None; data_error := None |}.

Definition toolEndEvent : VerboseEvent :=
  {| stream := StreamTool; data_text := None; data_phase := Some (js "end");
     data_name := Some (js "exec"); data_toolCallId := Some (js "call-1");
     data_isError := None; data_meta := []; data_output := Some (js "ok");
     data_durationMs := Some 1200%Z; data_error := None |}.

(** An entry of the id [id] is the fresh projection of a tool call. *)
Definition freshFor (id : jsstring) (e : TimelineEntry) : Prop :=
  toolUseId e = Some id -> exists name, e = toolCallEntry name (Some id).

(** ** Render projector *)

(** A string holds a unit that is not white space. *)
Definition hasInk (s : jsstring) : bool := existsb (fun c => negb (isSpace c)) s.



(** ** Renderer controller *)

Import AgentCardRenderer.

(** A host for closed examples: a table of the main emoji blocks, the
    usual text of the [Object] function, and a mention formatter that puts
    one tag per target before the text. *)
Definition sampleHost : Host :=
  {| isExtendedPictographic :=
       fun c => ((127744 <=? c) && (c <=? 129791))
                || ((9728 <=? c) && (c <=? 10175));
     objectFunctionText := js "function Object() { [native code] }";
     MentionTarget := jsstring;
     buildMentionedCardContent :=
       fun targets text =>
         flat_map (fun target => js "<at id=" ++ target ++ js "></at> ") targets
         ++ text |}.

(** No pictograph is an ASCII letter. *)
Definition pictographsOffLetters `{Host} : Prop :=
  forall c, isAsciiLetter c = true -> isExtendedPictographic c = false.

Definition emptyPayload : ReplyPayload :=
  {| text := None; messages := None; meta_agentMessages := None;
     meta_messages := None; extra_messages := None; context_messages := None;
     delta_messages := None; events := None; meta_events := None;
     extra_events := None; context_events := None; delta_events := None |}.

Definition textPayload (s : jsstring) : ReplyPayload :=
  {| text := Some s; messages := None; meta_agentMessages := None;
     meta_messages := None; extra_messages := None; context_messages := None;
     delta_messages := None; events := None; meta_events := None;
     extra_events := None; context_events := None; delta_events := None |}.

(** [{text: "web_search: query=foo\nHere are the results"}] *)
Definition searchPayload : ReplyPayload :=
  textPayload (js "web_search: query=foo" ++ [10] ++ js "Here are the results").

(** A payload with one canonical message and one verbose event. *)
Definition bothPayload : ReplyPayload :=
  {| text := None;
     messages := Some [RawMessage (AssistantMessage [TextPart (js "Hi")])];
     meta_agentMessages := None;
     meta_messages := None; extra_messages := None; context_messages := None;
     delta_messages := None;
     events := Some [toolStartEvent];
     meta_events := None;
     extra_events := None; context_events := None; delta_events := None |}.

Definition messagesOnly (p : ReplyPayload) : ReplyPayload :=
  {| text := text p; messages := messages p;
     meta_agentMessages := meta_agentMessages p;
     meta_messages := meta_messages p; extra_messages := extra_messages p;
     context_messages := context_messages p; delta_messages := delta_messages p;
     events := None; meta_events := None;
     extra_events := None; context_events := None; delta_events := None |}.

Definition eventsOnly (p : ReplyPayload) : ReplyPayload :=
  {| text := text p; messages := None; meta_agentMessages := None;
     meta_messages := None; extra_messages := None; context_messages := None;
     delta_messages := None;
     events := events p; meta_events := meta_events p;
     extra_events := extra_events p; context_events := context_events p;
     delta_events := delta_events p |}.

Definition withText (s : option jsstring) (p : ReplyPayload) : ReplyPayload :=
  {| text := s; messages := messages p;
     meta_agentMessages := meta_agentMessages p;
     meta_messages := meta_messages p; extra_messages := extra_messages p;
     context_messages := context_messages p; delta_messages := delta_messages p;
     events := events p; meta_events := meta_events p;
     extra_events := extra_events p; context_events := context_events p;
     delta_events := delta_events p |}.

(** The text of a payload, [payload.text ?? ""]. *)
Definition payloadText (p : ReplyPayload) : jsstring :=
  match text p with Some s => s | None => [] end.

(** The payload makes [deliver] take the message path, the event path, the
    text path. *)
Definition takesMessages (p : ReplyPayload) : bool :=
  match extractAgentMessages p with Some _ => true | None => false end.

Definition takesEvents (p : ReplyPayload) : bool :=
  match extractVerboseEvents p with Some _ => true | None => false end.

Definition takesText (p : ReplyPayload) : bool :=
  negb (takesMessages p) && negb (isEmpty (trim (payloadText p))).

(** ** Update scheduler *)

Import CardUpdateController.

(** Completions of timers and of the external edit operation, as opposed
    to calls by the host. *)
Definition isCompletion (e : Event) : bool := negb (isHostCall e).

(** The external edit operation does not fail in this event. *)
Definition succeeds (e : Event) : bool :=
  match e with
  | UpdateSettled _ ok | FlushUpdateSettled _ ok => ok
  | _ => true
  end.

(** The card that the controller holds or has published last. *)
Definition latest (s : State) : option LarkCard :=
  match pending s with
  | Some c => Some c
  | None => lastPublished s
  end.

(** The times of the calls of the external edit operation. *)
Definition publishTimes (s : State) : list Z := map fst (published s).

(** What holds of the controller between any two events: a pending card
    has a loop that will publish it; a loop that waits was timed from the
    last publish; [flush] never publishes by itself; the publishes so far
    are spaced, none is later than [lastSentAt], and each carried a card. *)
Definition schedInv (s : State) : Prop :=
  (inFlight s = LoopIdle -> pending s = None)
  /\ (forall due, inFlight s = LoopWaiting due ->
        is_Some (pending s) /\ (lastSentAt s + MIN_INTERVAL_MS <= due)%Z)
  /\ (flushCall s = FlushAwaitingLoop -> inFlight s <> LoopIdle)
  /\ flushCall s <> FlushPublishing
  /\ (forall due, flushCall s <> FlushWaiting due)
  /\ spaced (publishTimes s)
  /\ Forall (fun p => (fst p <= lastSentAt s)%Z /\ is_Some (snd p)) (published s).

(** How many successful completions a [flush] still has to wait for. *)
Definition completionsLeft (s : State) : nat :=
  match inFlight s, pending s with
  | LoopIdle, _ => 0
  | LoopWaiting _, _ => 2
  | LoopPublishing, None => 1
  | LoopPublishing, Some _ => 3
  end.

(** The completion that a busy controller can take next, at the earliest. *)
Definition nextCompletion (s : State) : option Event :=
  match inFlight s with
  | LoopIdle => None
  | LoopWaiting due => Some (TimerFired (Z.max due (clock s)))
  | LoopPublishing => Some (UpdateSettled (clock s) true)
  end.

(** The part of [schedInv] that does not speak of the loop. *)
Definition recordInv (s : State) : Prop :=
  flushCall s <> FlushPublishing
  /\ (forall due, flushCall s <> FlushWaiting due)
  /\ spaced (publishTimes s)
  /\ Forall (fun p => (fst p <= lastSentAt s)%Z /\ is_Some (snd p)) (published s).

(** A [flush] that has resolved left the controller idle and empty. *)
Definition settledFlush (s : State) : Prop :=
  flushCall s = FlushResolved -> pending s = None /\ inFlight s = LoopIdle.

(** While a [flush] is outstanding it awaits the loop. *)
Definition flushProgress (s : State) : Prop :=
  (inFlight s = LoopIdle /\ flushCall s = FlushResolved)
  \/ (inFlight s <> LoopIdle /\ flushCall s = FlushAwaitingLoop).

(** Three card documents to tell apart. *)
Definition cardA : LarkCard :=
  {| header_template := js "blue"; header_icon := js "premium-gleam_filled";
     header_title := js "思考中"; elements := [Markdown (js "A")] |}.
Definition cardB : LarkCard :=
  {| header_template := js "wathet"; header_icon := js "setting-inter_filled";
     header_title := js "调用工具中"; elements := [Markdown (js "B")] |}.
Definition cardC : LarkCard :=
  {| header_template := js "green"; header_icon := js "succeed_filled";
     header_title := js "全部完成"; elements := [Markdown (js "C")] |}.

(** The phases of a burst of [schedule] calls.  [L] is the time of the
    publish before the burst and [P0] the record of the publishes up to it. *)

(** No card was ever scheduled. *)
Definition untouched (s : State) : Prop :=
  pending s = None /\ inFlight s = LoopIdle /\ lastSentAt s = 0%Z
  /\ published s = [].

(** The card [c] is pending and is held back until [L + MIN_INTERVAL_MS]. *)
Definition heldBack (L : Z) (P0 : list (Z * option LarkCard)) (c : LarkCard)
    (s : State) : Prop :=
  pending s = Some c /\ lastSentAt s = L /\ published s = P0
  /\ (inFlight s = LoopWaiting (L + MIN_INTERVAL_MS) \/ inFlight s = LoopPublishing).

(** The card [c] was published, once, no earlier than [L + MIN_INTERVAL_MS]. *)
Definition sentAfter (L : Z) (P0 : list (Z * option LarkCard)) (c : LarkCard)
    (s : State) : Prop :=
  pending s = None
  /\ (inFlight s = LoopPublishing \/ inFlight s = LoopIdle)
  /\ exists t, (L + MIN_INTERVAL_MS <= t)%Z /\ (t <= clock s)%Z
               /\ published s = P0 ++ [(t, Some c)].

(** The first card [c] was published at once, at [T0]. *)
Definition sentAtOnce (T0 : Z) (c : LarkCard) (s : State) : Prop :=
  pending s = None /\ lastSentAt s = T0 /\ published s = [(T0, Some c)]
  /\ (inFlight s = LoopPublishing \/ inFlight s = LoopIdle).

(** A burst of three calls, 0, 50 and 100 ms after a first call at [T0],
    with the completions that follow when the edit operation takes 20 ms. *)
Definition burstAtZero : list Event :=
  [ Schedule 0 cardA; Schedule 50 cardB; Schedule 100 cardC;
    TimerFired 350; UpdateSettled 370 true ].

Definition burstAt (T0 : Z) : list Event :=
  [ Schedule T0 cardA; UpdateSettled (T0 + 20) true;
    Schedule (T0 + 50) cardB; Schedule (T0 + 100) cardC;
    TimerFired (T0 + 350); UpdateSettled (T0 + 370) true ].

(** ** Renderer and scheduler together *)

(** A renderer has an update controller exactly when it has a message, and
    the controller is in order. *)
Definition rendererInv (r : Renderer) : Prop :=
  match messageId r, updater r with
  | None, None => True
  | Some _, Some u => schedInv u
  | _, _ => False
  end.


(** * Vocabulary of the further properties *)

(** An assistant event that carries the text [chunk]. *)
Definition assistantEvent (chunk : option jsstring) : VerboseEvent :=
  {| stream := StreamAssistant; data_text := chunk;
     data_phase := None; data_name := None; data_toolCallId := None;
     data_isError := None; data_meta := []; data_output := None;
     data_durationMs := None; data_error := None |}.

(** An entry is keyed by its tool-use id. *)
Definition keyedById (e : TimelineEntry) : bool :=
  bool_decide (kind e = KindToolCall) && truthy (toolUseId e).

(** The fresh entry of a tool call with an id. *)
Definition callEntry (name id : jsstring) : TimelineEntry :=
  toolCallEntry name (Some id).


(** What an entry of the timeline can become: itself, or a newer tool-call
    entry of the same non-empty id. *)
Definition supersedes (e' e : TimelineEntry) : Prop :=
  e' = e
  \/ (kind e' = KindToolCall /\ truthy (toolUseId e') = true
      /\ toolUseId e' = toolUseId e).

(** A tracker keeps the history of another one. *)
Definition keepsHistory (t t' : AgentRunTracker) : Prop :=
  status t' = status t
  /\ seen t ⊆ seen t'
  /\ (length (timeline t) <= length (timeline t'))%nat
  /\ (forall i e, timeline t !! i = Some e ->
        exists e', timeline t' !! i = Some e' /\ supersedes e' e).

(** The content parts of the assistant messages of a batch, in order. *)
Definition assistantParts (msgs : list AgentCoreMessage) : list AgentContentPart :=
  flat_map (fun m => match m with
                     | AssistantMessage c => c
                     | ToolMessage _ _ => []
                     end) msgs.

(** The kind and the id of the timeline entry that a content part is
    projected to; a text or thinking part without ink has none. *)
Definition shownHead (p : AgentContentPart)
  : option (EntryKind * option jsstring) :=
  match p with
  | TextPart text => if hasInk text then Some (KindText, None) else None
  | ThinkingPart text => if hasInk text then Some (KindThinking, None) else None
  | ToolCallPart _ id _ => Some (KindToolCall, id)
  end.

(** The contribution of a content part to the final text. *)
Definition answerPart (p : AgentContentPart) : option jsstring :=
  match p with
  | TextPart text => if hasInk text then Some (trim text) else None
  | _ => None
  end.

Definition entryHead (e : TimelineEntry) : EntryKind * option jsstring :=
  (kind e, toolUseId e).

(** The entries of the collector answer the parts [parts], one by one. *)
Definition collects (acc : Collector) (parts : list AgentContentPart) : Prop :=
  map entryHead (col_timeline acc) = omap shownHead parts
  /\ Forall (fun e => content e <> []) (col_timeline acc)
  /\ col_textParts acc = omap answerPart parts.

(** A payload whose canonical messages hold a tool call and a thinking
    part. *)
Definition searchCallPayload : ReplyPayload :=
  {| text := None;
     messages :=
       Some [RawMessage (AssistantMessage
                           [ThinkingPart (js "look it up");
                            ToolCallPart (js "web_search") (Some (js "call-7")) None])];
     meta_agentMessages := None;
     meta_messages := None; extra_messages := None; context_messages := None;
     delta_messages := None;
     events := None; meta_events := None;
     extra_events := None; context_events := None; delta_events := None |}.



(** The statuses that the renderer can give to a run. *)
Definition liveStatus (s : AgentRunStatus) : bool :=
  match s with
  | Idle | Canceled => false
  | _ => true
  end.

(** The cards that the controller has taken charge of and not dropped:
    those it has published, then the one it holds. *)
Definition handled (s : State) : list (option LarkCard) :=
  map snd (published s)
  ++ match pending s with Some c => [Some c] | None => [] end.

(** The cards of the [schedule] calls of a trace, in order. *)
Definition scheduledCards (trace : list Event) : list (option LarkCard) :=
  map (fun call => Some (snd call)) (scheduleCalls trace).

(** Completions of the external edit operation. *)
Definition isEditSettled (e : Event) : bool :=
  match e with
  | UpdateSettled _ _ | FlushUpdateSettled _ _ => true
  | _ => false
  end.

(** The calls of the external edit operation that have not completed. *)
Definition editsInFlight (s : State) : nat :=
  (match inFlight s with LoopPublishing => 1 | _ => 0 end)
  + (match flushCall s with FlushPublishing => 1 | _ => 0 end).

(** Snapshots of a growing text: none is empty and each extends the one
    before, the first one extending [prev]. *)
Fixpoint growing (prev : jsstring) (texts : list jsstring) : Prop :=
  match texts with
  | [] => True
  | x :: rest => x <> [] /\ prev `prefix_of` x /\ growing x rest
  end.

(** The tool line that [splitToolSummaryLines] makes of the two groups of
    a match. *)
Definition toolLineOf `{Host} (group1 group2 : jsstring) : jsstring :=
  let rawToolName := trim group1 in
  let label := match lookupLabel (underscoreRuns false (toLowerCase rawToolName)) with
               | Some l => l
               | None => rawToolName
               end in
  let header := js "调用`" ++ label ++ js "`工具:" in
  if isEmpty (trim group2) then header else header ++ js " " ++ trim group2.

(** * Properties *)

(** ** Strings *)

Example js_ascii : js "a b" = [97; 32; 98].
Proof. reflexivity. Qed.

Example js_cjk : js "思考" = [24605; 32771].
Proof. reflexivity. Qed.

Example js_astral : js "🔧" = [55357; 56615].
Proof. reflexivity. Qed.

Example trim_ex : trim (js "  a b  ") = js "a b".
Proof. reflexivity. Qed.

Example toFixed1_ex :
  map toFixed1 [0; 49; 50; 150; 250; 350; 450; 1200; 1250; 61234; -5]%Z
  = map js ["0.0"; "0.0"; "0.1"; "0.1"; "0.3"; "0.3"; "0.5"; "1.2"; "1.3"; "61.2"; "0.0"].
Proof. vm_compute. reflexivity. Qed.

Lemma startsWith_prefix (s p : jsstring) :
  startsWith s p = true <-> p `prefix_of` s.
Proof.
  revert s; induction p as [|b p IH]; intros s; simpl.
  - split; [intros _; apply prefix_nil | done].
  - destruct s as [|a s].
    + split; [done | intros Hp; by apply prefix_nil_not in Hp].
    + rewrite andb_true_iff, N.eqb_eq, IH. split.
      * intros [-> Hp]. by apply prefix_cons.
      * intros Hp. split; [symmetry; eapply prefix_cons_inv_1, Hp
                          | eapply prefix_cons_inv_2, Hp].
Qed.

Lemma startsWith_refl (s : jsstring) : startsWith s s = true.
Proof. by apply startsWith_prefix. Qed.

Lemma startsWith_longer (s p : jsstring) :
  startsWith s p = true -> startsWith p s = true -> s = p.
Proof.
  rewrite !startsWith_prefix. intros H1 H2.
  by apply (anti_symm prefix).
Qed.

(** ** Text merge *)

(** C2. Merge idempotence and monotonicity: [merge(P, P) = P]; when [P] is
    a proper prefix of [N], [merge(P, N) = N]; when [N] is a proper prefix
    of [P], [merge(P, N) = P]. *)
Theorem mergeStreamText_laws :
  (forall P : jsstring, mergeStreamText P P = P)
  /\ (forall P N : jsstring,
        P `prefix_of` N -> P <> N -> mergeStreamText P N = N)
  /\ (forall P N : jsstring,
        N `prefix_of` P -> N <> P -> mergeStreamText P N = P).
Proof.
  repeat split.
  - intros P. unfold mergeStreamText.
    destruct P as [|c P]; [done|]. cbn [isEmpty].
    by rewrite startsWith_refl.
  - intros P N Hpre Hne. unfold mergeStreamText.
    destruct P as [|c P]; [done|]. cbn [isEmpty].
    destruct N as [|d N]; [by apply prefix_nil_not in Hpre|]. cbn [isEmpty].
    apply startsWith_prefix in Hpre. by rewrite Hpre.
  - intros P N Hpre Hne. unfold mergeStreamText.
    destruct P as [|c P]; [by apply prefix_nil_inv in Hpre|]. cbn [isEmpty].
    destruct N as [|d N]; [done|]. cbn [isEmpty].
    destruct (startsWith (d :: N) (c :: P)) eqn:E.
    + apply startsWith_prefix in Hpre.
      by destruct Hne; apply startsWith_longer.
    + apply startsWith_prefix in Hpre. by rewrite Hpre.
Qed.

Lemma mergeStreamText_laws_witness :
  mergeStreamText (js "Hello") (js "Hello") = js "Hello"
  /\ mergeStreamText (js "Hello") (js "Hello world") = js "Hello world"
  /\ mergeStreamText (js "Hello world") (js "Hello") = js "Hello world".
Proof.
  destruct mergeStreamText_laws as (Hidem & Hext & Hstale).
  split; [apply Hidem|].
  split.
  - apply Hext; [by exists (js " world") | by vm_compute].
  - apply Hstale; [by exists (js " world") | by vm_compute].
Defined.

(** The merge written out in the assistant branch of [applyVerboseEvent]
    agrees with [mergeStreamText] on every non-empty chunk. *)
Lemma assistant_branch_merge (prev chunk : jsstring) :
  chunk <> [] ->
  (if startsWith chunk prev then chunk
   else if startsWith prev chunk then prev else prev ++ chunk)
  = mergeStreamText prev chunk.
Proof.
  intros Hc. unfold mergeStreamText.
  destruct prev as [|c prev]; [by destruct chunk|].
  destruct chunk as [|d chunk]; [done|]. done.
Qed.

(** ** Message projection *)

Section Projection.

Implicit Types (acc : Collector) (e : TimelineEntry).

Lemma wfEntry_plain k c :
  k <> KindToolCall ->
  wfEntry {| kind := k; content := c; toolUseId := None; toolName := None;
             durationMs := None |}.
Proof.
  intros Hk. split; [done|]. split; [done|]. simpl. by intros [d Hd].
Qed.

Lemma wfEntry_toolCallEntry name id : wfEntry (toolCallEntry name id).
Proof.
  split; [done|]. split.
  - intros _. by eexists.
  - simpl. by intros [d Hd].
Qed.

Lemma collectorInv_empty :
  collectorInv {| col_timeline := []; col_textParts := []; toolEntryMap := ∅ |}.
Proof.
  split; cbn [col_timeline toolEntryMap]; [constructor|].
  intros k m Hk. by rewrite lookup_empty in Hk.
Qed.

Lemma collectorInv_push acc e parts :
  collectorInv acc -> wfEntry e ->
  collectorInv {| col_timeline := col_timeline acc ++ [e];
                  col_textParts := parts; toolEntryMap := toolEntryMap acc |}.
Proof.
  intros [Hwf Hmap] He. split; simpl.
  - apply Forall_app. split; [done|]. by constructor.
  - intros k m Hk. destruct (Hmap k m Hk) as (Hne & x & Hx & Hid & Hkind).
    split; [done|]. exists x. split; [|done]. by apply lookup_app_l_Some.
Qed.

Lemma collectContent_inv acc part :
  collectorInv acc -> collectorInv (collectContent acc part).
Proof.
  intros Hacc. destruct part as [text|text|name id started];
    cbn [collectContent].
  - destruct (isEmpty _); [done|]. by apply collectorInv_push, wfEntry_plain.
  - destruct (isEmpty _); [done|]. by apply collectorInv_push, wfEntry_plain.
  - pose proof (collectorInv_push acc (toolCallEntry name id) (col_textParts acc)
                  Hacc (wfEntry_toolCallEntry name id)) as [Hwf Hmap].
    split; [exact Hwf|]. cbn [col_timeline toolEntryMap] in *.
    destruct id as [[|c r]|]; cbn [truthy]; try exact Hmap.
    intros k m. destruct (decide (k = c :: r)) as [->|Hne].
    + rewrite lookup_insert_eq. intros [= <-]. split; [done|].
      exists (toolCallEntry name (Some (c :: r))). cbn [index].
      split; [|done]. by rewrite lookup_app_r, Nat.sub_diag by lia.
    + rewrite lookup_insert_ne by done. apply Hmap.
Qed.

Lemma collectResult_inv now acc part :
  collectorInv acc -> collectorInv (collectResult now acc part).
Proof.
  intros [Hwf Hmap]. unfold collectResult.
  destruct (result_toolUseId part) as [i|]; [|done].
  destruct (truthy (Some i)) eqn:Hi; [|done].
  destruct (toolEntryMap acc !! i) as [entryMeta|] eqn:Hm; [|done].
  destruct (col_timeline acc !! index entryMeta) as [entry|] eqn:E; [|done].
  destruct (Hmap i entryMeta Hm) as (Hne & x & Hx & Hid & Hkind).
  rewrite E in Hx. injection Hx as <-.
  split; cbn [col_timeline toolEntryMap].
  - apply Forall_insert; [done|].
    split; [|split]; cbn [kind toolUseId content durationMs].
    + by intros [].
    + intros _. by eexists.
    + intros _. by rewrite Hid.
  - intros k m Hk. destruct (Hmap k m Hk) as (Hk0 & y & Hy & Hidy & Hky).
    split; [done|].
    destruct (decide (index m = index entryMeta)) as [Heq|Hneq].
    + rewrite Heq in *. rewrite E in Hy. injection Hy as <-.
      eexists. split.
      { apply list_lookup_insert_eq. by eapply lookup_lt_Some. }
      done.
    + exists y. split; [|done]. by rewrite list_lookup_insert_ne.
Qed.

Lemma collectMessage_inv now acc message :
  collectorInv acc -> collectorInv (collectMessage now acc message).
Proof.
  destruct message as [parts|id parts]; simpl.
  - revert acc. induction parts as [|p parts IH]; intros acc Hacc; [done|].
    simpl. by apply IH, collectContent_inv.
  - revert acc. induction parts as [|p parts IH]; intros acc Hacc; [done|].
    simpl. by apply IH, collectResult_inv.
Qed.

Lemma foldl_collectMessage_inv now messages acc :
  collectorInv acc -> collectorInv (foldl (collectMessage now) acc messages).
Proof.
  revert acc. induction messages as [|m ms IH]; intros acc Hacc; [done|].
  simpl. by apply IH, collectMessage_inv.
Qed.

Lemma collectDisplayChunks_wf now messages :
  Forall wfEntry (chunk_timeline (collectDisplayChunks now messages)).
Proof.
  unfold collectDisplayChunks. simpl.
  apply foldl_collectMessage_inv, collectorInv_empty.
Qed.

End Projection.

(** ** Run tracker: one timeline entry per tool-use id *)

Section TrackerInvariant.

Implicit Types (t : AgentRunTracker) (e : TimelineEntry).

Lemma wfEntry_toolcall e c r :
  wfEntry e -> toolUseId e = Some (c :: r) -> kind e = KindToolCall.
Proof.
  intros [Hwf _] Hid. destruct (decide (kind e = KindToolCall)) as [|Hk]; [done|].
  apply Hwf in Hk. congruence.
Qed.

Lemma key_of_toolcall e c r :
  kind e = KindToolCall -> toolUseId e = Some (c :: r) ->
  getTimelineEntryKey e = js "tool:" ++ c :: r.
Proof. intros Hk Hid. unfold getTimelineEntryKey. by rewrite Hk, Hid. Qed.

Lemma elem_of_toolIds id (l : list TimelineEntry) :
  id ∈ toolIds l <-> id <> [] /\ exists e, e ∈ l /\ toolUseId e = Some id.
Proof.
  unfold toolIds. rewrite list_elem_of_omap. split.
  - intros (e & He & Hid). destruct (toolUseId e) as [[|c r]|] eqn:E; try done.
    injection Hid as <-. split; [done|]. by exists e.
  - intros (Hne & e & He & Hid). exists e. split; [done|].
    rewrite Hid. by destruct id.
Qed.

Lemma toolIds_app (l1 l2 : list TimelineEntry) :
  toolIds (l1 ++ l2) = toolIds l1 ++ toolIds l2.
Proof. apply omap_app. Qed.

Lemma toolIds_insert (l : list TimelineEntry) i e e' :
  l !! i = Some e' -> toolUseId e' = toolUseId e ->
  toolIds (<[i := e]> l) = toolIds l.
Proof.
  revert i. induction l as [|x l IH]; intros [|i] Hi Hid; try done.
  - simpl in Hi. injection Hi as ->. unfold toolIds. simpl. by rewrite Hid.
  - simpl in *. unfold toolIds in *. simpl. by rewrite (IH i).
Qed.

Lemma allToolUseIds_insert (l : list TimelineEntry) i e e' :
  l !! i = Some e' -> toolUseId e' = toolUseId e ->
  allToolUseIds (<[i := e]> l) = allToolUseIds l.
Proof.
  revert i. induction l as [|x l IH]; intros [|i] Hi Hid; try done.
  - simpl in Hi. injection Hi as ->. unfold allToolUseIds. simpl. by rewrite Hid.
  - simpl in *. unfold allToolUseIds in *. simpl. by rewrite (IH i).
Qed.

Lemma findIndex_Some {A} (p : A -> bool) (l : list A) i :
  findIndex p l = Some i ->
  exists x, l !! i = Some x /\ p x = true
            /\ forall j y, (j < i)%nat -> l !! j = Some y -> p y = false.
Proof.
  revert i. induction l as [|x l IH]; intros i; simpl; [done|].
  destruct (p x) eqn:Hp.
  - intros [= <-]. exists x. repeat split; [done|]. intros j y Hj. lia.
  - destruct (findIndex p l) as [k|]; [|done]. simpl. intros [= <-].
    destruct (IH k eq_refl) as (y & Hy & Hpy & Hmin).
    exists y. repeat split; [done..|].
    intros [|j] z Hj Hz; simpl in Hz; [congruence|].
    apply (Hmin j); [lia|done].
Qed.

Lemma findIndex_None {A} (p : A -> bool) (l : list A) :
  findIndex p l = None -> forall x, x ∈ l -> p x = false.
Proof.
  induction l as [|x l IH]; simpl; intros Hf y Hy; [by apply elem_of_nil in Hy|].
  destruct (p x) eqn:Hp; [done|].
  destruct (findIndex p l); [done|].
  apply elem_of_cons in Hy as [->|Hy]; [done|]. by apply IH.
Qed.

Lemma trackerInv_new : trackerInv newTracker.
Proof.
  split; [constructor|]. split; [constructor|].
  intros k Hk. by apply elem_of_empty in Hk.
Qed.

Lemma formatToolCall_nonempty name : isEmpty (formatToolCall name) = false.
Proof. reflexivity. Qed.

(** A key of the form [tool:<id>] belongs to a tool-call entry with that
    id: the three kind prefixes differ from [tool:]. *)
Lemma key_tool_inv e id :
  getTimelineEntryKey e = js "tool:" ++ id ->
  kind e = KindToolCall /\ toolUseId e = Some id /\ id <> [].
Proof.
  unfold getTimelineEntryKey.
  destruct (kind e) eqn:Hk; try (vm_compute; discriminate).
  destruct (toolUseId e) as [[|c r]|] eqn:Hid; try (vm_compute; discriminate).
  unfold truthy. intros Heq. apply app_inv_head in Heq. by subst.
Qed.

Lemma appendEntry_inv t e :
  wfEntry e -> trackerInv t -> trackerInv (appendEntry t e).
Proof.
  intros Hwf (Hall & Hnd & Hseen). unfold appendEntry.
  destruct (negb (isEmpty (content e))
            && negb (bool_decide (getTimelineEntryKey e ∈ seen t))) eqn:Hpush.
  - (* a new key: the entry is pushed *)
    apply andb_true_iff in Hpush as [_ Hfresh].
    apply negb_true_iff, bool_decide_eq_false in Hfresh.
    split; [|split]; simpl.
    + apply Forall_app; split.
      * eapply Forall_impl; [exact Hall|]. intros x [Hx Hk]. split; [done|set_solver].
      * constructor; [split; [done|set_solver]|constructor].
    + rewrite toolIds_app. apply NoDup_app. split; [done|]. split.
      * intros id Hin Hin'.
        unfold toolIds in Hin'. simpl in Hin'.
        destruct (toolUseId e) as [[|c r]|] eqn:Hid;
          try by apply elem_of_nil in Hin'.
        apply list_elem_of_singleton in Hin' as ->.
        apply elem_of_toolIds in Hin as (_ & e1 & He1 & Hid1).
        apply (proj1 (Forall_forall _ _) Hall) in He1 as [Hwf1 Hkey1].
        apply Hfresh.
        rewrite (key_of_toolcall e c r); [|by eapply wfEntry_toolcall|done].
        rewrite <- (key_of_toolcall e1 c r); [done|by eapply wfEntry_toolcall|done].
      * unfold toolIds. simpl.
        destruct (toolUseId e) as [[|c r]|]; simpl;
          [constructor..| |constructor].
        apply NoDup_singleton.
    + intros k Hk. apply elem_of_union in Hk as [Hk|Hk].
      * apply elem_of_singleton in Hk as ->.
        exists (length (timeline t)), e. split; [|done].
        by rewrite lookup_app_r, Nat.sub_diag by lia.
      * destruct (Hseen k Hk) as (i & x & Hi & Hx).
        exists i, x. split; [|done]. by apply lookup_app_l_Some.
  - destruct (bool_decide (kind e = KindToolCall) && truthy (toolUseId e)
              && negb (isEmpty (content e))) eqn:Hrep; [|done].
    apply andb_true_iff in Hrep as [Hrep Hcontent].
    apply andb_true_iff in Hrep as [Hkind Hid].
    apply bool_decide_eq_true in Hkind.
    destruct (findIndex _ (timeline t)) as [i|] eqn:Hfind; [|done].
    apply findIndex_Some in Hfind as (x & Hx & Hsame & _).
    apply bool_decide_eq_true in Hsame.
    split; [|split]; simpl.
    + apply Forall_insert; [done|]. split; [done|].
      rewrite Hcontent in Hpush. simpl in Hpush.
      apply negb_false_iff, bool_decide_eq_true in Hpush. exact Hpush.
    + by rewrite (toolIds_insert _ _ _ x).
    + intros k Hk. destruct (Hseen k Hk) as (j & y & Hj & Hy).
      destruct (decide (j = i)) as [->|Hne].
      * exists i, e. split.
        { apply list_lookup_insert_eq. by eapply lookup_lt_Some. }
        rewrite Hx in Hj. injection Hj as <-. rewrite <- Hy.
        destruct (toolUseId e) as [[|c r]|] eqn:He; try done.
        apply (proj1 (Forall_lookup _ _) Hall) in Hx as [Hwfx _].
        rewrite (key_of_toolcall e c r), (key_of_toolcall x c r);
          [done|by eapply wfEntry_toolcall|done..].
      * exists j, y. split; [|done]. by rewrite list_lookup_insert_ne.
Qed.

Lemma foldl_appendEntry_inv (entries : list TimelineEntry) t :
  Forall wfEntry entries -> trackerInv t ->
  trackerInv (foldl appendEntry t entries).
Proof.
  revert t. induction entries as [|e es IH]; intros t Hes Ht; [done|].
  apply Forall_cons in Hes as [He Hes]. simpl.
  by apply IH, appendEntry_inv.
Qed.

Lemma appendMessages_inv now messages t :
  trackerInv t -> trackerInv (appendMessages now messages t).
Proof.
  intros Ht. unfold appendMessages.
  pose proof (foldl_appendEntry_inv _ t (collectDisplayChunks_wf now messages) Ht)
    as Hinv.
  destruct (isEmpty _); [done|]. exact Hinv.
Qed.

Lemma applyOp_inv t op : trackerInv t -> trackerInv (applyOp t op).
Proof.
  destruct op; simpl; intros Ht.
  - by apply appendMessages_inv.
  - exact Ht.
  - exact Ht.
  - apply trackerInv_new.
Qed.

Lemma runOps_inv ops t : trackerInv t -> trackerInv (runOps ops t).
Proof.
  unfold runOps. revert t. induction ops as [|op ops IH]; intros t Ht; [done|].
  simpl. by apply IH, applyOp_inv.
Qed.

(** An entry whose key has been seen and that carries a non-empty id is
    written over the entry of that id; the timeline keeps its length. *)
Lemma appendEntry_replace t e c r :
  trackerInv t -> kind e = KindToolCall -> toolUseId e = Some (c :: r) ->
  isEmpty (content e) = false ->
  js "tool:" ++ c :: r ∈ seen t ->
  exists i x, timeline t !! i = Some x /\ toolUseId x = Some (c :: r)
              /\ appendEntry t e
                 = {| status := status t; timeline := <[i := e]> (timeline t);
                      seen := seen t; draftAnswer := draftAnswer t |}.
Proof.
  intros (Hall & Hnd & Hseen) Hk Hid Hc Hin. unfold appendEntry.
  rewrite (key_of_toolcall e c r Hk Hid), Hc, Hk, Hid.
  rewrite (bool_decide_eq_true_2 _ Hin). simpl.
  destruct (Hseen _ Hin) as (j & y & Hj & Hy).
  apply key_tool_inv in Hy as (Hky & Hidy & _).
  destruct (findIndex _ (timeline t)) as [i|] eqn:Hfind.
  - apply findIndex_Some in Hfind as (x & Hx & Hsame & _).
    apply bool_decide_eq_true in Hsame. by exists i, x.
  - eapply findIndex_None in Hfind; [|by eapply list_elem_of_lookup_2].
    apply bool_decide_eq_false in Hfind. done.
Qed.

Lemma entriesOf_none id (l : list TimelineEntry) :
  id <> [] -> id ∉ toolIds l -> entriesOf id l = [].
Proof.
  intros Hne Hnot. induction l as [|e l IH]; [done|].
  unfold entriesOf. simpl.
  destruct (bool_decide (toolUseId e = Some id)) eqn:He.
  - apply bool_decide_eq_true in He. destruct Hnot.
    apply elem_of_toolIds. split; [done|]. exists e. split; [left|done].
  - apply IH. intros Hin. apply Hnot.
    apply elem_of_toolIds in Hin as (_ & x & Hx & Hid).
    apply elem_of_toolIds. split; [done|]. exists x. split; [by right|done].
Qed.

Lemma entriesOf_at_most_one id (l : list TimelineEntry) :
  id <> [] -> NoDup (toolIds l) -> (length (entriesOf id l) <= 1)%nat.
Proof.
  intros Hne. induction l as [|e l IH]; intros Hnd; [simpl; lia|].
  unfold entriesOf. simpl.
  destruct (bool_decide (toolUseId e = Some id)) eqn:He.
  - apply bool_decide_eq_true in He.
    unfold toolIds in Hnd. simpl in Hnd. rewrite He in Hnd.
    destruct id as [|c r]; [done|]. simpl in Hnd.
    apply NoDup_cons in Hnd as [Hnot _].
    fold (entriesOf (c :: r) l). rewrite entriesOf_none; [simpl; lia|done|done].
  - apply IH. unfold toolIds in Hnd. simpl in Hnd.
    destruct (toolUseId e) as [[|c r]|]; simpl in Hnd; try done.
    by apply NoDup_cons in Hnd as [_ ?].
Qed.

Lemma entriesOf_present id (l : list TimelineEntry) e :
  e ∈ l -> toolUseId e = Some id -> (1 <= length (entriesOf id l))%nat.
Proof.
  intros He Hid. induction l as [|x l IH]; [by apply elem_of_nil in He|].
  unfold entriesOf. simpl. apply elem_of_cons in He as [<-|He].
  - rewrite (bool_decide_eq_true_2 _ Hid). simpl. lia.
  - destruct (bool_decide _); simpl; [lia|]. by apply IH.
Qed.

Lemma appendMessages_toolCallBatch now name id startedAt t :
  appendMessages now (toolCallBatch name id startedAt) t
  = appendEntry t (toolCallEntry name (Some id)).
Proof. reflexivity. Qed.

(** After a tool-call part with a non-empty id has been appended, the
    timeline holds an entry of that id. *)
Lemma appendEntry_toolcall_present t name c r :
  trackerInv t ->
  exists e, e ∈ timeline (appendEntry t (toolCallEntry name (Some (c :: r))))
            /\ toolUseId e = Some (c :: r).
Proof.
  intros Ht. set (e := toolCallEntry name (Some (c :: r))).
  destruct (decide (js "tool:" ++ c :: r ∈ seen t)) as [Hin|Hnot].
  - destruct (appendEntry_replace t e c r Ht eq_refl eq_refl eq_refl Hin)
      as (i & x & Hx & Hid & ->). simpl.
    exists e. split; [|done].
    eapply list_elem_of_lookup_2, list_lookup_insert_eq. by eapply lookup_lt_Some.
  - exists e. split; [|done]. unfold appendEntry.
    rewrite (key_of_toolcall e c r eq_refl eq_refl).
    rewrite (bool_decide_eq_false_2 _ Hnot). simpl.
    apply elem_of_app. right. left.
Qed.

End TrackerInvariant.

(** C3, as stated, fails for the empty string: the tracker treats an empty
    [toolUseId] as no id at all, so two calls that both carry the id [""]
    are keyed by their content and both stay in the timeline. *)
Lemma tracker_empty_id_twice :
  allToolUseIds (timeline (runOps [OpAppendMessages 0 emptyIdBatch] newTracker))
  = [ []; [] ]
  /\ ~ NoDup (allToolUseIds
                (timeline (runOps [OpAppendMessages 0 emptyIdBatch] newTracker))).
Proof.
  assert (allToolUseIds
            (timeline (runOps [OpAppendMessages 0 emptyIdBatch] newTracker))
          = [ []; [] ]) as Heq by (vm_compute; reflexivity).
  split; [exact Heq|].
  rewrite Heq. intros Hnd. apply NoDup_cons in Hnd as [Hnot _].
  apply Hnot. left.
Qed.

(** C3 (amended). Whatever operations the run tracker has gone through, its
    timeline holds at most one entry per non-empty [toolUseId]; and when the
    same tool-call message with a non-empty id is appended twice, the
    timeline holds exactly one entry of that id afterwards, the second
    append writing over the entry in place without lengthening the
    timeline. *)
Theorem tracker_one_entry_per_tool_use_id (ops : list TrackerOp) :
  let t := runOps ops newTracker in
  NoDup (toolIds (timeline t))
  /\ forall now1 now2 name id startedAt,
       id <> [] ->
       let t1 := appendMessages now1 (toolCallBatch name id startedAt) t in
       let t2 := appendMessages now2 (toolCallBatch name id startedAt) t1 in
       length (entriesOf id (timeline t2)) = 1%nat
       /\ length (timeline t2) = length (timeline t1).
Proof.
  intros t. pose proof (runOps_inv ops newTracker trackerInv_new) as Ht.
  fold t in Ht. split; [apply Ht|].
  intros now1 now2 name id startedAt Hne t1 t2.
  destruct id as [|c r]; [done|].
  assert (trackerInv t1) as Ht1 by by apply appendMessages_inv.
  assert (trackerInv t2) as Ht2 by by apply appendMessages_inv.
  split.
  - apply Nat.le_antisymm.
    + apply entriesOf_at_most_one; [done|apply Ht2].
    + unfold t2. rewrite appendMessages_toolCallBatch.
      destruct (appendEntry_toolcall_present t1 name c r Ht1) as (e & He & Hid).
      by eapply entriesOf_present.
  - unfold t2. rewrite appendMessages_toolCallBatch.
    destruct (appendEntry_toolcall_present t name c r Ht) as (e & He & Hid).
    fold (toolCallBatch name (c :: r) startedAt) in He.
    assert (js "tool:" ++ c :: r ∈ seen t1) as Hin.
    { destruct Ht1 as (Hall & _ & _).
      unfold t1. rewrite appendMessages_toolCallBatch.
      apply (proj1 (Forall_forall _ _) Hall) in He as [Hwf Hkey].
      assert (kind e = KindToolCall) as Hk by by eapply wfEntry_toolcall.
      by rewrite (key_of_toolcall e c r Hk Hid) in Hkey. }
    destruct (appendEntry_replace t1 (toolCallEntry name (Some (c :: r))) c r
                Ht1 eq_refl eq_refl eq_refl Hin) as (i & x & _ & _ & ->).
    cbn [timeline]. apply length_insert.
Qed.

Lemma tracker_one_entry_per_tool_use_id_witness :
  let t := runOps sampleOps newTracker in
  NoDup (toolIds (timeline t))
  /\ length (entriesOf (js "call-2")
               (timeline
                  (appendMessages 3000 (toolCallBatch (js "read") (js "call-2") None)
                     (appendMessages 2000 (toolCallBatch (js "read") (js "call-2") None)
                        t)))) = 1%nat.
Proof.
  destruct (tracker_one_entry_per_tool_use_id sampleOps) as [Hnd Htwice].
  split; [exact Hnd|].
  apply (Htwice 2000%Z 3000%Z (js "read") (js "call-2") None).
  by vm_compute.
Defined.

Example sampleOps_timeline :
  map content (timeline (runOps sampleOps newTracker)) = [js "调用 `'exec'` 工具"].
Proof. vm_compute. reflexivity. Qed.

(** ** Tool results and recorded durations *)

Section Durations.

Implicit Types (acc : Collector) (t : AgentRunTracker) (e : TimelineEntry).

Lemma collectResult_no_calls now acc part :
  toolEntryMap acc = ∅ -> collectResult now acc part = acc.
Proof.
  intros Hmap. unfold collectResult. rewrite Hmap.
  destruct (result_toolUseId part) as [i|]; [|done].
  destruct (truthy _); [|done]. by rewrite lookup_empty.
Qed.

Lemma foldl_collectResult_no_calls now parts acc :
  toolEntryMap acc = ∅ -> foldl (collectResult now) acc parts = acc.
Proof.
  intros Hmap. induction parts as [|p parts IH]; [done|].
  simpl. by rewrite collectResult_no_calls.
Qed.

(** The correlation map is built anew by every call of the projection, so
    a batch that holds only a tool message projects to nothing. *)
Lemma appendMessages_tool_message_alone now id parts t :
  appendMessages now [ToolMessage id parts] t = t.
Proof.
  unfold appendMessages, collectDisplayChunks. simpl.
  by rewrite foldl_collectResult_no_calls.
Qed.

Lemma last_formatToolCall name : last (formatToolCall name) = Some 20855.
Proof.
  unfold formatToolCall. rewrite !last_app.
  replace (last (js "'` 工具")) with (Some 20855) by (vm_compute; reflexivity).
  done.
Qed.

Lemma last_tagged (s : jsstring) : hasDurationTag s -> last s = Some 62.
Proof.
  intros (label & d & ->). rewrite !last_app.
  replace (last (js " 秒</text_tag>")) with (Some 62) by (vm_compute; reflexivity).
  done.
Qed.

Lemma formatToolCall_not_tagged name : ~ hasDurationTag (formatToolCall name).
Proof.
  intros Htag. apply last_tagged in Htag.
  rewrite last_formatToolCall in Htag. discriminate.
Qed.

Lemma buildToolCallContent_tagged name d :
  hasDurationTag (buildToolCallContent name (Some d)).
Proof.
  exists (formatToolCall name), d. reflexivity.
Qed.

(** In a well-formed entry a duration tag in the content means a recorded
    duration, hence a non-empty id. *)
Lemma tagged_entry_id e :
  wfEntry e -> kind e = KindToolCall -> hasDurationTag (content e) ->
  truthy (toolUseId e) = true.
Proof.
  intros (_ & Hcontent & Hdur) Hk Htag.
  destruct (Hcontent Hk) as [name Hc].
  destruct (durationMs e) as [d|] eqn:Hd; [by apply Hdur|].
  rewrite Hc in Htag. by apply formatToolCall_not_tagged in Htag.
Qed.

End Durations.

(** C4 (evaluation of the code). A tool-result message that is appended
    after the call, in a call of [appendMessages] of its own, changes
    nothing: the entry of the call keeps its content and records no
    duration. *)
Theorem tool_result_after_call_changes_nothing
    (now1 now2 : Z) (name id : jsstring) (startedAt : option Z)
    (result : AgentToolResultPart) (t : AgentRunTracker) :
  let t1 := appendMessages now1 (toolCallBatch name id startedAt) t in
  appendMessages now2 [ToolMessage (Some id) [result]] t1 = t1.
Proof. intros t1. apply appendMessages_tool_message_alone. Qed.

(** The same on the verbose events of a tool: after the start and the end
    event, which reports 1200 ms, the timeline shows the bare call. *)
Example tool_events_record_no_duration :
  let st1 := applyVerboseEvent 1000 (newTracker, []) toolStartEvent in
  let st2 := applyVerboseEvent 2200 st1 toolEndEvent in
  timeline (fst st2) = [toolCallEntry (js "exec") (Some (js "call-1"))]
  /\ map content (timeline (fst st2)) = [js "调用 `'exec'` 工具"]
  /\ status (fst st2) = WaitingToolResult.
Proof. vm_compute. done. Qed.

(** When the call and its result come in one batch, the duration is
    recorded: here 2200 - 1000 ms. *)
Example call_and_result_in_one_batch :
  map (fun e => (content e, durationMs e))
      (timeline (appendMessages 5000 timedBatch newTracker))
  = [ (js "调用 `'exec'` 工具 <text_tag color='turquoise'>耗时 1.2 秒</text_tag>",
       Some 1200%Z) ].
Proof. vm_compute. reflexivity. Qed.

Section RepeatedCall.

Implicit Types (acc : Collector) (t : AgentRunTracker) (e : TimelineEntry).
Variable id : jsstring.

Lemma allToolUseIds_app (l1 l2 : list TimelineEntry) :
  allToolUseIds (l1 ++ l2) = allToolUseIds l1 ++ allToolUseIds l2.
Proof. apply omap_app. Qed.

Lemma elem_of_allToolUseIds (l : list TimelineEntry) :
  id ∈ allToolUseIds l <-> exists e, e ∈ l /\ toolUseId e = Some id.
Proof. apply list_elem_of_omap. Qed.

(** *** The projection of a batch without a result for [id] *)

Lemma collectContent_fresh acc part :
  Forall (freshFor id) (col_timeline acc) ->
  Forall (freshFor id) (col_timeline (collectContent acc part)).
Proof.
  intros Hacc. destruct part as [text|text|name i started];
    cbn [collectContent].
  - destruct (isEmpty _); [done|]. cbn [col_timeline].
    apply Forall_app. split; [done|]. constructor; [|constructor]. by intros ?.
  - destruct (isEmpty _); [done|]. cbn [col_timeline].
    apply Forall_app. split; [done|]. constructor; [|constructor]. by intros ?.
  - cbn [col_timeline]. apply Forall_app. split; [done|].
    constructor; [|constructor]. intros Hid. cbn [toolUseId] in Hid.
    subst i. by exists name.
Qed.

Lemma collectResult_fresh now acc part :
  collectorInv acc -> result_toolUseId part <> Some id ->
  Forall (freshFor id) (col_timeline acc) ->
  Forall (freshFor id) (col_timeline (collectResult now acc part)).
Proof.
  intros [_ Hmap] Hne Hacc. unfold collectResult.
  destruct (result_toolUseId part) as [i|]; [|done].
  destruct (truthy (Some i)); [|done].
  destruct (toolEntryMap acc !! i) as [entryMeta|] eqn:Hm; [|done].
  destruct (col_timeline acc !! index entryMeta) as [entry|] eqn:E; [|done].
  destruct (Hmap i entryMeta Hm) as (_ & x & Hx & Hid & _).
  rewrite E in Hx. injection Hx as <-.
  cbn [col_timeline]. apply Forall_insert; [done|].
  intros Hid'. cbn [toolUseId] in Hid'. congruence.
Qed.

Lemma collectResult_ids now acc part :
  allToolUseIds (col_timeline (collectResult now acc part))
  = allToolUseIds (col_timeline acc).
Proof.
  unfold collectResult.
  destruct (result_toolUseId part) as [i|]; [|done].
  destruct (truthy (Some i)); [|done].
  destruct (toolEntryMap acc !! i) as [entryMeta|]; [|done].
  destruct (col_timeline acc !! index entryMeta) as [entry|] eqn:E; [|done].
  cbn [col_timeline]. by apply (allToolUseIds_insert _ _ _ entry).
Qed.

Lemma collectContent_ids acc part :
  id ∈ allToolUseIds (col_timeline acc) \/ isCallOf id part = true ->
  id ∈ allToolUseIds (col_timeline (collectContent acc part)).
Proof.
  intros Hin. destruct part as [text|text|name i started];
    cbn [collectContent isCallOf] in *.
  - destruct Hin as [Hin|?]; [|done].
    destruct (isEmpty _); [done|]. cbn [col_timeline].
    rewrite allToolUseIds_app. apply elem_of_app. by left.
  - destruct Hin as [Hin|?]; [|done].
    destruct (isEmpty _); [done|]. cbn [col_timeline].
    rewrite allToolUseIds_app. apply elem_of_app. by left.
  - cbn [col_timeline]. rewrite allToolUseIds_app. apply elem_of_app.
    destruct Hin as [Hin|Hcall]; [by left|]. right.
    destruct i as [i|]; [|done].
    apply bool_decide_eq_true in Hcall as ->. left.
Qed.

Lemma collectMessage_repeated now acc message :
  hasToolResult id [message] = false ->
  collectorInv acc -> Forall (freshFor id) (col_timeline acc) ->
  Forall (freshFor id) (col_timeline (collectMessage now acc message))
  /\ (id ∈ allToolUseIds (col_timeline acc) \/ hasToolCall id [message] = true ->
      id ∈ allToolUseIds (col_timeline (collectMessage now acc message))).
Proof.
  destruct message as [parts|mid parts]; cbn [collectMessage hasToolResult
    hasToolCall existsb]; rewrite ?orb_false_r.
  - intros _. revert acc.
    induction parts as [|p parts IH]; intros acc Hinv Hacc.
    + split; [done|]. by intros [?|?].
    + cbn [foldl existsb].
      destruct (IH (collectContent acc p)) as [Hfresh Hids];
        [by apply collectContent_inv | by apply collectContent_fresh |].
      split; [done|]. intros Hin. apply Hids.
      destruct Hin as [Hin|Hcall].
      * left. apply collectContent_ids. by left.
      * apply orb_true_iff in Hcall as [Hcall|Hcall]; [|by right].
        left. apply collectContent_ids. by right.
  - revert acc.
    induction parts as [|p parts IH]; intros acc Hres Hinv Hacc.
    + split; [done|]. by intros [?|?].
    + cbn [foldl existsb] in *.
      apply orb_false_iff in Hres as [Hp Hres].
      apply bool_decide_eq_false in Hp.
      destruct (IH (collectResult now acc p)) as [Hfresh Hids];
        [done | by apply collectResult_inv | by apply collectResult_fresh |].
      split; [done|]. intros [Hin|?]; [|done].
      apply Hids. left. by rewrite collectResult_ids.
Qed.

Lemma foldl_collectMessage_repeated now batch acc :
  hasToolResult id batch = false ->
  collectorInv acc -> Forall (freshFor id) (col_timeline acc) ->
  Forall (freshFor id) (col_timeline (foldl (collectMessage now) acc batch))
  /\ (id ∈ allToolUseIds (col_timeline acc) \/ hasToolCall id batch = true ->
      id ∈ allToolUseIds (col_timeline (foldl (collectMessage now) acc batch))).
Proof.
  revert acc. induction batch as [|m batch IH]; intros acc Hres Hinv Hacc.
  - split; [done|]. by intros [?|?].
  - unfold hasToolResult in Hres. cbn [existsb] in Hres.
    apply orb_false_iff in Hres as [Hm Hres].
    fold (hasToolResult id batch) in Hres.
    destruct (collectMessage_repeated now acc m) as [Hfresh Hids]; [|done..|].
    { unfold hasToolResult. cbn [existsb]. by rewrite orb_false_r. }
    cbn [foldl].
    destruct (IH (collectMessage now acc m)) as [Hfresh' Hids'];
      [done | by apply collectMessage_inv | done |].
    split; [done|]. intros Hin. apply Hids'.
    destruct Hin as [Hin|Hcall]; [left; apply Hids; by left|].
    unfold hasToolCall in Hcall. cbn [existsb] in Hcall.
    apply orb_true_iff in Hcall as [Hcall|Hcall]; [|by right].
    left. apply Hids. right. unfold hasToolCall. cbn [existsb].
    by rewrite orb_false_r.
Qed.

Lemma collectDisplayChunks_repeated now batch :
  hasToolCall id batch = true -> hasToolResult id batch = false ->
  let entries := chunk_timeline (collectDisplayChunks now batch) in
  Forall (freshFor id) entries /\ id ∈ allToolUseIds entries.
Proof.
  intros Hcall Hres entries.
  destruct (foldl_collectMessage_repeated now batch
              {| col_timeline := []; col_textParts := []; toolEntryMap := ∅ |})
    as [Hfresh Hids]; [done | apply collectorInv_empty | constructor |].
  split; [exact Hfresh|]. apply Hids. by right.
Qed.

End RepeatedCall.

Section ReplaceInPlace.

Implicit Types (t : AgentRunTracker) (e x y : TimelineEntry).

(** Two positions that hold the same non-empty id are one position. *)
Lemma toolIds_position (l : list TimelineEntry) i j x y c r :
  NoDup (toolIds l) ->
  l !! i = Some x -> l !! j = Some y ->
  toolUseId x = Some (c :: r) -> toolUseId y = Some (c :: r) ->
  i = j.
Proof.
  revert i j. induction l as [|z l IH]; intros i j Hnd Hi Hj Hx Hy; [done|].
  assert (forall k w, l !! k = Some w -> toolUseId w = Some (c :: r) ->
                      c :: r ∈ toolIds l) as Hin.
  { intros k w Hk Hw. apply elem_of_toolIds. split; [done|].
    exists w. split; [by eapply list_elem_of_lookup_2|done]. }
  unfold toolIds in Hnd. cbn [omap list_omap] in Hnd.
  fold (toolIds l) in Hnd.
  destruct i as [|i], j as [|j]; cbn [lookup list_lookup] in Hi, Hj.
  - done.
  - injection Hi as ->. rewrite Hx in Hnd.
    apply NoDup_cons in Hnd as [Hnot _]. destruct Hnot. by eapply Hin.
  - injection Hj as ->. rewrite Hy in Hnd.
    apply NoDup_cons in Hnd as [Hnot _]. destruct Hnot. by eapply Hin.
  - f_equal. apply IH; try done.
    destruct (toolUseId z) as [[|? ?]|]; try done.
    by apply NoDup_cons in Hnd as [_ ?].
Qed.

(** An entry of another id leaves the position alone. *)
Lemma appendEntry_other t y i x :
  toolUseId y <> toolUseId x -> timeline t !! i = Some x ->
  timeline (appendEntry t y) !! i = Some x.
Proof.
  intros Hne Hi. unfold appendEntry.
  destruct (_ && _); cbn [timeline]; [by apply lookup_app_l_Some|].
  destruct (_ && _); [|done].
  destruct (findIndex _ (timeline t)) as [j|] eqn:Hfind; [|done].
  apply findIndex_Some in Hfind as (z & Hz & Hsame & _).
  apply bool_decide_eq_true in Hsame. cbn [timeline].
  rewrite list_lookup_insert_ne; [done|].
  intros ->. rewrite Hi in Hz. injection Hz as <-. congruence.
Qed.

Lemma buildToolCallContent_nonempty name d :
  isEmpty (buildToolCallContent name d) = false.
Proof. by destruct d. Qed.

(** An entry of the id is written over the position that holds the id. *)
Lemma appendEntry_same t y i x c r :
  trackerInv t -> wfEntry y ->
  timeline t !! i = Some x -> toolUseId x = Some (c :: r) ->
  toolUseId y = Some (c :: r) ->
  timeline (appendEntry t y) !! i = Some y.
Proof.
  intros Ht Hwf Hi Hx Hy.
  assert (kind y = KindToolCall) as Hky by by eapply wfEntry_toolcall.
  assert (isEmpty (content y) = false) as Hcontent.
  { destruct Hwf as (_ & Hc & _). destruct (Hc Hky) as [name ->].
    apply buildToolCallContent_nonempty. }
  assert (js "tool:" ++ c :: r ∈ seen t) as Hseen.
  { destruct Ht as (Hall & _ & _).
    apply (proj1 (Forall_lookup _ _) Hall) in Hi as [Hwfx Hkey].
    assert (kind x = KindToolCall) as Hk by by eapply wfEntry_toolcall.
    by rewrite (key_of_toolcall x c r Hk Hx) in Hkey. }
  destruct (appendEntry_replace t y c r Ht Hky Hy Hcontent Hseen)
    as (j & z & Hj & Hz & ->).
  assert (j = i) as ->.
  { destruct Ht as (_ & Hnd & _). by eapply toolIds_position. }
  cbn [timeline]. apply list_lookup_insert_eq. by eapply lookup_lt_Some.
Qed.

(** Entries of other ids leave the position alone. *)
Lemma foldl_appendEntry_stay (entries : list TimelineEntry) t i x id :
  toolUseId x = Some id -> id ∉ allToolUseIds entries ->
  timeline t !! i = Some x ->
  timeline (foldl appendEntry t entries) !! i = Some x.
Proof.
  intros Hx. revert t. induction entries as [|y entries IH]; intros t Hnot Hi;
    [done|].
  cbn [foldl]. apply IH.
  - intros Hin. apply Hnot. unfold allToolUseIds. cbn [omap list_omap].
    destruct (toolUseId y); [by right|done].
  - apply appendEntry_other; [|done]. rewrite Hx. intros Hy.
    apply Hnot. unfold allToolUseIds. cbn [omap list_omap].
    rewrite Hy. left.
Qed.

(** The position that holds a non-empty id holds it after any batch. *)
Lemma foldl_appendEntry_keeps_id (entries : list TimelineEntry) t i x c r :
  trackerInv t -> Forall wfEntry entries ->
  timeline t !! i = Some x -> toolUseId x = Some (c :: r) ->
  exists x', timeline (foldl appendEntry t entries) !! i = Some x'
             /\ toolUseId x' = Some (c :: r).
Proof.
  revert t x. induction entries as [|y entries IH]; intros t x Ht Hwf Hi Hx.
  - by exists x.
  - apply Forall_cons in Hwf as [Hy Hwf]. cbn [foldl].
    destruct (decide (toolUseId y = Some (c :: r))) as [Hid|Hid].
    + apply (IH _ y); [by apply appendEntry_inv|done| |done].
      by eapply appendEntry_same.
    + apply (IH _ x); [by apply appendEntry_inv|done| |done].
      apply appendEntry_other; [congruence|done].
Qed.

(** The last entry of an id in a list. *)
Lemma last_entry_of (entries : list TimelineEntry) id :
  id ∈ allToolUseIds entries ->
  exists pre y post, entries = pre ++ y :: post /\ toolUseId y = Some id
                     /\ id ∉ allToolUseIds post.
Proof.
  induction entries as [|e entries IH]; intros Hin;
    [by apply elem_of_nil in Hin|].
  destruct (decide (id ∈ allToolUseIds entries)) as [Hlater|Hnot].
  - destruct (IH Hlater) as (pre & y & post & -> & Hy & Hpost).
    by exists (e :: pre), y, post.
  - exists [], e, entries. split; [done|]. split; [|done].
    unfold allToolUseIds in Hin. cbn [omap list_omap] in Hin.
    destruct (toolUseId e) as [i|]; [|done].
    apply elem_of_cons in Hin as [->|Hin]; done.
Qed.

(** After a batch that holds entries of the id, all fresh, the position
    holds the last of them. *)
Lemma foldl_appendEntry_position (entries : list TimelineEntry) t i x c r :
  trackerInv t -> Forall wfEntry entries ->
  timeline t !! i = Some x -> toolUseId x = Some (c :: r) ->
  Forall (freshFor (c :: r)) entries -> c :: r ∈ allToolUseIds entries ->
  exists name, timeline (foldl appendEntry t entries) !! i
               = Some (toolCallEntry name (Some (c :: r))).
Proof.
  intros Ht Hwf Hi Hx Hfresh Hin.
  destruct (last_entry_of entries (c :: r) Hin) as (pre & y & post & -> & Hy & Hpost).
  apply Forall_app in Hwf as [Hwfpre Hwf].
  apply Forall_cons in Hwf as [Hwfy _].
  apply Forall_app in Hfresh as [_ Hfresh].
  apply Forall_cons in Hfresh as [Hfy _].
  destruct (Hfy Hy) as [name ->]. exists name.
  rewrite foldl_app. cbn [foldl].
  destruct (foldl_appendEntry_keeps_id pre t i x c r Ht Hwfpre Hi Hx)
    as (x1 & Hx1 & Hid1).
  eapply foldl_appendEntry_stay; [done|done|].
  eapply appendEntry_same; [|done|done|done|done].
  by apply foldl_appendEntry_inv.
Qed.

End ReplaceInPlace.

(** C10. When the timeline holds a tool-call entry of the id [id] whose
    content carries an elapsed-time tag, and a later batch holds a tool-call
    part of that id and no tool-result part of it, then [appendMessages]
    writes a fresh projection over the entry, at the same position: no
    duration is recorded in it and its content carries no tag. *)
Theorem repeated_tool_call_discards_duration
    (ops : list TrackerOp) (now : Z) (batch : list AgentCoreMessage)
    (i : nat) (e : TimelineEntry) (id : jsstring) :
  let t := runOps ops newTracker in
  timeline t !! i = Some e ->
  kind e = KindToolCall -> toolUseId e = Some id -> hasDurationTag (content e) ->
  hasToolCall id batch = true -> hasToolResult id batch = false ->
  exists e',
    timeline (appendMessages now batch t) !! i = Some e'
    /\ kind e' = KindToolCall /\ toolUseId e' = Some id
    /\ durationMs e' = None
    /\ (exists name, content e' = formatToolCall name)
    /\ ~ hasDurationTag (content e').
Proof.
  intros t Hi Hk Hid Htag Hcall Hres.
  pose proof (runOps_inv ops newTracker trackerInv_new) as Ht. fold t in Ht.
  assert (wfEntry e) as Hwf.
  { destruct Ht as (Hall & _ & _).
    by apply (proj1 (Forall_lookup _ _) Hall) in Hi as [? _]. }
  pose proof (tagged_entry_id e Hwf Hk Htag) as Htruthy.
  rewrite Hid in Htruthy. destruct id as [|c r]; [done|].
  destruct (collectDisplayChunks_repeated (c :: r) now batch Hcall Hres)
    as [Hfresh Hin].
  destruct (foldl_appendEntry_position _ t i e c r Ht
              (collectDisplayChunks_wf now batch) Hi Hid Hfresh Hin)
    as [name Hpos].
  exists (toolCallEntry name (Some (c :: r))).
  split.
  - unfold appendMessages. by destruct (isEmpty _).
  - repeat split; try done.
    + by eexists.
    + apply formatToolCall_not_tagged.
Qed.

Lemma repeated_tool_call_discards_duration_witness :
  exists e',
    timeline (appendMessages 9000 (toolCallBatch (js "exec") (js "call-1") None)
                (runOps [OpAppendMessages 5000 timedBatch] newTracker)) !! 0%nat
    = Some e'
    /\ kind e' = KindToolCall /\ toolUseId e' = Some (js "call-1")
    /\ durationMs e' = None
    /\ (exists name, content e' = formatToolCall name)
    /\ ~ hasDurationTag (content e').
Proof.
  apply (repeated_tool_call_discards_duration
           [OpAppendMessages 5000 timedBatch] 9000
           (toolCallBatch (js "exec") (js "call-1") None) 0
           {| kind := KindToolCall;
              content := buildToolCallContent (js "exec") (Some 1200%Z);
              toolUseId := Some (js "call-1"); toolName := Some (js "exec");
              durationMs := Some 1200%Z |}
           (js "call-1")).
  - vm_compute. reflexivity.
  - reflexivity.
  - reflexivity.
  - apply buildToolCallContent_tagged.
  - vm_compute. reflexivity.
  - vm_compute. reflexivity.
Defined.

(** ** Render projector: the final answer is not echoed *)

Section Ink.

Implicit Types (s : jsstring).

Lemma hasInk_trimStart s : hasInk (trimStart s) = hasInk s.
Proof.
  induction s as [|c s IH]; [done|]. simpl.
  destruct (isSpace c) eqn:Hc; simpl; [done|]. by rewrite Hc.
Qed.

Lemma trimEnd_nil s : trimEnd s = [] <-> hasInk s = false.
Proof.
  induction s as [|c s IH]; [done|]. simpl.
  destruct (trimEnd s) as [|d r] eqn:Hr.
  - destruct (isSpace c); simpl; [tauto|]. split; [done|done].
  - split; [done|]. intros H. apply orb_false_iff in H as [_ H].
    by apply IH in H.
Qed.

Lemma hasInk_trimEnd s : hasInk (trimEnd s) = hasInk s.
Proof.
  induction s as [|c s IH]; [done|]. simpl.
  destruct (trimEnd s) as [|d r] eqn:Hr.
  - assert (hasInk s = false) as -> by by apply trimEnd_nil.
    destruct (isSpace c) eqn:Hc; simpl; [done|]. by rewrite Hc.
  - change (hasInk (c :: d :: r)) with (negb (isSpace c) || hasInk (d :: r)).
    by rewrite IH.
Qed.

Lemma hasInk_trim s : hasInk (trim s) = hasInk s.
Proof. unfold trim. by rewrite hasInk_trimEnd, hasInk_trimStart. Qed.

Lemma trim_nil s : trim s = [] <-> hasInk s = false.
Proof. unfold trim. by rewrite trimEnd_nil, hasInk_trimStart. Qed.

Lemma hasInk_collapseSpaces b s : hasInk (collapseSpaces b s) = hasInk s.
Proof.
  revert b. induction s as [|c s IH]; intros b; [done|]. simpl.
  destruct (isSpace c) eqn:Hc; simpl.
  - destruct b; simpl; by rewrite IH.
  - by rewrite Hc, IH.
Qed.

Lemma normalizeText_nil s : normalizeText s = [] <-> hasInk s = false.
Proof. unfold normalizeText. by rewrite trim_nil, hasInk_collapseSpaces. Qed.

(** A trimmed text that is not empty does not normalize to the empty
    string. *)
Lemma normalizeText_trim_nonempty s :
  trim s <> [] -> normalizeText (trim s) <> [].
Proof.
  intros Hne Hnil. apply normalizeText_nil in Hnil.
  rewrite hasInk_trim in Hnil. by apply trim_nil in Hnil.
Qed.

Lemma isEmpty_false s : s <> [] -> isEmpty s = false.
Proof. by destruct s. Qed.

End Ink.



(** ** Event normalizer: which paths act on a payload *)

Section Paths.
Context `{Host}.
Variable mentionTargets : option (list MentionTarget).

Lemma present_tracker now sendResult r :
  tracker (present mentionTargets now sendResult r) = tracker r.
Proof.
  unfold present, renderCard.
  destruct (messageId r); [done|]. by destruct sendResult.
Qed.

(** A payload that only has text takes the text path. *)
Lemma deliver_text_only now sendResult p r :
  extractAgentMessages p = None -> extractVerboseEvents p = None ->
  isEmpty (trim (payloadText p)) = false ->
  tracker (deliver mentionTargets now sendResult p r)
  = tracker (applyText now (payloadText p) r).
Proof.
  intros Hm He Ht. unfold deliver. rewrite Hm, He. cbn [applyEvents].
  fold (payloadText p). rewrite Ht. cbn [negb]. apply present_tracker.
Qed.

(** C1 (amended). The verbose events of a payload, when it has any, are
    always applied, and first; after them at most one of the other two
    paths acts: the canonical messages when the payload has any, whatever
    its text, else the text heuristic when the text is not blank. *)
Theorem deliver_paths (now : Z) (sendResult : option jsstring)
    (p : ReplyPayload) (r : Renderer) :
  let r1 := applyEvents now (extractVerboseEvents p) r in
  tracker (deliver mentionTargets now sendResult p r)
  = match extractAgentMessages p with
    | Some msgs => tracker (applyMessages now msgs r1)
    | None =>
        if isEmpty (trim (payloadText p)) then tracker r1
        else tracker (applyText now (payloadText p) r1)
    end
  /\ (takesEvents p = false -> r1 = r)
  /\ (takesMessages p = true ->
      forall s, tracker (deliver mentionTargets now sendResult (withText s p) r)
                = tracker (deliver mentionTargets now sendResult p r)).
Proof.
  intros r1. split; [|split].
  - unfold deliver. fold r1. unfold payloadText.
    destruct (extractAgentMessages p) as [msgs|].
    + apply present_tracker.
    + destruct (isEmpty (trim _)); simpl.
      * destruct (extractVerboseEvents p); [apply present_tracker|done].
      * apply present_tracker.
  - unfold takesEvents, r1. by destruct (extractVerboseEvents p).
  - unfold takesMessages. intros Hm s.
    unfold deliver.
    change (extractAgentMessages (withText s p)) with (extractAgentMessages p).
    change (extractVerboseEvents (withText s p)) with (extractVerboseEvents p).
    destruct (extractAgentMessages p) as [msgs|]; [|done].
    by rewrite !present_tracker.
Qed.

End Paths.

(** C1, as stated, fails: a payload with a canonical message and a verbose
    event has both applied.  The event adds the tool call and sets the
    status, the message adds the text and the draft answer; the tracker
    differs from what either path alone leaves. *)
Lemma deliver_applies_events_and_messages :
  let r := deliver (H := sampleHost) None 1000 (Some (js "om_1")) bothPayload
             createAgentCardRenderer in
  takesMessages bothPayload = true /\ takesEvents bothPayload = true
  /\ map kind (timeline (tracker r)) = [KindToolCall; KindText]
  /\ map content (timeline (tracker r)) = [js "调用 `'exec'` 工具"; js "Hi"]
  /\ status (tracker r) = ToolCalling
  /\ draftAnswer (tracker r) = js "Hi"
  /\ tracker r
     <> tracker (deliver (H := sampleHost) None 1000 (Some (js "om_1"))
                   (messagesOnly bothPayload) createAgentCardRenderer)
  /\ tracker r
     <> tracker (deliver (H := sampleHost) None 1000 (Some (js "om_1"))
                   (eventsOnly bothPayload) createAgentCardRenderer).
Proof.
  intros r. repeat split; try (vm_compute; reflexivity).
  - intros Heq. apply (f_equal (fun t => length (timeline t))) in Heq.
    vm_compute in Heq. discriminate.
  - intros Heq. apply (f_equal (fun t => length (timeline t))) in Heq.
    vm_compute in Heq. discriminate.
Qed.

Lemma deliver_paths_witness :
  tracker (deliver (H := sampleHost) None 1000 (Some (js "om_1"))
             (withText (Some (js "exec: ls")) bothPayload) createAgentCardRenderer)
  = tracker (deliver (H := sampleHost) None 1000 (Some (js "om_1"))
               bothPayload createAgentCardRenderer).
Proof.
  destruct (deliver_paths (H := sampleHost) None 1000 (Some (js "om_1"))
              bothPayload createAgentCardRenderer) as (_ & _ & Htext).
  apply Htext. reflexivity.
Defined.

(** ** The plain-text heuristic on a tool summary *)

Section ToolSummary.
Context `{Host}.

Lemma isAsciiLetter_range c :
  isAsciiLetter c = true -> 65 <= c <= 122.
Proof.
  unfold isAsciiLetter. intros Hc.
  apply orb_true_iff in Hc as [Hc|Hc];
    apply andb_true_iff in Hc as [H1 H2];
    apply N.leb_le in H1, H2; lia.
Qed.

Lemma letter_not_prefix c :
  65 <= c <= 122 ->
  isSpace c = false /\ isHighSurrogate c = false
  /\ (c =? 65039) = false /\ (c =? 8205) = false.
Proof.
  intros Hc. unfold isSpace, isHighSurrogate.
  rewrite (proj2 (N.leb_gt c 13)) by lia.
  rewrite (proj2 (N.leb_gt 8192 c)) by lia.
  rewrite (proj2 (N.leb_gt 55296 c)) by lia.
  rewrite !(proj2 (N.eqb_neq c _)) by lia.
  by rewrite andb_false_r.
Qed.

(** A line that starts with a letter has no prefix to skip. *)
Lemma matchToolLine_letter c s :
  isAsciiLetter c = true -> isExtendedPictographic c = false ->
  matchToolLine (c :: s) = matchName (c :: s).
Proof.
  intros Hletter Hpict.
  destruct (letter_not_prefix c (isAsciiLetter_range c Hletter))
    as (Hs & Hh & H1 & H2).
  cbn [matchToolLine]. rewrite Hs.
  assert (inPrefixClass c = false) as Hclass
    by (unfold inPrefixClass; by rewrite Hs, H1, H2, Hpict).
  destruct s as [|lo s]; cbn [matchPrefix]; rewrite ?Hh, Hclass; done.
Qed.

Lemma splitLine_search_tool (acc : list jsstring * list jsstring) :
  pictographsOffLetters ->
  splitLine acc (js "web_search: query=foo")
  = (fst acc ++ [js "调用`网页搜索`工具: query=foo"], snd acc).
Proof.
  intros Hpict. unfold splitLine.
  replace (trim (js "web_search: query=foo"))
    with (119 :: js "eb_search: query=foo") by (vm_compute; reflexivity).
  cbn [isEmpty]. rewrite matchToolLine_letter; [|done|by apply Hpict].
  replace (matchName (119 :: js "eb_search: query=foo"))
    with (Some (js "web_search", js "query=foo")) by (vm_compute; reflexivity).
  replace (lookupLabel (underscoreRuns false (toLowerCase (trim (js "web_search")))))
    with (Some (js "网页搜索")) by (vm_compute; reflexivity).
  f_equal; f_equal; vm_compute; reflexivity.
Qed.

Lemma splitLine_search_rest (acc : list jsstring * list jsstring) :
  pictographsOffLetters ->
  splitLine acc (js "Here are the results")
  = (fst acc, snd acc ++ [js "Here are the results"]).
Proof.
  intros Hpict. unfold splitLine.
  replace (trim (js "Here are the results"))
    with (72 :: js "ere are the results") by (vm_compute; reflexivity).
  cbn [isEmpty]. rewrite matchToolLine_letter; [|done|by apply Hpict].
  by replace (matchName (72 :: js "ere are the results"))
    with (@None (jsstring * jsstring)) by (vm_compute; reflexivity).
Qed.

Lemma splitToolSummaryLines_search :
  pictographsOffLetters ->
  splitToolSummaryLines
    (js "web_search: query=foo" ++ [10] ++ js "Here are the results")
  = {| toolLines := [js "调用`网页搜索`工具: query=foo"];
       remainingText := [10; 10] ++ js "Here are the results" |}.
Proof.
  intros Hpict. unfold splitToolSummaryLines.
  replace (splitLines _)
    with [js "web_search: query=foo"; js "Here are the results"]
    by (vm_compute; reflexivity).
  cbn [foldl].
  rewrite (splitLine_search_tool _ Hpict), (splitLine_search_rest _ Hpict).
  vm_compute. reflexivity.
Qed.

End ToolSummary.

(** C8, as stated, fails in two details: the line of the tool is appended
    as a text part, so its timeline entry is of kind text and no entry is of
    kind tool-call; and the draft answer is the remaining text behind the
    blank line that separates it from the tool lines, not that text alone. *)
Lemma deliver_search_summary_details :
  let r := deliver (H := sampleHost) None 1000 (Some (js "om_1")) searchPayload
             createAgentCardRenderer in
  List.filter (fun e => bool_decide (kind e = KindToolCall)) (timeline (tracker r))
  = []
  /\ draftAnswer (tracker r) <> js "Here are the results".
Proof.
  intros r. split; [vm_compute; reflexivity|].
  intros Heq. vm_compute in Heq. discriminate.
Qed.

(** C8 (amended). Delivering [{text: "web_search: query=foo\nHere are the
    results"}] to a new renderer sets the status to ToolCalling, puts into
    the timeline exactly one entry, a text entry that reads the tool line
    with the localized name of the tool, and makes the draft answer the
    remaining text behind two line feeds; trimmed, as the card shows it, the
    draft answer is ["Here are the results"]. *)
Theorem deliver_search_summary `{Host}
    (mentionTargets : option (list MentionTarget))
    (now : Z) (sendResult : option jsstring) :
  pictographsOffLetters ->
  let r := deliver mentionTargets now sendResult searchPayload
             createAgentCardRenderer in
  status (tracker r) = ToolCalling
  /\ timeline (tracker r)
     = [ {| kind := KindText; content := js "调用`网页搜索`工具: query=foo";
            toolUseId := None; toolName := None; durationMs := None |} ]
  /\ draftAnswer (tracker r) = [10; 10] ++ js "Here are the results"
  /\ trim (draftAnswer (tracker r)) = js "Here are the results".
Proof.
  intros Hpict r. unfold r.
  rewrite deliver_text_only by (vm_compute; reflexivity).
  change (payloadText searchPayload)
    with (js "web_search: query=foo" ++ [10] ++ js "Here are the results").
  unfold applyText.
  rewrite (splitToolSummaryLines_search Hpict). cbn [toolLines remainingText].
  vm_compute. done.
Qed.

Lemma deliver_search_summary_witness :
  let r := deliver (H := sampleHost) (Some [js "ou_1"]) 1000 (Some (js "om_1"))
             searchPayload createAgentCardRenderer in
  status (tracker r) = ToolCalling
  /\ map content (timeline (tracker r)) = [js "调用`网页搜索`工具: query=foo"]
  /\ trim (draftAnswer (tracker r)) = js "Here are the results".
Proof.
  destruct (deliver_search_summary (H := sampleHost) (Some [js "ou_1"]) 1000
              (Some (js "om_1"))) as (Hstatus & Htimeline & _ & Htrim).
  - intros c Hc. apply isAsciiLetter_range in Hc.
    cbn [isExtendedPictographic sampleHost].
    rewrite (proj2 (N.leb_gt 127744 c)) by lia.
    by rewrite (proj2 (N.leb_gt 9728 c)) by lia.
  - intros r. split; [exact Hstatus|]. split; [|exact Htrim].
    unfold r. by rewrite Htimeline.
Defined.

(** ** Update scheduler *)

Section Scheduler.

Local Open Scope Z_scope.
Implicit Types (s : State) (e : Event) (trace : list Event).

Lemma run_app trace1 trace2 s :
  run (trace1 ++ trace2) s
  = match run trace1 s with Some s' => run trace2 s' | None => None end.
Proof.
  revert s. induction trace1 as [|e trace1 IH]; intros s; [done|].
  simpl. destruct (step e s); [apply IH|done].
Qed.

Lemma run_snoc trace e s s' :
  run (trace ++ [e]) s = Some s' <->
  exists s1, run trace s = Some s1 /\ step e s1 = Some s'.
Proof.
  rewrite run_app. destruct (run trace s) as [s1|]; simpl.
  - destruct (step e s1) as [s2|] eqn:E; split.
    + intros [= <-]. by exists s1.
    + intros (? & [= <-] & ?). congruence.
    + done.
    + intros (? & [= <-] & ?). congruence.
  - split; [done|]. by intros (? & ? & _).
Qed.

Lemma step_Some e s s' :
  step e s = Some s' <-> enabled e s = true /\ s' = apply e s.
Proof.
  unfold step. destruct (enabled e s); split; try done.
  - intros [= <-]. done.
  - intros [_ ->]. done.
  - intros [? _]. done.
Qed.

Lemma lastScheduled_app trace1 trace2 before :
  lastScheduled (trace1 ++ trace2) before
  = lastScheduled trace2 (lastScheduled trace1 before).
Proof.
  revert before. induction trace1 as [|e trace1 IH]; intros before; [done|].
  simpl. destruct e; apply IH.
Qed.

Lemma lastScheduled_no_schedule trace before :
  existsb isSchedule trace = false -> lastScheduled trace before = before.
Proof.
  revert before. induction trace as [|e trace IH]; intros before Hno; [done|].
  simpl in Hno. apply orb_false_iff in Hno as [He Hno].
  destruct e; try done; simpl; by apply IH.
Qed.

Lemma spaced_snoc (times : list Z) (t : Z) :
  spaced times -> Forall (fun x => x + MIN_INTERVAL_MS <= t) times ->
  spaced (times ++ [t]).
Proof.
  induction times as [|t1 [|t2 times] IH]; intros Hsp Hall; [done| |].
  - simpl. split; [|done]. by apply Forall_cons in Hall as [? _].
  - destruct Hsp as [H12 Hsp]. apply Forall_cons in Hall as [_ Hall].
    change ((t1 :: t2 :: times) ++ [t]) with (t1 :: (t2 :: times) ++ [t]).
    split; [done|]. by apply IH.
Qed.

Lemma lastPublished_publish t s : lastPublished (publish t s) = pending s.
Proof. unfold lastPublished, publish. simpl. by rewrite last_snoc. Qed.

Lemma schedInv_create now : schedInv (createCardUpdateController now).
Proof.
  repeat split; try done; try (intros; discriminate); try constructor.
Qed.

(** A publish at a time that is the minimum interval after [lastSentAt]
    keeps the record of the publishes in order. *)
Lemma publish_record t t0 s :
  spaced (publishTimes s) ->
  Forall (fun p => fst p <= lastSentAt s /\ is_Some (snd p)) (published s) ->
  lastSentAt s + MIN_INTERVAL_MS <= t -> is_Some (pending s) ->
  spaced (publishTimes (publish t (setClock t0 s)))
  /\ Forall (fun p => fst p <= t /\ is_Some (snd p))
            (published (publish t (setClock t0 s))).
Proof.
  intros Hsp Hall Ht Hp. unfold publishTimes, publish. simpl. split.
  - rewrite map_app. apply spaced_snoc; [done|].
    apply Forall_map. eapply Forall_impl; [exact Hall|].
    intros [x c] [Hx _]. simpl in *. lia.
  - apply Forall_app. split.
    + eapply Forall_impl; [exact Hall|]. intros [x c] [Hx Hc]. simpl in *.
      split; [|done]. unfold MIN_INTERVAL_MS in Ht. lia.
    + constructor; [|constructor]. simpl. split; [lia|done].
Qed.

End Scheduler.

#[local] Set Warnings "-clear-no-such-hyp".

Section SchedulerInvariant.

Local Open Scope Z_scope.
Implicit Types (s : State) (e : Event) (trace : list Event).

Ltac sched_fields :=
  cbn [pending lastSentAt inFlight flushCall clock published
       setLoop setFlush setClock setPending publish] in *.

Ltac sched_close :=
  split_and!; intros; sched_fields;
  repeat match goal with
         | Ha : ?x = _, Hb : ?x = _ |- _ => rewrite Ha in Hb
         end;
  simplify_eq; try done; try (naive_solver (lia || congruence)).

Lemma schedInv_record s : schedInv s -> recordInv s.
Proof. intros (_ & _ & _ & H1 & H2 & H3 & H4). by split_and!. Qed.

Lemma flushOnce_cases t s :
  match pending s with
  | None => flushOnce t s = (s, OnceReturned)
  | Some _ =>
      (t < lastSentAt s + MIN_INTERVAL_MS
       /\ flushOnce t s = (s, OnceWaiting (lastSentAt s + MIN_INTERVAL_MS)))
      \/ (lastSentAt s + MIN_INTERVAL_MS <= t
          /\ flushOnce t s = (publish t s, OncePublishing))
  end.
Proof.
  unfold flushOnce, MIN_INTERVAL_MS. destruct (pending s); [|done].
  destruct (Z.ltb_spec 0 (Z.max 0 (350 - (t - lastSentAt s)))).
  - left. split; [lia|]. do 2 f_equal. lia.
  - right. split; [lia|done].
Qed.

Lemma flushTail_empty t s :
  pending s = None -> flushTail t s = setFlush FlushResolved s.
Proof. intros Hp. unfold flushTail, flushOnce. by rewrite Hp. Qed.

Lemma loopSettled_empty t s :
  pending s = None ->
  loopSettled true t s
  = match flushCall s with
    | FlushAwaitingLoop => setFlush FlushResolved s
    | _ => s
    end.
Proof.
  intros Hp. unfold loopSettled. destruct (flushCall s); try done.
  by apply flushTail_empty.
Qed.

Lemma loopTurn_cases t s :
  match pending s with
  | None => loopTurn t s = loopSettled true t (setLoop LoopIdle s)
  | Some _ =>
      (t < lastSentAt s + MIN_INTERVAL_MS
       /\ loopTurn t s = setLoop (LoopWaiting (lastSentAt s + MIN_INTERVAL_MS)) s)
      \/ (lastSentAt s + MIN_INTERVAL_MS <= t
          /\ loopTurn t s = setLoop LoopPublishing (publish t s))
  end.
Proof.
  unfold loopTurn. pose proof (flushOnce_cases t s) as Hcases.
  destruct (pending s).
  - destruct Hcases as [[? ->]|[? ->]]; [by left|by right].
  - by rewrite Hcases.
Qed.

Lemma recordInv_setLoop l s : recordInv s -> recordInv (setLoop l s).
Proof. done. Qed.

Lemma recordInv_setClock t s : recordInv s -> recordInv (setClock t s).
Proof. done. Qed.

Lemma recordInv_setPending c s : recordInv s -> recordInv (setPending c s).
Proof. done. Qed.

Lemma loopTurn_inv t s : recordInv s -> schedInv (loopTurn t s).
Proof.
  intros (Hf1 & Hf2 & Hsp & Hall). unfold loopTurn.
  pose proof (flushOnce_cases t s) as Hcases.
  destruct (pending s) as [c|] eqn:Hp.
  - destruct Hcases as [[Hlt ->]|[Hge ->]].
    + (* the loop waits *)
      unfold schedInv; sched_close; by rewrite Hp.
    + (* the loop publishes at once *)
      destruct (publish_record t (clock s) s Hsp Hall Hge) as [Hsp' Hall'];
        [by rewrite Hp|].
      unfold schedInv; sched_close.
  - rewrite Hcases. unfold loopSettled, flushTail, flushOnce. sched_fields.
    destruct (flushCall s) eqn:Hf; sched_fields; rewrite ?Hp;
      unfold schedInv; sched_close.
Qed.

Lemma schedInv_setFlush f s :
  schedInv s -> f <> FlushAwaitingLoop -> f <> FlushPublishing ->
  (forall due, f <> FlushWaiting due) -> schedInv (setFlush f s).
Proof.
  intros (H1 & H2 & H3 & H4 & H5 & H6 & H7) Hf1 Hf2 Hf3.
  unfold schedInv; sched_close.
Qed.

Lemma schedule_inv t card s : schedInv s -> schedInv (schedule t card s).
Proof.
  intros Hinv. pose proof (schedInv_record s Hinv) as Hrec.
  destruct Hinv as (Hidle & Hwait & Hawait & Hf1 & Hf2 & Hsp & Hall).
  unfold schedule, kick. cbn [inFlight setPending setClock].
  destruct (inFlight s) eqn:Hl.
  - apply loopTurn_inv. exact Hrec.
  - destruct (Hwait due eq_refl) as [_ Hdue].
    unfold schedInv; sched_close.
  - unfold schedInv; sched_close.
Qed.

Lemma flush_inv t s : schedInv s -> schedInv (flush t s).
Proof.
  intros (Hidle & Hwait & Hawait & Hf1 & Hf2 & Hsp & Hall).
  unfold flush. cbn [inFlight setClock].
  destruct (inFlight s) eqn:Hl.
  - unfold flushTail, flushOnce. cbn [pending setClock].
    rewrite (Hidle eq_refl).
    unfold schedInv; sched_close.
  - unfold schedInv; sched_close.
  - unfold schedInv; sched_close.
Qed.

Lemma apply_inv e s :
  schedInv s -> enabled e s = true -> schedInv (apply e s).
Proof.
  intros Hinv Hen. pose proof (schedInv_record s Hinv) as Hrec.
  destruct e as [t card|t|t|t ok|t|t ok]; cbn [apply].
  - by apply schedule_inv.
  - by apply flush_inv.
  - (* the timer of the loop *)
    destruct Hinv as (Hidle & Hwait & Hawait & Hf1 & Hf2 & Hsp & Hall).
    apply andb_true_iff in Hen as [Hclock Hen].
    destruct (inFlight s) eqn:Hl; try done.
    apply Z.leb_le in Hen. destruct (Hwait due eq_refl) as [Hp Hdue].
    unfold timerFired.
    destruct (publish_record t t s Hsp Hall) as [Hsp' Hall']; [lia|done|].
    unfold schedInv; sched_close.
  - (* the update of the loop *)
    destruct Hinv as (Hidle & Hwait & Hawait & Hf1 & Hf2 & Hsp & Hall).
    apply andb_true_iff in Hen as [Hclock Hen].
    destruct (inFlight s) eqn:Hl; try done.
    unfold updateSettled. destruct ok.
    + apply loopTurn_inv. exact Hrec.
    + cbn [pending setLoop setClock].
      destruct (pending s) as [c|] eqn:Hp.
      * unfold kick. cbn [inFlight setLoop].
        pose proof (loopTurn_inv t (setLoop LoopIdle (setClock t s)) Hrec) as Hinv.
        unfold loopSettled.
        destruct (flushCall (loopTurn t _)) eqn:Hf; try exact Hinv.
        by apply schedInv_setFlush.
      * unfold loopSettled. cbn [flushCall setLoop setClock].
        destruct (flushCall s) eqn:Hf;
          unfold schedInv; sched_close.
  - (* the timer of flush: never set *)
    destruct Hinv as (_ & _ & _ & _ & Hf2 & _).
    apply andb_true_iff in Hen as [_ Hen].
    destruct (flushCall s) eqn:Hf; try done; naive_solver.
  - (* the update of flush: never under way *)
    destruct Hinv as (_ & _ & _ & Hf1 & _).
    apply andb_true_iff in Hen as [_ Hen].
    destruct (flushCall s) eqn:Hf; done.
Qed.

(** [flush] never gets to publish by itself: its own timer and its own
    update never complete, because they are never started. *)
Lemma flushTimer_disabled t s :
  schedInv s -> enabled (FlushTimerFired t) s = false.
Proof.
  intros (_ & _ & _ & _ & Hf2 & _). unfold enabled.
  destruct (flushCall s) as [| |d| | |] eqn:Hf; rewrite ?andb_false_r; try done.
  by destruct (Hf2 d).
Qed.

Lemma flushUpdate_disabled t ok s :
  schedInv s -> enabled (FlushUpdateSettled t ok) s = false.
Proof.
  intros (_ & _ & _ & Hf1 & _). unfold enabled.
  destruct (flushCall s) eqn:Hf; rewrite ?andb_false_r; done.
Qed.

Lemma timer_enabled t s :
  enabled (TimerFired t) s = true ->
  exists due, inFlight s = LoopWaiting due /\ due <= t /\ clock s <= t.
Proof.
  unfold enabled. cbn [time]. intros Hen.
  apply andb_true_iff in Hen as [Hc Hen]. apply Z.leb_le in Hc.
  destruct (inFlight s) as [|due|]; try done.
  apply Z.leb_le in Hen. by exists due.
Qed.

Lemma update_enabled t ok s :
  enabled (UpdateSettled t ok) s = true ->
  inFlight s = LoopPublishing /\ clock s <= t.
Proof.
  unfold enabled. cbn [time]. intros Hen.
  apply andb_true_iff in Hen as [Hc Hen]. apply Z.leb_le in Hc.
  by destruct (inFlight s).
Qed.

Lemma run_inv trace s s' :
  schedInv s -> run trace s = Some s' -> schedInv s'.
Proof.
  revert s. induction trace as [|e trace IH]; intros s Hinv Hrun.
  - by injection Hrun as <-.
  - simpl in Hrun. destruct (step e s) as [s1|] eqn:Hstep; [|done].
    apply step_Some in Hstep as [Hen ->].
    eapply IH; [|exact Hrun]. by apply apply_inv.
Qed.

End SchedulerInvariant.

Section SchedulerLatest.

Local Open Scope Z_scope.
Implicit Types (s : State) (e : Event) (trace : list Event).

Lemma latest_publish t s : latest (publish t s) = pending s.
Proof. unfold latest. cbn [pending publish]. apply lastPublished_publish. Qed.

Lemma flushTail_latest t s : pending s = None -> latest (flushTail t s) = latest s.
Proof. intros Hp. by rewrite flushTail_empty. Qed.

Lemma loopSettled_latest ok t s :
  pending s = None \/ ok = false -> latest (loopSettled ok t s) = latest s.
Proof.
  intros Hp. unfold loopSettled. destruct (flushCall s); try done.
  destruct ok; [|done]. destruct Hp as [Hp|?]; [|done].
  by apply flushTail_latest.
Qed.

Lemma loopTurn_latest t s : latest (loopTurn t s) = latest s.
Proof.
  pose proof (loopTurn_cases t s) as Hcases.
  destruct (pending s) as [c|] eqn:Hp.
  - destruct Hcases as [[_ ->]|[_ ->]]; [done|].
    change (latest (publish t s) = latest s).
    rewrite latest_publish. unfold latest. by rewrite Hp.
  - rewrite Hcases. by rewrite loopSettled_latest by by left.
Qed.

Lemma schedule_latest t card s : latest (schedule t card s) = Some card.
Proof.
  unfold schedule, kick. cbn [inFlight setPending setClock].
  destruct (inFlight s); [by rewrite loopTurn_latest|done..].
Qed.

Lemma flush_latest t s : schedInv s -> latest (flush t s) = latest s.
Proof.
  intros (Hidle & _). unfold flush. cbn [inFlight setClock].
  destruct (inFlight s) eqn:Hl; [|done..].
  rewrite flushTail_latest; [done|]. by apply Hidle.
Qed.

Lemma timerFired_latest t s due :
  schedInv s -> inFlight s = LoopWaiting due -> latest (timerFired t s) = latest s.
Proof.
  intros (_ & Hwait & _) Hl. destruct (Hwait due Hl) as [[c Hp] _].
  unfold timerFired.
  change (latest (publish t (setClock t s)) = latest s).
  rewrite latest_publish. unfold latest. cbn [pending setClock]. by rewrite Hp.
Qed.

Lemma updateSettled_latest t ok s : latest (updateSettled t ok s) = latest s.
Proof.
  unfold updateSettled. destruct ok; [by rewrite loopTurn_latest|].
  rewrite loopSettled_latest by by right.
  cbn [pending setLoop setClock]. destruct (pending s); [|done].
  unfold kick. cbn [inFlight setLoop]. by rewrite loopTurn_latest.
Qed.

Lemma apply_latest e s :
  schedInv s -> enabled e s = true ->
  latest (apply e s)
  = match e with Schedule _ card => Some card | _ => latest s end.
Proof.
  intros Hinv Hen. destruct e as [t card|t|t|t ok|t|t ok]; cbn [apply].
  - apply schedule_latest.
  - by apply flush_latest.
  - apply timer_enabled in Hen as (due & Hl & _). by eapply timerFired_latest.
  - apply updateSettled_latest.
  - by rewrite flushTimer_disabled in Hen.
  - by rewrite flushUpdate_disabled in Hen.
Qed.

(** The card held or published last is the card scheduled last. *)
Lemma run_latest trace s s' before :
  schedInv s -> latest s = before -> run trace s = Some s' ->
  latest s' = lastScheduled trace before.
Proof.
  revert s before. induction trace as [|e trace IH]; intros s before Hinv Hl Hrun.
  - injection Hrun as <-. done.
  - simpl in Hrun. destruct (step e s) as [s1|] eqn:Hstep; [|done].
    apply step_Some in Hstep as [Hen ->].
    pose proof (apply_latest e s Hinv Hen) as Hlatest.
    pose proof (apply_inv e s Hinv Hen) as Hinv1.
    destruct e; cbn [lastScheduled];
      (eapply IH; [exact Hinv1| |exact Hrun]); rewrite Hlatest; done.
Qed.

Lemma flush_settled t s : schedInv s -> settledFlush (flush t s).
Proof.
  intros (Hidle & _). unfold settledFlush, flush.
  cbn [inFlight setClock]. destruct (inFlight s) eqn:Hl; [|done..].
  rewrite flushTail_empty by by apply Hidle.
  cbn [pending inFlight setFlush setClock]. intros _. split; [by apply Hidle|done].
Qed.

(** A loop turn resolves a [flush] only by ending idle and empty. *)
Lemma loopTurn_settled t s :
  flushCall s <> FlushResolved -> settledFlush (loopTurn t s).
Proof.
  intros Hnr. unfold settledFlush.
  pose proof (loopTurn_cases t s) as Hcases.
  destruct (pending s) eqn:Hp.
  - destruct Hcases as [[_ ->]|[_ ->]];
      cbn [flushCall setLoop publish]; congruence.
  - rewrite Hcases, loopSettled_empty by done.
    cbn [flushCall setLoop].
    destruct (flushCall s) eqn:Hf;
      cbn [flushCall pending inFlight setLoop setFlush]; try congruence.
    done.
Qed.

Lemma updateSettled_settled t ok s :
  flushCall s <> FlushResolved -> settledFlush (updateSettled t ok s).
Proof.
  intros Hnr. unfold updateSettled.
  destruct ok; [by apply loopTurn_settled|].
  cbn [pending setLoop setClock].
  assert (forall x, settledFlush x -> settledFlush (loopSettled false t x)) as Hrej.
  { intros x Hx. unfold loopSettled.
    destruct (flushCall x) eqn:Hf; done. }
  apply Hrej. destruct (pending s) eqn:Hp.
  - unfold kick. cbn [inFlight setLoop]. by apply loopTurn_settled.
  - unfold settledFlush. cbn [flushCall setLoop setClock]. done.
Qed.

Lemma apply_settled e s :
  schedInv s -> enabled e s = true -> isSchedule e = false ->
  settledFlush s -> settledFlush (apply e s).
Proof.
  intros Hinv Hen Hns Hset.
  destruct e as [t card|t|t|t ok|t|t ok]; cbn [apply].
  - done.
  - by apply flush_settled.
  - apply timer_enabled in Hen as (due & Hl & _).
    unfold settledFlush, timerFired.
    cbn [flushCall setLoop publish setClock].
    intros Hf. destruct (Hset Hf) as [_ ?]. congruence.
  - apply update_enabled in Hen as [Hl _].
    apply updateSettled_settled.
    intros Hf. destruct (Hset Hf) as [_ ?]. congruence.
  - by rewrite flushTimer_disabled in Hen.
  - by rewrite flushUpdate_disabled in Hen.
Qed.

Lemma run_settled trace s s' :
  schedInv s -> settledFlush s -> existsb isSchedule trace = false ->
  run trace s = Some s' -> settledFlush s'.
Proof.
  revert s. induction trace as [|e trace IH]; intros s Hinv Hset Hns Hrun.
  - by injection Hrun as <-.
  - simpl in Hrun, Hns. apply orb_false_iff in Hns as [He Hns].
    destruct (step e s) as [s1|] eqn:Hstep; [|done].
    apply step_Some in Hstep as [Hen ->].
    eapply IH; [| |exact Hns|exact Hrun].
    + by apply apply_inv.
    + by apply apply_settled.
Qed.

End SchedulerLatest.

Section SchedulerProgress.

Local Open Scope Z_scope.
Implicit Types (s : State) (e : Event) (trace : list Event).

Lemma flush_progress t s : schedInv s -> flushProgress (flush t s).
Proof.
  intros (Hidle & _). unfold flushProgress, flush.
  cbn [inFlight setClock]. destruct (inFlight s) eqn:Hl.
  - left. rewrite flushTail_empty by by apply Hidle.
    cbn [inFlight flushCall setFlush setClock]. by rewrite Hl.
  - right. cbn [inFlight flushCall setFlush setClock]. by rewrite Hl.
  - right. cbn [inFlight flushCall setFlush setClock]. by rewrite Hl.
Qed.

Lemma completionsLeft_bound s : (completionsLeft s <= 3)%nat.
Proof. unfold completionsLeft. destruct (inFlight s), (pending s); lia. Qed.

Lemma timerFired_progress t s due :
  schedInv s -> flushProgress s -> inFlight s = LoopWaiting due ->
  flushProgress (timerFired t s)
  /\ (completionsLeft (timerFired t s) < completionsLeft s)%nat.
Proof.
  intros Hinv Hprog Hl.
  destruct Hprog as [[? _]|[_ Hf]]; [congruence|].
  unfold flushProgress, completionsLeft, timerFired.
  cbn [inFlight flushCall pending setLoop publish setClock].
  rewrite Hl. split; [by right|lia].
Qed.

Lemma updateSettled_progress t s :
  flushProgress s -> inFlight s = LoopPublishing ->
  flushProgress (updateSettled t true s)
  /\ (completionsLeft (updateSettled t true s) < completionsLeft s)%nat.
Proof.
  intros Hprog Hl.
  destruct Hprog as [[? _]|[_ Hf]]; [congruence|].
  unfold updateSettled.
  pose proof (loopTurn_cases t (setClock t s)) as Hcases.
  cbn [pending lastSentAt setClock] in Hcases.
  unfold flushProgress, completionsLeft. rewrite Hl.
  destruct (pending s) eqn:Hp.
  - destruct Hcases as [[_ ->]|[_ ->]];
      cbn [inFlight flushCall pending setLoop publish setClock];
      (split; [by right|lia]).
  - rewrite Hcases, loopSettled_empty by done.
    cbn [flushCall setLoop setClock]. rewrite Hf.
    cbn [inFlight flushCall pending setFlush setLoop setClock].
    split; [by left|lia].
Qed.

(** Every successful completion brings an outstanding [flush] nearer to
    its resolution. *)
Lemma apply_progress e s :
  schedInv s -> flushProgress s -> enabled e s = true ->
  isCompletion e = true -> succeeds e = true ->
  flushProgress (apply e s)
  /\ (completionsLeft (apply e s) < completionsLeft s)%nat.
Proof.
  intros Hinv Hprog Hen Hc Hok.
  destruct e as [t card|t|t|t ok|t|t ok]; cbn [apply].
  - done.
  - done.
  - apply timer_enabled in Hen as (due & Hl & _). by eapply timerFired_progress.
  - apply update_enabled in Hen as [Hl _]. cbn in Hok. subst ok.
    by apply updateSettled_progress.
  - by rewrite flushTimer_disabled in Hen.
  - by rewrite flushUpdate_disabled in Hen.
Qed.

Lemma run_progress trace s s' :
  schedInv s -> flushProgress s ->
  forallb isCompletion trace = true -> forallb succeeds trace = true ->
  run trace s = Some s' ->
  flushProgress s'
  /\ (length trace + completionsLeft s' <= completionsLeft s)%nat.
Proof.
  revert s. induction trace as [|e trace IH]; intros s Hinv Hprog Hc Hok Hrun.
  - injection Hrun as <-. split; [done|simpl; lia].
  - simpl in Hrun, Hc, Hok.
    apply andb_true_iff in Hc as [Hce Hc].
    apply andb_true_iff in Hok as [Hoke Hok].
    destruct (step e s) as [s1|] eqn:Hstep; [|done].
    apply step_Some in Hstep as [Hen ->].
    destruct (apply_progress e s Hinv Hprog Hen Hce Hoke) as [Hprog1 Hlt].
    destruct (IH (apply e s)) as [Hprog' Hle];
      [by apply apply_inv|done..|].
    split; [done|]. simpl. lia.
Qed.

(** A busy controller can always take its next completion. *)
Lemma nextCompletion_enabled s :
  inFlight s <> LoopIdle ->
  exists e, nextCompletion s = Some e /\ enabled e s = true
            /\ isCompletion e = true /\ succeeds e = true.
Proof.
  intros Hbusy. unfold nextCompletion.
  destruct (inFlight s) as [|due|] eqn:Hl; [done| |].
  - exists (TimerFired (Z.max due (clock s))). split; [done|].
    unfold enabled. cbn [time]. rewrite Hl.
    split_and!; try done. apply andb_true_iff. split; apply Z.leb_le; lia.
  - exists (UpdateSettled (clock s) true). split; [done|].
    unfold enabled. cbn [time]. rewrite Hl.
    split_and!; try done. apply andb_true_iff. split; [apply Z.leb_le; lia|done].
Qed.

End SchedulerProgress.

(** C6. Whenever [flush()] is called after the last [schedule(card)] call:
    in every execution that follows without another [schedule], once the
    [flush] has resolved the card scheduled last has been passed to the
    external edit operation, and it is the card passed last; and as long as
    the edit operation succeeds, the [flush] resolves after at most three
    completions, each of which can always happen. *)
Theorem flush_publishes_last_scheduled
    (now0 : Z) (before : list Event) (t : Z) (card : LarkCard) (s1 : State) :
  lastScheduled before None = Some card ->
  run (before ++ [Flush t]) (createCardUpdateController now0) = Some s1 ->
  (forall after s,
      existsb isSchedule after = false -> run after s1 = Some s ->
      flushCall s = FlushResolved ->
      lastPublished s = Some card
      /\ exists tp, (tp, Some card) ∈ published s)
  /\ (forall after s,
        forallb isCompletion after = true -> forallb succeeds after = true ->
        run after s1 = Some s ->
        (length after <= 3)%nat
        /\ (flushCall s = FlushResolved
            \/ exists e, nextCompletion s = Some e /\ enabled e s = true
                         /\ isCompletion e = true /\ succeeds e = true)).
Proof.
  intros Hlast Hrun.
  apply run_snoc in Hrun as (s0 & Hrun0 & Hflush).
  apply step_Some in Hflush as [Hen ->].
  pose proof (run_inv before _ s0 (schedInv_create now0) Hrun0) as Hinv0.
  pose proof (run_latest before _ s0 None (schedInv_create now0) eq_refl Hrun0)
    as Hlatest0.
  rewrite Hlast in Hlatest0.
  pose proof (apply_inv _ s0 Hinv0 Hen) as Hinv1.
  pose proof (apply_latest _ s0 Hinv0 Hen) as Hlatest1.
  cbn beta iota in Hlatest1. rewrite Hlatest0 in Hlatest1.
  split.
  - intros after s Hns Hafter Hres.
    pose proof (run_latest after _ s _ Hinv1 Hlatest1 Hafter) as Hlatest.
    rewrite (lastScheduled_no_schedule after _ Hns) in Hlatest.
    pose proof (run_settled after _ s Hinv1 (flush_settled t s0 Hinv0) Hns Hafter)
      as Hset.
    destruct (Hset Hres) as [Hp _].
    unfold latest in Hlatest. rewrite Hp in Hlatest.
    split; [exact Hlatest|].
    unfold lastPublished in Hlatest.
    destruct (last (published s)) as [[tp c]|] eqn:Hl; [|done]. subst c.
    exists tp. by apply last_Some_elem_of.
  - intros after s Hc Hok Hafter.
    destruct (run_progress after _ s Hinv1 (flush_progress t s0 Hinv0) Hc Hok Hafter)
      as [Hprog Hle].
    pose proof (completionsLeft_bound (apply (Flush t) s0)).
    split; [lia|].
    destruct Hprog as [[_ Hres]|[Hbusy _]]; [by left|].
    right. by apply nextCompletion_enabled.
Qed.

Lemma flush_publishes_last_scheduled_witness :
  let s1 := apply (Flush 1020)
              (apply (Schedule 1010 cardB)
                 (apply (Schedule 1000 cardA) (createCardUpdateController 1000))) in
  let s := apply (UpdateSettled 1400 true)
             (apply (TimerFired 1350) (apply (UpdateSettled 1100 true) s1)) in
  lastPublished s = Some cardB /\ exists tp, (tp, Some cardB) ∈ published s.
Proof.
  intros s1 s.
  destruct (flush_publishes_last_scheduled 1000
              [Schedule 1000 cardA; Schedule 1010 cardB] 1020 cardB s1)
    as [Hsafe _].
  - reflexivity.
  - vm_compute. reflexivity.
  - apply (Hsafe [UpdateSettled 1100 true; TimerFired 1350; UpdateSettled 1400 true]).
    + reflexivity.
    + vm_compute. reflexivity.
    + vm_compute. reflexivity.
Defined.

Example flush_scenario :
  option_map (fun s => (flushCall s, published s))
    (run [ Schedule 1000 cardA; Schedule 1010 cardB; Flush 1020;
           UpdateSettled 1100 true; TimerFired 1350; UpdateSettled 1400 true ]
       (createCardUpdateController 1000))
  = Some (FlushResolved, [(1000, Some cardA); (1350, Some cardB)]%Z).
Proof. vm_compute. reflexivity. Qed.

(** ** Update scheduler: a burst of [schedule] calls *)

Section Burst.

Local Open Scope Z_scope.
Implicit Types (s : State) (e : Event) (trace : list Event).

Ltac sched_fields :=
  cbn [pending lastSentAt inFlight flushCall clock published
       setLoop setFlush setClock setPending publish] in *.

Lemma scheduleCalls_app trace1 trace2 :
  scheduleCalls (trace1 ++ trace2) = scheduleCalls trace1 ++ scheduleCalls trace2.
Proof. unfold scheduleCalls. apply flat_map_app. Qed.

Lemma scheduleCalls_nil trace :
  scheduleCalls trace = [] <-> existsb isSchedule trace = false.
Proof.
  induction trace as [|e trace IH]; [done|].
  destruct e; simpl; try exact IH. split; done.
Qed.

(** The first [schedule] call of a trace splits it. *)
Lemma scheduleCalls_cons trace t c calls :
  scheduleCalls trace = (t, c) :: calls ->
  exists pre rest, trace = pre ++ Schedule t c :: rest
                   /\ existsb isSchedule pre = false
                   /\ scheduleCalls rest = calls.
Proof.
  induction trace as [|e trace IH]; [done|].
  destruct e as [t' c'| | | | |]; simpl.
  - intros [= -> -> Hrest]. by exists [], trace.
  - intros Hc. destruct (IH Hc) as (pre & rest & -> & Hpre & Hrest).
    by exists (Flush t0 :: pre), rest.
  - intros Hc. destruct (IH Hc) as (pre & rest & -> & Hpre & Hrest).
    by exists (TimerFired t0 :: pre), rest.
  - intros Hc. destruct (IH Hc) as (pre & rest & -> & Hpre & Hrest).
    by exists (UpdateSettled t0 ok :: pre), rest.
  - intros Hc. destruct (IH Hc) as (pre & rest & -> & Hpre & Hrest).
    by exists (FlushTimerFired t0 :: pre), rest.
  - intros Hc. destruct (IH Hc) as (pre & rest & -> & Hpre & Hrest).
    by exists (FlushUpdateSettled t0 ok :: pre), rest.
Qed.

Lemma run_cons e trace s s' :
  run (e :: trace) s = Some s' <->
  enabled e s = true /\ run trace (apply e s) = Some s'.
Proof.
  simpl. unfold step. destruct (enabled e s); split; try done.
  - by intros [_ ?].
  - by intros [? _].
Qed.

(** When the promise of the loop settles, only the state of [flush]
    changes, provided no card is pending or the loop failed. *)
Lemma loopSettled_flush ok t s :
  pending s = None \/ ok = false ->
  exists f, loopSettled ok t s = setFlush f s.
Proof.
  intros Hp. unfold loopSettled.
  destruct (flushCall s) eqn:Hf;
    try (exists (flushCall s); destruct s; cbn in *; by subst).
  destruct ok.
  - destruct Hp as [Hp|?]; [|done]. rewrite flushTail_empty by done. by eexists.
  - by eexists.
Qed.

(** *** Before the first call *)

Lemma untouched_apply e s :
  schedInv s -> untouched s -> isSchedule e = false -> enabled e s = true ->
  untouched (apply e s).
Proof.
  intros Hinv (Hp & Hl & Hlast & Hpub) Hns Hen.
  destruct e as [t card|t|t|t ok|t|t ok]; cbn [apply].
  - done.
  - unfold flush. cbn [inFlight setClock]. rewrite Hl.
    rewrite flushTail_empty by done. by unfold untouched.
  - apply timer_enabled in Hen as (due & ? & _). congruence.
  - apply update_enabled in Hen as [? _]. congruence.
  - by rewrite flushTimer_disabled in Hen.
  - by rewrite flushUpdate_disabled in Hen.
Qed.

Lemma untouched_run trace s s' :
  schedInv s -> untouched s -> existsb isSchedule trace = false ->
  run trace s = Some s' -> untouched s' /\ schedInv s'.
Proof.
  revert s. induction trace as [|e trace IH]; intros s Hinv Hun Hns Hrun.
  - by injection Hrun as <-.
  - simpl in Hns. apply orb_false_iff in Hns as [He Hns].
    apply run_cons in Hrun as [Hen Hrun].
    apply (IH (apply e s)); [by apply apply_inv| |done|done].
    by apply untouched_apply.
Qed.

(** *** During and after the burst *)

Variable L : Z.
Variable P0 : list (Z * option LarkCard).

Lemma heldBack_setFlush f c s : heldBack L P0 c s -> heldBack L P0 c (setFlush f s).
Proof. done. Qed.

Lemma sentAfter_setFlush f c s : sentAfter L P0 c s -> sentAfter L P0 c (setFlush f s).
Proof. done. Qed.

(** A loop turn on a held-back card: it is held back further, or sent. *)
Lemma heldBack_loopTurn t c s l0 :
  pending s = Some c -> lastSentAt s = L -> published s = P0 -> clock s = t ->
  let s' := loopTurn t (setLoop l0 s) in
  heldBack L P0 c s' \/ sentAfter L P0 c s'.
Proof.
  intros Hp Hlast Hpub Hclock s'. subst s'.
  pose proof (loopTurn_cases t (setLoop l0 s)) as Hcases.
  cbn [pending lastSentAt setLoop] in Hcases. rewrite Hp, Hlast in Hcases.
  destruct Hcases as [[Hlt ->]|[Hge ->]].
  - left. unfold heldBack. sched_fields. split_and!; try done; by left.
  - right. unfold sentAfter. sched_fields. split_and!; try done; [by left|].
    exists t. rewrite Hp, Hpub. split_and!; try done; lia.
Qed.

Lemma burst_heldBack e s c :
  schedInv s -> heldBack L P0 c s -> enabled e s = true ->
  let c' := match e with Schedule _ card => card | _ => c end in
  heldBack L P0 c' (apply e s) \/ sentAfter L P0 c' (apply e s).
Proof.
  intros Hinv (Hp & Hlast & Hpub & Hloop) Hen c'. subst c'.
  assert (inFlight s <> LoopIdle) as Hbusy by (destruct Hloop; congruence).
  destruct e as [t card|t|t|t ok|t|t ok]; cbn [apply].
  - left. unfold schedule, kick. cbn [inFlight setPending setClock].
    destruct (inFlight s) eqn:Hl; [done| |]; unfold heldBack; sched_fields;
      by rewrite Hl.
  - left. unfold flush. cbn [inFlight setClock].
    destruct (inFlight s) eqn:Hl; [done| |]; unfold heldBack; sched_fields;
      by rewrite Hl.
  - apply timer_enabled in Hen as (due & Hl & Hdue & Hclock).
    destruct Hloop as [Hl'|Hl']; [|congruence].
    rewrite Hl in Hl'. injection Hl' as ->.
    right. unfold sentAfter, timerFired. sched_fields.
    split_and!; try done; [by left|].
    exists t. rewrite Hp, Hpub. split_and!; try done; lia.
  - apply update_enabled in Hen as [Hl Hclock].
    unfold updateSettled. destruct ok.
    + rewrite <- (ltac:(done) : setLoop (inFlight s) (setClock t s) = setClock t s).
      by apply heldBack_loopTurn.
    + cbn [pending setLoop setClock]. rewrite Hp.
      unfold kick. cbn [inFlight setLoop].
      destruct (loopSettled_flush false t
                  (loopTurn t (setLoop LoopIdle (setClock t s)))) as [f ->];
        [by right|].
      destruct (heldBack_loopTurn t c (setClock t s) LoopIdle) as [Hh|Hs];
        try done; [left|right]; done.
  - by rewrite flushTimer_disabled in Hen.
  - by rewrite flushUpdate_disabled in Hen.
Qed.

Lemma burst_sentAfter e s c :
  schedInv s -> sentAfter L P0 c s -> enabled e s = true ->
  (forall t card, e = Schedule t card -> t < L + MIN_INTERVAL_MS) ->
  sentAfter L P0 c (apply e s).
Proof.
  intros Hinv (Hp & Hloop & t0 & Ht0 & Hc0 & Hpub) Hen Hearly.
  destruct e as [t card|t|t|t ok|t|t ok]; cbn [apply].
  - specialize (Hearly t card eq_refl).
    apply andb_true_iff in Hen as [Hclock _]. apply Z.leb_le in Hclock.
    cbn [time] in Hclock. lia.
  - apply andb_true_iff in Hen as [Hclock _]. apply Z.leb_le in Hclock.
    cbn [time] in Hclock.
    assert (sentAfter L P0 c (setClock t s)) as Hs.
    { unfold sentAfter. sched_fields. split_and!; try done.
      exists t0. split_and!; try done; lia. }
    unfold flush. cbn [inFlight setClock].
    destruct (inFlight s) eqn:Hl; [|done..].
    by rewrite flushTail_empty.
  - apply timer_enabled in Hen as (due & Hl & _). destruct Hloop; congruence.
  - apply update_enabled in Hen as [Hl Hclock].
    assert (sentAfter L P0 c (setLoop LoopIdle (setClock t s))) as Hs.
    { unfold sentAfter. sched_fields. split_and!; try done; [by right|].
      exists t0. split_and!; try done; lia. }
    unfold updateSettled. destruct ok.
    + pose proof (loopTurn_cases t (setClock t s)) as Hcases.
      cbn [pending setClock] in Hcases. rewrite Hp in Hcases.
      rewrite Hcases.
      destruct (loopSettled_flush true t (setLoop LoopIdle (setClock t s)))
        as [f ->]; [by left|].
      apply sentAfter_setFlush.
      exact Hs.
    + cbn [pending setLoop setClock]. rewrite Hp.
      destruct (loopSettled_flush false t (setLoop LoopIdle (setClock t s)))
        as [f ->]; [by right|].
      apply sentAfter_setFlush.
      exact Hs.
  - by rewrite flushTimer_disabled in Hen.
  - by rewrite flushUpdate_disabled in Hen.
Qed.

Lemma burst_apply e s c :
  schedInv s -> heldBack L P0 c s \/ sentAfter L P0 c s ->
  enabled e s = true ->
  (forall t card, e = Schedule t card -> t < L + MIN_INTERVAL_MS) ->
  let c' := match e with Schedule _ card => card | _ => c end in
  heldBack L P0 c' (apply e s) \/ sentAfter L P0 c' (apply e s).
Proof.
  intros Hinv [Hh|Hs] Hen Hearly c'.
  - by apply burst_heldBack.
  - right. subst c'. destruct e as [t card| | | | |];
      try by apply burst_sentAfter.
    exfalso. destruct Hs as (_ & _ & t0 & Ht0 & Hc0 & _).
    specialize (Hearly t card eq_refl).
    apply andb_true_iff in Hen as [Hclock _]. apply Z.leb_le in Hclock.
    cbn [time] in Hclock. lia.
Qed.

Lemma burst_run trace s s' c :
  schedInv s -> heldBack L P0 c s \/ sentAfter L P0 c s ->
  Forall (fun call => fst call < L + MIN_INTERVAL_MS) (scheduleCalls trace) ->
  run trace s = Some s' ->
  exists c', lastScheduled trace (Some c) = Some c'
             /\ (heldBack L P0 c' s' \/ sentAfter L P0 c' s').
Proof.
  revert s c. induction trace as [|e trace IH]; intros s c Hinv Hphase Hearly Hrun.
  - injection Hrun as <-. by exists c.
  - apply run_cons in Hrun as [Hen Hrun].
    assert (forall t card, e = Schedule t card -> t < L + MIN_INTERVAL_MS) as He.
    { intros t card ->. simpl in Hearly. by apply Forall_cons in Hearly as [? _]. }
    assert (Forall (fun call => fst call < L + MIN_INTERVAL_MS)
              (scheduleCalls trace)) as Hearly'.
    { destruct e; simpl in Hearly; try done. by apply Forall_cons in Hearly as [_ ?]. }
    pose proof (burst_apply e s c Hinv Hphase Hen He) as Hphase'.
    destruct (IH (apply e s) _ (apply_inv e s Hinv Hen) Hphase' Hearly' Hrun)
      as (c' & Hlast & Hfin).
    exists c'. split; [|done]. by destruct e.
Qed.

End Burst.

Section BurstScenarios.

Local Open Scope Z_scope.
Implicit Types (s : State) (e : Event) (trace : list Event).

Ltac sched_fields :=
  cbn [pending lastSentAt inFlight flushCall clock published
       setLoop setFlush setClock setPending publish] in *.

Lemma lastScheduled_calls trace before :
  lastScheduled trace before
  = match last (scheduleCalls trace) with
    | Some (_, c) => Some c
    | None => before
    end.
Proof.
  revert before. induction trace as [|e trace IH]; intros before; [done|].
  destruct e as [t c| | | | |]; cbn [lastScheduled]; rewrite IH; try done.
  change (scheduleCalls (Schedule t c :: trace)) with ((t, c) :: scheduleCalls trace).
  rewrite last_cons. by destruct (last (scheduleCalls trace)) as [[? ?]|].
Qed.

Lemma untouched_create now : untouched (createCardUpdateController now).
Proof. done. Qed.

(** The first call of a burst, on a controller that never published: the
    card is held back, or sent at once, according to the clock. *)
Lemma first_schedule t c s :
  untouched s ->
  (t < MIN_INTERVAL_MS /\ heldBack 0 [] c (schedule t c s))
  \/ (MIN_INTERVAL_MS <= t /\ sentAtOnce t c (schedule t c s)).
Proof.
  intros (Hp & Hl & Hlast & Hpub). unfold schedule, kick.
  cbn [inFlight setPending setClock]. rewrite Hl.
  pose proof (loopTurn_cases t (setPending (Some c) (setClock t s))) as Hcases.
  cbn [pending lastSentAt setPending setClock] in Hcases. rewrite Hlast in Hcases.
  destruct Hcases as [[Hlt ->]|[Hge ->]].
  - left. split; [lia|]. unfold heldBack. sched_fields.
    split_and!; try done; by left.
  - right. split; [lia|]. unfold sentAtOnce. sched_fields.
    rewrite Hpub. split_and!; try done; by left.
Qed.

Lemma sentAtOnce_apply T0 c e s :
  schedInv s -> sentAtOnce T0 c s -> isSchedule e = false ->
  enabled e s = true -> sentAtOnce T0 c (apply e s).
Proof.
  intros Hinv (Hp & Hlast & Hpub & Hloop) Hns Hen.
  assert (sentAtOnce T0 c (setLoop LoopIdle s)) as Hidle.
  { unfold sentAtOnce. sched_fields. split_and!; try done; by right. }
  destruct e as [t card|t|t|t ok|t|t ok]; cbn [apply].
  - done.
  - unfold flush. cbn [inFlight setClock].
    destruct (inFlight s) eqn:Hl.
    + rewrite flushTail_empty by done.
      unfold sentAtOnce. sched_fields. rewrite Hl. split_and!; try done; by right.
    + destruct Hloop; congruence.
    + unfold sentAtOnce. sched_fields. rewrite Hl. split_and!; try done; by left.
  - apply timer_enabled in Hen as (due & Hl & _). destruct Hloop; congruence.
  - unfold updateSettled. destruct ok.
    + pose proof (loopTurn_cases t (setClock t s)) as Hcases.
      cbn [pending setClock] in Hcases. rewrite Hp in Hcases. rewrite Hcases.
      destruct (loopSettled_flush true t (setLoop LoopIdle (setClock t s)))
        as [f ->]; [by left|]. exact Hidle.
    + cbn [pending setLoop setClock]. rewrite Hp.
      destruct (loopSettled_flush false t (setLoop LoopIdle (setClock t s)))
        as [f ->]; [by right|]. exact Hidle.
  - by rewrite flushTimer_disabled in Hen.
  - by rewrite flushUpdate_disabled in Hen.
Qed.

Lemma sentAtOnce_run T0 c trace s s' :
  schedInv s -> sentAtOnce T0 c s -> existsb isSchedule trace = false ->
  run trace s = Some s' -> sentAtOnce T0 c s' /\ schedInv s'.
Proof.
  revert s. induction trace as [|e trace IH]; intros s Hinv Hun Hns Hrun.
  - by injection Hrun as <-.
  - simpl in Hns. apply orb_false_iff in Hns as [He Hns].
    apply run_cons in Hrun as [Hen Hrun].
    apply (IH (apply e s)); [by apply apply_inv| |done|done].
    by apply sentAtOnce_apply.
Qed.

(** The second call, within the interval after a card that was sent at
    once: the new card is held back. *)
Lemma second_schedule T0 c0 t c s :
  sentAtOnce T0 c0 s -> clock s <= t ->
  heldBack T0 [(T0, Some c0)] c (schedule t c s)
  \/ sentAfter T0 [(T0, Some c0)] c (schedule t c s).
Proof.
  intros (Hp & Hlast & Hpub & Hloop) Hclock. unfold schedule, kick.
  cbn [inFlight setPending setClock].
  destruct Hloop as [Hl|Hl]; rewrite Hl.
  - left. unfold heldBack. sched_fields. split_and!; try done; by right.
  - assert (setPending (Some c) (setClock t s)
            = setLoop LoopIdle (setPending (Some c) (setClock t s))) as ->
      by (unfold setLoop, setPending, setClock; sched_fields; by rewrite Hl).
    by apply heldBack_loopTurn.
Qed.

End BurstScenarios.

(** C5, as stated, holds only when the clock reads 0 at the first request.
    The controller starts with [lastSentAt = 0] and compares it with
    [Date.now()]; with the first request at [Date.now() = 1000] (and the
    others 50 and 100 ms later) the first card is published at once, and the
    card of the last request 350 ms after it: two publishes. *)
Lemma burst_publishes_first_card_at_once :
  scheduleCalls (burstAt 1000)
  = [(1000, cardA); (1050, cardB); (1100, cardC)]%Z
  /\ option_map published (run (burstAt 1000) (createCardUpdateController 1000))
     = Some [(1000, Some cardA); (1350, Some cardC)]%Z.
Proof. split; vm_compute; reflexivity. Qed.

Section BurstTheorem.

Local Open Scope Z_scope.

(** What a burst of three calls leaves, from the state after its first
    call on. *)
Lemma burst_tail L P0 c0 t1 c1 t2 c2 rest s1 s :
  schedInv s1 -> heldBack L P0 c0 s1 \/ sentAfter L P0 c0 s1 ->
  scheduleCalls rest = [(t1, c1); (t2, c2)] ->
  t1 < L + MIN_INTERVAL_MS -> t2 < L + MIN_INTERVAL_MS ->
  run rest s1 = Some s ->
  (published s = P0
   \/ exists t, L + MIN_INTERVAL_MS <= t /\ published s = P0 ++ [(t, Some c2)])
  /\ (inFlight s = LoopIdle ->
      exists t, L + MIN_INTERVAL_MS <= t /\ published s = P0 ++ [(t, Some c2)]).
Proof.
  intros Hinv Hphase Hcalls Ht1 Ht2 Hrun.
  destruct (burst_run L P0 rest s1 s c0 Hinv Hphase) as (c' & Hlast & Hfin);
    [|done|].
  { rewrite Hcalls. by repeat constructor. }
  rewrite lastScheduled_calls, Hcalls in Hlast. injection Hlast as <-.
  destruct Hfin as [(_ & _ & Hpub & Hloop)|(_ & _ & t & Ht & _ & Hpub)].
  - split; [by left|]. intros Hidle. destruct Hloop; congruence.
  - split; [right|intros _]; by exists t.
Qed.

(** C5 (amended). Consecutive publishes are never closer together than
    the minimum interval.  Three requests 0, 50 and 100 ms after the
    first: when the clock reads 0 at the first request, nothing is
    published before 350 ms, and then exactly one card, that of the last
    request; when the clock reads [T0 >= 350] at the first request, as
    every real clock does, the card of the first request is published at
    once and the card of the last request exactly once, no earlier than
    350 ms after the first; the card of the second request is never
    published. *)
Theorem schedule_burst_spacing :
  (forall now0 trace s,
      run trace (createCardUpdateController now0) = Some s ->
      spaced (publishTimes s))
  /\ (forall now0 c0 c1 c2 trace s,
        scheduleCalls trace = [(0, c0); (50, c1); (100, c2)] ->
        run trace (createCardUpdateController now0) = Some s ->
        (published s = []
         \/ exists t, 350 <= t /\ published s = [(t, Some c2)])
        /\ (inFlight s = LoopIdle ->
            exists t, 350 <= t /\ published s = [(t, Some c2)]))
  /\ (forall now0 T0 c0 c1 c2 trace s,
        350 <= T0 ->
        scheduleCalls trace = [(T0, c0); (T0 + 50, c1); (T0 + 100, c2)] ->
        run trace (createCardUpdateController now0) = Some s ->
        (published s = [(T0, Some c0)]
         \/ exists t, T0 + 350 <= t
                      /\ published s = [(T0, Some c0); (t, Some c2)])
        /\ (inFlight s = LoopIdle ->
            exists t, T0 + 350 <= t
                      /\ published s = [(T0, Some c0); (t, Some c2)])).
Proof.
  split; [|split].
  - intros now0 trace s Hrun.
    by destruct (run_inv trace _ s (schedInv_create now0) Hrun)
      as (_ & _ & _ & _ & _ & Hsp & _).
  - intros now0 c0 c1 c2 trace s Hcalls Hrun.
    apply scheduleCalls_cons in Hcalls as (pre & rest & -> & Hpre & Hrest).
    rewrite run_app in Hrun.
    destruct (run pre (createCardUpdateController now0)) as [s0|] eqn:Hrun0;
      [|done].
    destruct (untouched_run pre _ s0 (schedInv_create now0)
                (untouched_create now0) Hpre Hrun0) as [Hun Hinv0].
    apply run_cons in Hrun as [Hen Hrun].
    destruct (first_schedule 0 c0 s0 Hun) as [[_ Hheld]|[Hge _]];
      [|unfold MIN_INTERVAL_MS in Hge; lia].
    apply (burst_tail 0 [] c0 50 c1 100 c2 rest (apply (Schedule 0 c0) s0) s);
      try done.
    + by apply apply_inv.
    + by left.
  - intros now0 T0 c0 c1 c2 trace s HT0 Hcalls Hrun.
    apply scheduleCalls_cons in Hcalls as (pre & rest & -> & Hpre & Hrest).
    rewrite run_app in Hrun.
    destruct (run pre (createCardUpdateController now0)) as [s0|] eqn:Hrun0;
      [|done].
    destruct (untouched_run pre _ s0 (schedInv_create now0)
                (untouched_create now0) Hpre Hrun0) as [Hun Hinv0].
    apply run_cons in Hrun as [Hen Hrun].
    destruct (first_schedule T0 c0 s0 Hun) as [[Hlt _]|[_ Hsent]];
      [unfold MIN_INTERVAL_MS in Hlt; lia|].
    pose proof (apply_inv _ s0 Hinv0 Hen) as Hinv1.
    apply scheduleCalls_cons in Hrest as (pre1 & rest1 & -> & Hpre1 & Hrest1).
    rewrite run_app in Hrun.
    destruct (run pre1 (apply (Schedule T0 c0) s0)) as [s2|] eqn:Hrun1; [|done].
    destruct (sentAtOnce_run T0 c0 pre1 _ s2 Hinv1 Hsent Hpre1 Hrun1)
      as [Hsent2 Hinv2].
    apply run_cons in Hrun as [Hen2 Hrun].
    pose proof (apply_inv _ s2 Hinv2 Hen2) as Hinv3.
    assert (clock s2 <= T0 + 50) as Hclock.
    { apply andb_true_iff in Hen2 as [Hc _]. by apply Z.leb_le in Hc. }
    pose proof (second_schedule T0 c0 (T0 + 50) c1 s2 Hsent2 Hclock) as Hphase.
    destruct (burst_run T0 [(T0, Some c0)] rest1 _ s c1 Hinv3 Hphase)
      as (c' & Hlast & Hfin); [|done|].
    { rewrite Hrest1. repeat constructor. unfold MIN_INTERVAL_MS. simpl. lia. }
    rewrite lastScheduled_calls, Hrest1 in Hlast. injection Hlast as <-.
    destruct Hfin as [(_ & _ & Hpub & Hloop)|(_ & _ & t & Ht & _ & Hpub)].
    + split; [by left|]. intros Hidle. destruct Hloop; congruence.
    + unfold MIN_INTERVAL_MS in Ht. split; [right|intros _]; by exists t.
Qed.

End BurstTheorem.

Lemma schedule_burst_spacing_witness :
  (exists s, run burstAtZero (createCardUpdateController 0) = Some s
             /\ inFlight s = LoopIdle
             /\ exists t, (350 <= t)%Z /\ published s = [(t, Some cardC)])
  /\ (exists s, run (burstAt 1000) (createCardUpdateController 1000) = Some s
                /\ inFlight s = LoopIdle
                /\ exists t, (1000 + 350 <= t)%Z
                             /\ published s = [(1000%Z, Some cardA); (t, Some cardC)]).
Proof.
  destruct schedule_burst_spacing as (_ & Hzero & Hlater).
  split.
  - destruct (run burstAtZero (createCardUpdateController 0)) as [s|] eqn:Hrun;
      [|by vm_compute in Hrun].
    exists s. split; [done|].
    assert (inFlight s = LoopIdle) as Hidle
      by (vm_compute in Hrun; by injection Hrun as <-).
    split; [done|].
    by apply (Hzero 0%Z cardA cardB cardC burstAtZero s eq_refl Hrun).
  - destruct (run (burstAt 1000) (createCardUpdateController 1000)) as [s|] eqn:Hrun;
      [|by vm_compute in Hrun].
    exists s. split; [done|].
    assert (inFlight s = LoopIdle) as Hidle
      by (vm_compute in Hrun; by injection Hrun as <-).
    split; [done|].
    apply (Hlater 1000%Z 1000%Z cardA cardB cardC (burstAt 1000) s);
      [lia|reflexivity|exact Hrun|exact Hidle].
Defined.

(** ** Renderer controller: [finalize] *)

Section Finalize.
Context `{Host}.
Variable mentionTargets : option (list MentionTarget).

Local Open Scope Z_scope.
Implicit Types (r : Renderer).

Lemma rendererInv_tracker_fields t buf bufState r :
  rendererInv r ->
  rendererInv {| tracker := t; messageId := messageId r;
                 assistantBuffer := buf; assistantBufferState := bufState;
                 updater := updater r; created := created r |}.
Proof. done. Qed.

Lemma applyEvents_inv now evts r :
  rendererInv r -> rendererInv (applyEvents now evts r).
Proof.
  intros Hr. unfold applyEvents. destruct evts as [[|e l]|]; try done.
  by destruct (foldl _ _ _).
Qed.

Lemma applyText_inv now payloadText r :
  rendererInv r -> rendererInv (applyText now payloadText r).
Proof.
  intros Hr. unfold applyText.
  destruct (toolLines _); destruct (isEmpty _); done.
Qed.

Lemma renderCard_inv now collapse r :
  rendererInv r -> rendererInv (renderCard mentionTargets now collapse r).
Proof.
  intros Hr. unfold renderCard. destruct (messageId r) eqn:Hm; [|done].
  unfold rendererInv in *. cbn [messageId updater withUpdater].
  rewrite Hm in *. destruct (updater r); [|done]. cbn. by apply schedule_inv.
Qed.

Lemma present_inv now sendResult r :
  rendererInv r -> rendererInv (present mentionTargets now sendResult r).
Proof.
  intros Hr. unfold present. destruct (messageId r) eqn:Hm.
  - by apply renderCard_inv.
  - destruct sendResult.
    + unfold rendererInv. cbn. apply schedInv_create.
    + unfold rendererInv in *. cbn. by rewrite Hm in *.
Qed.

Lemma deliver_inv now sendResult payload r :
  rendererInv r -> rendererInv (deliver mentionTargets now sendResult payload r).
Proof.
  intros Hr. unfold deliver.
  pose proof (applyEvents_inv now (extractVerboseEvents payload) r Hr) as Hr1.
  destruct (extractAgentMessages payload).
  - by apply present_inv.
  - destruct (negb _).
    + by apply present_inv, applyText_inv.
    + destruct (extractVerboseEvents payload); [by apply present_inv|done].
Qed.

Lemma flushed_inv now r :
  rendererInv r -> rendererInv (withUpdater (flush now <$> updater r) r).
Proof.
  unfold rendererInv. cbn [messageId updater withUpdater].
  destruct (messageId r), (updater r); try done. cbn. apply flush_inv.
Qed.

Lemma finalize_inv now r :
  rendererInv r -> rendererInv (finalize mentionTargets now r).
Proof.
  intros Hr. unfold finalize. destruct (_ && _); [done|].
  by apply flushed_inv, renderCard_inv.
Qed.

Lemma onError_inv now r :
  rendererInv r -> rendererInv (onError mentionTargets now r).
Proof.
  intros Hr. unfold onError. destruct (_ && _); [done|].
  by apply flushed_inv, renderCard_inv.
Qed.

Lemma settle_inv e r r' :
  rendererInv r -> settle e r = Some r' -> rendererInv r'.
Proof.
  unfold rendererInv, settle. destruct (isHostCall e); [done|].
  destruct (messageId r) eqn:Hm, (updater r) as [u|] eqn:Hu; try done.
  intros Hinv Hstep. destruct (step e u) as [u'|] eqn:Hs; [|done].
  injection Hstep as <-. cbn. rewrite Hm.
  apply step_Some in Hs as [Hen ->]. by apply apply_inv.
Qed.

Lemma reachable_inv r : reachable mentionTargets r -> rendererInv r.
Proof.
  induction 1.
  - done.
  - by apply deliver_inv.
  - by apply finalize_inv.
  - by apply onError_inv.
  - by eapply settle_inv.
Qed.

(** Completions on the renderer are completions on its controller. *)
Lemma settleAll_run after r r' u :
  updater r = Some u -> settleAll after r = Some r' ->
  exists u', run after u = Some u' /\ updater r' = Some u'
             /\ existsb isSchedule after = false
             /\ forallb isCompletion after = true.
Proof.
  revert r u. induction after as [|e after IH]; intros r u Hu Hrun.
  - injection Hrun as <-. by exists u.
  - cbn [settleAll] in Hrun.
    destruct (settle e r) as [r1|] eqn:Hs; [|done].
    unfold settle in Hs. destruct (isHostCall e) eqn:Hhost; [done|].
    rewrite Hu in Hs. destruct (step e u) as [u1|] eqn:Hstep; [|done].
    injection Hs as <-.
    destruct (IH (withUpdater (Some u1) r) u1 eq_refl Hrun)
      as (u' & Hrun' & Hu' & Hns & Hc).
    exists u'. cbn [run]. rewrite Hstep. split_and!; try done.
    + cbn [existsb]. rewrite Hns. by destruct e.
    + cbn [forallb]. unfold isCompletion at 1. by rewrite Hhost, Hc.
Qed.



End Finalize.



Example finalize_scenario :
  let r := deliver (H := sampleHost) None 1000 (Some (js "om_1"))
             (textPayload (js "hello")) createAgentCardRenderer in
  let r' := finalize (H := sampleHost) None 1100 r in
  option_map (fun r'' => option_map
                           (fun u => (flushCall u,
                                      map (fun p => (fst p, option_map header_template (snd p)))
                                          (published u)))
                           (updater r''))
    (settleAll [UpdateSettled 1200 true] r')
  = Some (Some (FlushResolved, [(1100%Z, Some (js "green"))])).
Proof. vm_compute. reflexivity. Qed.

(** * Further properties of the code *)

(** ** Text merge and assistant events *)

(** X1. [mergeStreamText] never loses accumulated text: the previous text
    is a prefix of the result; the new chunk ends the result unless it is
    a stale resend (a prefix of the previous text); and the result is never
    longer than both together. *)
Theorem mergeStreamText_keeps_accumulated (prev next : jsstring) :
  prev `prefix_of` mergeStreamText prev next
  /\ (next `suffix_of` mergeStreamText prev next \/ next `prefix_of` prev)
  /\ (length (mergeStreamText prev next) <= length prev + length next)%nat.
Proof.
  unfold mergeStreamText.
  destruct prev as [|c prev]; cbn [isEmpty].
  { split; [apply prefix_nil|]. split; [by left|simpl; lia]. }
  destruct next as [|d next]; cbn [isEmpty].
  { split; [done|]. split; [left; apply suffix_nil|simpl; lia]. }
  destruct (startsWith (d :: next) (c :: prev)) eqn:E1.
  { apply startsWith_prefix in E1. split; [done|].
    split; [by left|simpl; lia]. }
  destruct (startsWith (c :: prev) (d :: next)) eqn:E2.
  { apply startsWith_prefix in E2. split; [done|].
    split; [by right|simpl; lia]. }
  split; [by apply prefix_app_r|].
  split; [left; by apply suffix_app_r|].
  rewrite length_app. lia.
Qed.

(** X2. An assistant event with a non-empty text merges the text into the
    event buffer exactly as [mergeStreamText] does, makes the merged text
    the draft answer and sets the status to Thinking, leaving the timeline
    alone; an assistant event whose text is missing or empty changes
    nothing. *)
Theorem assistant_event_merges_text
    (now : Z) (t : AgentRunTracker) (buf : jsstring) (evt : VerboseEvent) :
  stream evt = StreamAssistant ->
  (forall chunk, data_text evt = Some chunk -> chunk <> [] ->
     applyVerboseEvent now (t, buf) evt
     = ({| status := Thinking; timeline := timeline t; seen := seen t;
           draftAnswer := mergeStreamText buf chunk |},
        mergeStreamText buf chunk))
  /\ (data_text evt = None \/ data_text evt = Some [] ->
      applyVerboseEvent now (t, buf) evt = (t, buf)).
Proof.
  intros Hs. unfold applyVerboseEvent. rewrite Hs. split.
  - intros chunk -> Hne. rewrite (isEmpty_false _ Hne).
    by rewrite (assistant_branch_merge buf chunk Hne).
  - by intros [-> | ->].
Qed.

Lemma assistant_event_merges_text_witness :
  applyVerboseEvent 0 (newTracker, js "Hel") (assistantEvent (Some (js "Hello")))
  = ({| status := Thinking; timeline := []; seen := ∅;
        draftAnswer := mergeStreamText (js "Hel") (js "Hello") |},
     mergeStreamText (js "Hel") (js "Hello")).
Proof.
  refine (proj1 (assistant_event_merges_text 0 newTracker (js "Hel")
                   (assistantEvent (Some (js "Hello"))) eq_refl)
            (js "Hello") eq_refl _).
  by vm_compute.
Defined.

(** ** Durations *)

Lemma digits_digit (k : N) : k < 10 -> digits k = [48 + k].
Proof.
  intros Hk.
  assert (k = 0 \/ k = 1 \/ k = 2 \/ k = 3 \/ k = 4 \/ k = 5 \/ k = 6
          \/ k = 7 \/ k = 8 \/ k = 9) as Hcases by lia.
  repeat (destruct Hcases as [-> | Hcases]; [reflexivity|]).
  by subst.
Qed.

Lemma round_half_up (m : N) :
  100 * ((m + 50) / 100) <= m + 50 /\ m <= 100 * ((m + 50) / 100) + 50.
Proof.
  pose proof (N.mod_lt (m + 50) 100 ltac:(lia)) as Hlt.
  pose proof (N.div_mod' (m + 50) 100) as Heq.
  generalize dependent ((m + 50) / 100).
  generalize dependent ((m + 50) mod 100). intros. lia.
Qed.

Lemma round_half_down (m : N) :
  m mod 100 = 50 -> 100 * ((m - 50) / 100) + 50 = m.
Proof.
  intros Hhalf. pose proof (N.div_mod' m 100) as Heq. rewrite Hhalf in Heq.
  replace (m - 50) with (m / 100 * 100) by lia.
  rewrite N.div_mul by done. lia.
Qed.

Lemma toFixed1_tenths_near (d : Z) :
  let m := Z.to_N (Z.max d 0) in
  100 * toFixed1_tenths d <= m + 50 /\ m <= 100 * toFixed1_tenths d + 50.
Proof.
  intros m. unfold toFixed1_tenths. fold m.
  pose proof (round_half_up m) as Hup.
  destruct (m mod 100 =? 50) eqn:Hhalf; cbn [negb]; [|exact Hup].
  destruct (m mod 500 =? 250); [exact Hup|].
  match goal with |- context [if ?b then _ else _] => destruct b end;
    [exact Hup|].
  apply N.eqb_eq, round_half_down in Hhalf. lia.
Qed.

(** X3. The elapsed time of a tool call (an integer number of
    milliseconds below 2^53) is shown in seconds with exactly one decimal
    digit, and the number shown is within 0.05 s of the duration, a
    negative duration counting as zero. *)
Theorem toFixed1_accuracy (d : Z) :
  (d < 2 ^ 53)%Z ->
  exists whole tenth : N,
    toFixed1 d = digits whole ++ [46] ++ [48 + tenth]
    /\ tenth < 10
    /\ (Z.abs (100 * Z.of_N (10 * whole + tenth) - Z.max d 0) <= 50)%Z.
Proof.
  intros _.
  exists (toFixed1_tenths d / 10), (toFixed1_tenths d mod 10).
  pose proof (N.mod_lt (toFixed1_tenths d) 10 ltac:(lia)) as Hlt.
  split; [|split; [lia|]].
  - unfold toFixed1. cbn zeta. by rewrite (digits_digit _ Hlt).
  - rewrite <- N.div_mod'.
    pose proof (toFixed1_tenths_near d) as [H1 H2]. cbn zeta in H1, H2.
    lia.
Qed.

Lemma toFixed1_accuracy_witness :
  exists whole tenth : N,
    toFixed1 1250 = digits whole ++ [46] ++ [48 + tenth]
    /\ tenth < 10
    /\ (Z.abs (100 * Z.of_N (10 * whole + tenth) - Z.max 1250 0) <= 50)%Z.
Proof. apply (toFixed1_accuracy 1250). reflexivity. Defined.

(** ** Deduplication keys *)

(** X4. The deduplication key never confuses two entries: equal keys mean
    that both entries are tool calls of the same non-empty id, or that
    neither is and they agree in kind and content. *)
Theorem getTimelineEntryKey_injective (e1 e2 : TimelineEntry) :
  getTimelineEntryKey e1 = getTimelineEntryKey e2 ->
  keyedById e1 = keyedById e2
  /\ (if keyedById e1 then toolUseId e1 = toolUseId e2
      else kind e1 = kind e2 /\ content e1 = content e2).
Proof.
  unfold getTimelineEntryKey, keyedById.
  destruct (kind e1), (kind e2), (toolUseId e1) as [[|c1 r1]|],
    (toolUseId e2) as [[|c2 r2]|];
    intros Heq; vm_compute in Heq; simplify_eq; done.
Qed.

Lemma getTimelineEntryKey_injective_witness :
  toolUseId (callEntry (js "read") (js "call-1"))
  = toolUseId (callEntry (js "write") (js "call-1")).
Proof.
  exact (proj2 (getTimelineEntryKey_injective
                  (callEntry (js "read") (js "call-1"))
                  (callEntry (js "write") (js "call-1")) eq_refl)).
Defined.

(** ** Streams of snapshots *)

Section Snapshots.

Implicit Types (t : AgentRunTracker) (r : Renderer).

Lemma assistant_event_growing now t buf x :
  x <> [] -> buf `prefix_of` x ->
  applyVerboseEvent now (t, buf) (assistantEvent (Some x))
  = ({| status := Thinking; timeline := timeline t; seen := seen t;
        draftAnswer := x |}, x).
Proof.
  intros Hne Hpre. unfold applyVerboseEvent. cbn [stream data_text assistantEvent].
  rewrite (isEmpty_false _ Hne).
  by rewrite (proj2 (startsWith_prefix x buf) Hpre).
Qed.

Lemma foldl_assistant_growing now (texts : list jsstring) t buf final :
  growing buf texts -> last texts = Some final ->
  foldl (applyVerboseEvent now) (t, buf)
        (map (fun x => assistantEvent (Some x)) texts)
  = ({| status := Thinking; timeline := timeline t; seen := seen t;
        draftAnswer := final |}, final).
Proof.
  revert t buf. induction texts as [|x texts IH]; intros t buf Hgrow Hlast;
    [done|].
  destruct Hgrow as (Hne & Hpre & Hgrow). cbn [map foldl].
  rewrite (assistant_event_growing now t buf x Hne Hpre).
  destruct texts as [|y texts].
  - cbn [last] in Hlast. by injection Hlast as <-.
  - rewrite (IH _ x Hgrow); [done|]. by rewrite last_cons_cons in Hlast.
Qed.

Lemma growing_last_nonempty (texts : list jsstring) buf final :
  growing buf texts -> last texts = Some final -> final <> [].
Proof.
  revert buf. induction texts as [|x texts IH]; intros buf Hgrow Hlast; [done|].
  destruct Hgrow as (Hne & _ & Hgrow). destruct texts as [|y texts].
  - cbn in Hlast. by injection Hlast as <-.
  - rewrite last_cons_cons in Hlast. by eapply IH.
Qed.

(** X24. A stream of snapshots ends with the last snapshot: when the
    assistant events of a payload carry non-empty texts each of which
    extends the one before (the first one extending the event buffer), then
    after the events the event buffer, the assistant buffer and the draft
    answer are all the last text, the status is Thinking, and the timeline
    is unchanged. *)
Theorem growing_stream_ends_with_last_snapshot
    (now : Z) (texts : list jsstring) (final : jsstring) r :
  growing (assistantBufferState r) texts -> last texts = Some final ->
  let r' := applyEvents now (Some (map (fun x => assistantEvent (Some x)) texts)) r in
  tracker r' = {| status := Thinking; timeline := timeline (tracker r);
                  seen := seen (tracker r); draftAnswer := final |}
  /\ assistantBuffer r' = final /\ assistantBufferState r' = final.
Proof.
  intros Hgrow Hlast r'. unfold r', applyEvents.
  destruct texts as [|x texts]; [done|].
  change (map (fun x => assistantEvent (Some x)) (x :: texts))
    with (assistantEvent (Some x) :: map (fun x => assistantEvent (Some x)) texts).
  change (assistantEvent (Some x) :: map (fun x => assistantEvent (Some x)) texts)
    with (map (fun x => assistantEvent (Some x)) (x :: texts)).
  rewrite (foldl_assistant_growing now (x :: texts) _ _ final Hgrow Hlast).
  cbn [tracker assistantBuffer assistantBufferState].
  by rewrite (isEmpty_false _ (growing_last_nonempty _ _ _ Hgrow Hlast)).
Qed.

End Snapshots.

Lemma growing_stream_ends_with_last_snapshot_witness :
  assistantBuffer
    (applyEvents 1000
       (Some (map (fun x => assistantEvent (Some x))
                [js "He"; js "Hello"; js "Hello world"]))
       createAgentCardRenderer)
  = js "Hello world".
Proof.
  refine (proj1 (proj2 (growing_stream_ends_with_last_snapshot
                          1000 [js "He"; js "Hello"; js "Hello world"]
                          (js "Hello world") createAgentCardRenderer _ eq_refl))).
  cbn [growing]. split_and!; try by vm_compute.
  - apply prefix_nil.
  - by exists (js "llo").
  - by exists (js " world").
Defined.

(** ** Message projection: what the entries are *)

Section ProjectionShape.

Implicit Types (acc : Collector) (e : TimelineEntry).

Lemma isEmpty_normalizeWhitespace text :
  isEmpty (normalizeWhitespace text) = negb (hasInk text).
Proof.
  destruct (hasInk text) eqn:Hink; cbn [negb].
  - apply isEmpty_false. intros Hnil.
    apply (normalizeText_nil text) in Hnil. congruence.
  - change (normalizeWhitespace text) with (normalizeText text).
    by rewrite (proj2 (normalizeText_nil text) Hink).
Qed.

Lemma trim_ink text : hasInk text = true -> trim text <> [].
Proof. intros Hink Hnil. apply trim_nil in Hnil. congruence. Qed.

Lemma buildToolCallContent_ne name d : buildToolCallContent name d <> [].
Proof. by destruct d. Qed.

Lemma collectContent_collects acc parts part :
  collects acc parts -> collects (collectContent acc part) (parts ++ [part]).
Proof.
  intros (Hheads & Hne & Htext). unfold collects. rewrite !omap_app.
  destruct part as [text|text|name id started];
    cbn [collectContent omap list_omap shownHead answerPart].
  - rewrite isEmpty_normalizeWhitespace.
    destruct (hasInk text) eqn:Hink; cbn [negb col_timeline col_textParts].
    + rewrite map_app, Hheads, Htext. split; [done|]. split; [|done].
      apply Forall_app. split; [done|]. constructor; [|done].
      by apply trim_ink.
    + by rewrite !app_nil_r.
  - rewrite isEmpty_normalizeWhitespace.
    destruct (hasInk text) eqn:Hink; cbn [negb col_timeline col_textParts].
    + rewrite map_app, Hheads, Htext, app_nil_r. split; [done|]. split; [|done].
      apply Forall_app. split; [done|]. constructor; [|done].
      by apply trim_ink.
    + by rewrite !app_nil_r.
  - cbn [col_timeline col_textParts].
    rewrite map_app, Hheads, Htext, app_nil_r. split; [done|]. split; [|done].
    apply Forall_app. split; [done|]. constructor; [|done].
    apply buildToolCallContent_ne.
Qed.

Lemma collectResult_collects now acc parts part :
  collects acc parts -> collects (collectResult now acc part) parts.
Proof.
  intros (Hheads & Hne & Htext). unfold collectResult.
  destruct (result_toolUseId part) as [i|]; [|done].
  destruct (truthy (Some i)); [|done].
  destruct (toolEntryMap acc !! i) as [entryMeta|]; [|done].
  destruct (col_timeline acc !! index entryMeta) as [entry|] eqn:E; [|done].
  split; [|split]; cbn [col_timeline col_textParts]; [| |done].
  - rewrite list_fmap_insert. unfold entryHead at 1. cbn [kind toolUseId].
    rewrite <- Hheads. apply list_insert_id.
    by rewrite list_lookup_fmap, E.
  - apply Forall_insert; [done|]. apply buildToolCallContent_ne.
Qed.

Lemma collectMessage_collects now acc parts message :
  collects acc parts ->
  collects (collectMessage now acc message) (parts ++ assistantParts [message]).
Proof.
  destruct message as [content|id results]; cbn [collectMessage assistantParts flat_map].
  - rewrite app_nil_r. revert acc parts.
    induction content as [|p content IH]; intros acc parts Hacc.
    + by rewrite app_nil_r.
    + cbn [foldl]. rewrite (cons_middle p), app_assoc.
      by apply IH, collectContent_collects.
  - rewrite !app_nil_r. revert acc.
    induction results as [|p results IH]; intros acc Hacc; [done|].
    cbn [foldl]. by apply IH, collectResult_collects.
Qed.

Lemma foldl_collectMessage_collects now messages acc parts :
  collects acc parts ->
  collects (foldl (collectMessage now) acc messages)
           (parts ++ assistantParts messages).
Proof.
  revert acc parts. induction messages as [|m messages IH]; intros acc parts Hacc.
  - by rewrite app_nil_r.
  - cbn [foldl].
    replace (assistantParts (m :: messages))
      with (assistantParts [m] ++ assistantParts messages)
      by (unfold assistantParts; cbn [flat_map]; by rewrite app_nil_r).
    rewrite app_assoc. by apply IH, collectMessage_collects.
Qed.

End ProjectionShape.

(** X5. The projection makes one timeline entry for every tool-call part
    and for every text or thinking part that is not blank, in the order of
    the parts, with the kind of the part and the id of the call; no entry
    has an empty content; the final text is the trimmed join of the
    trimmed non-blank text parts.  Tool messages add, remove and reorder
    nothing. *)
Theorem collectDisplayChunks_shape (now : Z) (messages : list AgentCoreMessage) :
  let chunks := collectDisplayChunks now messages in
  map entryHead (chunk_timeline chunks) = omap shownHead (assistantParts messages)
  /\ Forall (fun e => content e <> []) (chunk_timeline chunks)
  /\ finalText chunks
     = trim (join [10; 10] (omap answerPart (assistantParts messages))).
Proof.
  destruct (foldl_collectMessage_collects now messages
              {| col_timeline := []; col_textParts := []; toolEntryMap := ∅ |} [])
    as (Hheads & Hne & Htext); [by split|].
  cbn zeta. unfold collectDisplayChunks. cbn [chunk_timeline finalText].
  by rewrite Htext.
Qed.



(** ** Run tracker: the timeline only grows *)

Section History.

Implicit Types (t : AgentRunTracker) (e x y : TimelineEntry).

Lemma keepsHistory_refl t : keepsHistory t t.
Proof.
  split; [done|]. split; [done|]. split; [done|].
  intros i e Hi. exists e. split; [done|by left].
Qed.

Lemma supersedes_trans e1 e2 e3 :
  supersedes e2 e1 -> supersedes e3 e2 -> supersedes e3 e1.
Proof.
  intros [->|(Hk2 & Ht2 & Hid2)] [->|(Hk3 & Ht3 & Hid3)].
  - by left.
  - by right.
  - by right.
  - right. split; [done|]. split; [done|]. congruence.
Qed.

Lemma keepsHistory_trans t1 t2 t3 :
  keepsHistory t1 t2 -> keepsHistory t2 t3 -> keepsHistory t1 t3.
Proof.
  intros (Hs1 & Hseen1 & Hlen1 & Hl1) (Hs2 & Hseen2 & Hlen2 & Hl2).
  split; [congruence|]. split; [set_solver|]. split; [lia|].
  intros i e Hi. destruct (Hl1 i e Hi) as (e2 & Hi2 & Hsup2).
  destruct (Hl2 i e2 Hi2) as (e3 & Hi3 & Hsup3).
  exists e3. split; [done|]. by eapply supersedes_trans.
Qed.

Lemma appendEntry_history t y : keepsHistory t (appendEntry t y).
Proof.
  unfold appendEntry.
  destruct (_ && _).
  { split; [done|]. split; [set_solver|]. cbn [timeline].
    split; [rewrite length_app; lia|].
    intros i e Hi. exists e. split; [by apply lookup_app_l_Some|by left]. }
  destruct (bool_decide (kind y = KindToolCall) && truthy (toolUseId y)
            && negb (isEmpty (content y))) eqn:Hrep;
    [|apply keepsHistory_refl].
  apply andb_true_iff in Hrep as [Hrep _].
  apply andb_true_iff in Hrep as [Hkind Hid].
  apply bool_decide_eq_true in Hkind.
  destruct (findIndex _ (timeline t)) as [j|] eqn:Hfind;
    [|apply keepsHistory_refl].
  apply findIndex_Some in Hfind as (z & Hz & Hsame & _).
  apply bool_decide_eq_true in Hsame.
  split; [done|]. split; [done|]. cbn [timeline].
  split; [by rewrite length_insert|].
  intros i e Hi. destruct (decide (i = j)) as [->|Hne].
  - exists y. split.
    + apply list_lookup_insert_eq. by eapply lookup_lt_Some.
    + right. rewrite Hi in Hz. injection Hz as ->. done.
  - exists e. split; [by rewrite list_lookup_insert_ne|by left].
Qed.

Lemma foldl_appendEntry_history (entries : list TimelineEntry) t :
  keepsHistory t (foldl appendEntry t entries).
Proof.
  revert t. induction entries as [|y entries IH]; intros t.
  - apply keepsHistory_refl.
  - cbn [foldl]. eapply keepsHistory_trans; [apply appendEntry_history|apply IH].
Qed.

End History.

(** X7. [appendMessages] never changes the status and never forgets:
    every deduplication key stays, the timeline does not shrink, and every
    entry keeps its position, either untouched or overwritten by a newer
    tool-call entry of the same non-empty id.  In particular text and
    thinking entries are never rewritten, moved or removed. *)
Theorem appendMessages_keeps_history
    (now : Z) (messages : list AgentCoreMessage) (t : AgentRunTracker) :
  keepsHistory t (appendMessages now messages t)
  /\ (forall i e, timeline t !! i = Some e -> truthy (toolUseId e) = false ->
        timeline (appendMessages now messages t) !! i = Some e).
Proof.
  assert (keepsHistory t (appendMessages now messages t)) as Hkeep.
  { unfold appendMessages. cbn zeta.
    pose proof (foldl_appendEntry_history
                  (chunk_timeline (collectDisplayChunks now messages)) t) as H.
    by destruct (isEmpty _). }
  split; [exact Hkeep|].
  intros i e Hi Hid. destruct Hkeep as (_ & _ & _ & Hl).
  destruct (Hl i e Hi) as (e' & Hi' & [->|(_ & Ht & Heq)]); [done|].
  congruence.
Qed.

Lemma appendMessages_keeps_history_witness :
  timeline (appendMessages 9000 (toolCallBatch (js "exec") (js "call-1") None)
              (appendMessages 5000 [AssistantMessage [TextPart (js "hello")]]
                 newTracker)) !! 0%nat
  = Some {| kind := KindText; content := js "hello"; toolUseId := None;
            toolName := None; durationMs := None |}.
Proof.
  exact (proj2 (appendMessages_keeps_history 9000
                  (toolCallBatch (js "exec") (js "call-1") None)
                  (appendMessages 5000 [AssistantMessage [TextPart (js "hello")]]
                     newTracker))
           0%nat _ eq_refl eq_refl).
Defined.

(** ** Run tracker: appending a batch again *)

Section Idempotence.

Implicit Types (t s : AgentRunTracker) (e x y : TimelineEntry).

Lemma tracker_eq s t :
  status s = status t -> timeline s = timeline t -> seen s = seen t ->
  draftAnswer s = draftAnswer t -> s = t.
Proof. destruct s, t. simpl. by intros -> -> -> ->. Qed.

Lemma appendEntry_key_seen t y :
  content y <> [] -> getTimelineEntryKey y ∈ seen (appendEntry t y).
Proof.
  intros Hne. unfold appendEntry. rewrite (isEmpty_false _ Hne). cbn [negb andb].
  destruct (decide (getTimelineEntryKey y ∈ seen t)) as [Hin|Hnot].
  - rewrite (bool_decide_eq_true_2 _ Hin). cbn [negb].
    destruct (_ && _); [|done]. by destruct (findIndex _ _).
  - rewrite (bool_decide_eq_false_2 _ Hnot). cbn [negb seen]. set_solver.
Qed.

Lemma foldl_appendEntry_keys_seen (entries : list TimelineEntry) t :
  Forall (fun e => content e <> []) entries ->
  forall e, e ∈ entries ->
            getTimelineEntryKey e ∈ seen (foldl appendEntry t entries).
Proof.
  revert t. induction entries as [|y entries IH]; intros t Hne e He;
    [by apply elem_of_nil in He|].
  apply Forall_cons in Hne as [Hy Hne]. cbn [foldl].
  apply elem_of_cons in He as [->|He]; [|by apply IH].
  destruct (foldl_appendEntry_history entries (appendEntry t y))
    as (_ & Hseen & _).
  apply Hseen. by apply appendEntry_key_seen.
Qed.

(** An entry whose key has been seen adds nothing. *)
Lemma appendEntry_seen_frame t y :
  getTimelineEntryKey y ∈ seen t ->
  status (appendEntry t y) = status t
  /\ seen (appendEntry t y) = seen t
  /\ draftAnswer (appendEntry t y) = draftAnswer t
  /\ length (timeline (appendEntry t y)) = length (timeline t).
Proof.
  intros Hin. unfold appendEntry. rewrite (bool_decide_eq_true_2 _ Hin).
  rewrite andb_false_r.
  destruct (_ && _); [|done]. destruct (findIndex _ _); [|done].
  cbn [status seen draftAnswer timeline]. by rewrite length_insert.
Qed.

Lemma foldl_appendEntry_seen_frame (entries : list TimelineEntry) t :
  (forall e, e ∈ entries -> getTimelineEntryKey e ∈ seen t) ->
  status (foldl appendEntry t entries) = status t
  /\ seen (foldl appendEntry t entries) = seen t
  /\ draftAnswer (foldl appendEntry t entries) = draftAnswer t
  /\ length (timeline (foldl appendEntry t entries)) = length (timeline t).
Proof.
  revert t. induction entries as [|y entries IH]; intros t Hin; [done|].
  cbn [foldl].
  destruct (appendEntry_seen_frame t y) as (Hs & Hseen & Hd & Hl);
    [apply Hin; left|].
  destruct (IH (appendEntry t y)) as (Hs' & Hseen' & Hd' & Hl').
  { intros e He. rewrite Hseen. apply Hin. by right. }
  split; [congruence|]. split; [congruence|]. split; [congruence|]. congruence.
Qed.

(** After an entry of a non-empty id has been appended, some position
    holds it. *)
Lemma appendEntry_holds t y c r :
  trackerInv t -> wfEntry y -> toolUseId y = Some (c :: r) ->
  exists i, timeline (appendEntry t y) !! i = Some y.
Proof.
  intros Ht Hwf Hid.
  assert (kind y = KindToolCall) as Hk by by eapply wfEntry_toolcall.
  assert (isEmpty (content y) = false) as Hcontent.
  { destruct Hwf as (_ & Hc & _). destruct (Hc Hk) as [name ->].
    apply buildToolCallContent_nonempty. }
  destruct (decide (js "tool:" ++ c :: r ∈ seen t)) as [Hin|Hnot].
  - destruct (appendEntry_replace t y c r Ht Hk Hid Hcontent Hin)
      as (i & x & Hx & _ & ->).
    exists i. cbn [timeline]. apply list_lookup_insert_eq.
    by eapply lookup_lt_Some.
  - exists (length (timeline t)). unfold appendEntry.
    rewrite (key_of_toolcall y c r Hk Hid), Hcontent.
    rewrite (bool_decide_eq_false_2 _ Hnot). cbn [negb andb timeline].
    by rewrite lookup_app_r, Nat.sub_diag by lia.
Qed.

(** After a batch, the last entry of each non-empty id is in the timeline. *)
Lemma foldl_appendEntry_holds_last (pre post : list TimelineEntry) t y c r :
  trackerInv t -> Forall wfEntry (pre ++ y :: post) ->
  toolUseId y = Some (c :: r) -> c :: r ∉ allToolUseIds post ->
  exists i, timeline (foldl appendEntry t (pre ++ y :: post)) !! i = Some y.
Proof.
  intros Ht Hwf Hid Hpost.
  apply Forall_app in Hwf as [Hwfpre Hwf].
  apply Forall_cons in Hwf as [Hwfy _].
  rewrite foldl_app. cbn [foldl].
  destruct (appendEntry_holds (foldl appendEntry t pre) y c r) as [i Hi];
    [by apply foldl_appendEntry_inv|done|done|].
  exists i. by eapply foldl_appendEntry_stay.
Qed.

(** A batch all of whose keys are seen, and the last entry of each of
    whose ids is in the timeline, changes nothing. *)
Lemma foldl_appendEntry_fixed (entries : list TimelineEntry) s :
  trackerInv s -> Forall wfEntry entries ->
  (forall e, e ∈ entries -> getTimelineEntryKey e ∈ seen s) ->
  (forall pre y post c r,
     entries = pre ++ y :: post -> toolUseId y = Some (c :: r) ->
     c :: r ∉ allToolUseIds post -> exists i, timeline s !! i = Some y) ->
  foldl appendEntry s entries = s.
Proof.
  intros Hs Hwf Hkeys Hlast.
  destruct (foldl_appendEntry_seen_frame entries s Hkeys)
    as (Hst & Hseen & Hd & Hlen).
  apply tracker_eq; try done.
  apply list_eq. intros i.
  destruct (timeline s !! i) as [x|] eqn:Hi.
  - destruct (truthy (toolUseId x)) eqn:Htruthy.
    + destruct (toolUseId x) as [[|c r]|] eqn:Hid; try done.
      destruct (decide (c :: r ∈ allToolUseIds entries)) as [Hin|Hnot].
      * destruct (last_entry_of entries (c :: r) Hin)
          as (pre & y & post & Heq & Hy & Hpost).
        destruct (Hlast pre y post c r Heq Hy Hpost) as [j Hj].
        assert (i = j) as <-.
        { destruct Hs as (_ & Hnd & _). by eapply toolIds_position. }
        rewrite Hi in Hj. injection Hj as ->.
        rewrite Heq in *. apply Forall_app in Hwf as [Hwfpre Hwf].
        apply Forall_cons in Hwf as [Hwfy _].
        rewrite foldl_app. cbn [foldl].
        destruct (foldl_appendEntry_keeps_id pre s i y c r Hs Hwfpre Hi Hy)
          as (x1 & Hx1 & Hid1).
        eapply foldl_appendEntry_stay; [done|done|].
        eapply appendEntry_same; [|done|done|done|done].
        by apply foldl_appendEntry_inv.
      * by eapply foldl_appendEntry_stay.
    + destruct (foldl_appendEntry_history entries s) as (_ & _ & _ & Hl).
      destruct (Hl i x Hi) as (x' & Hx' & [->|(_ & Ht & Heq)]); [done|].
      congruence.
  - apply lookup_ge_None. rewrite Hlen. by apply lookup_ge_None.
Qed.

End Idempotence.

(** X8. Appending a batch a second time changes nothing: on every tracker
    that the public operations can produce, [appendMessages] with the same
    batch (and the same clock reading) is idempotent. *)
Theorem appendMessages_idempotent
    (ops : list TrackerOp) (now : Z) (batch : list AgentCoreMessage) :
  let t := runOps ops newTracker in
  appendMessages now batch (appendMessages now batch t)
  = appendMessages now batch t.
Proof.
  intros t.
  pose proof (runOps_inv ops newTracker trackerInv_new) as Ht. fold t in Ht.
  set (entries := chunk_timeline (collectDisplayChunks now batch)).
  pose proof (collectDisplayChunks_wf now batch) as Hwf. fold entries in Hwf.
  assert (Forall (fun e => content e <> []) entries) as Hne.
  { destruct (foldl_collectMessage_collects now batch
                {| col_timeline := []; col_textParts := []; toolEntryMap := ∅ |} [])
      as (_ & H & _); [by split|]. exact H. }
  set (t1 := foldl appendEntry t entries).
  assert (trackerInv t1) as Ht1 by by apply foldl_appendEntry_inv.
  assert (forall s, timeline s = timeline t1 -> seen s = seen t1 ->
                    foldl appendEntry s entries = s) as Hfix.
  { intros s Htl Hseen. apply foldl_appendEntry_fixed; [|done| |].
    - destruct Ht1 as (H1 & H2 & H3). unfold trackerInv.
      by rewrite Htl, Hseen.
    - intros e He. rewrite Hseen. by apply foldl_appendEntry_keys_seen.
    - intros pre y post c r Heq Hy Hpost. rewrite Htl. unfold t1.
      rewrite Heq in *. by eapply foldl_appendEntry_holds_last. }
  unfold appendMessages. cbn zeta. fold entries. fold t1.
  destruct (isEmpty (finalText (collectDisplayChunks now batch))).
  - fold t1. by rewrite Hfix.
  - rewrite Hfix by done. done.
Qed.

(** ** The card of a run in progress *)

Section Running.

Implicit Types (t : AgentRunTracker) (e : TimelineEntry).

Lemma appendEntry_content t e :
  Forall (fun x => content x <> []) (timeline t) ->
  Forall (fun x => content x <> []) (timeline (appendEntry t e)).
Proof.
  intros Hall. unfold appendEntry.
  destruct (negb (isEmpty (content e)) && _) eqn:Hpush.
  - apply andb_true_iff in Hpush as [Hne _]. cbn [timeline].
    apply Forall_app. split; [done|]. constructor; [|done].
    by destruct (content e).
  - destruct (_ && negb (isEmpty (content e))) eqn:Hrep; [|done].
    apply andb_true_iff in Hrep as [_ Hne].
    destruct (findIndex _ _); [|done]. cbn [timeline].
    apply Forall_insert; [done|]. by destruct (content e).
Qed.

Lemma appendMessages_content now messages t :
  Forall (fun x => content x <> []) (timeline t) ->
  Forall (fun x => content x <> []) (timeline (appendMessages now messages t)).
Proof.
  intros Hall. unfold appendMessages. cbn zeta.
  assert (forall entries t0,
            Forall (fun x => content x <> []) (timeline t0) ->
            Forall (fun x => content x <> [])
                   (timeline (foldl appendEntry t0 entries))) as Hfold.
  { induction entries as [|e entries IH]; intros t0 H0; [done|].
    cbn [foldl]. by apply IH, appendEntry_content. }
  destruct (isEmpty _); cbn [timeline]; by apply Hfold.
Qed.

Lemma runOps_content ops t :
  Forall (fun x => content x <> []) (timeline t) ->
  Forall (fun x => content x <> []) (timeline (runOps ops t)).
Proof.
  unfold runOps. revert t. induction ops as [|op ops IH]; intros t Hall; [done|].
  cbn [foldl]. apply IH. destruct op; cbn [applyOp]; try done.
  by apply appendMessages_content.
Qed.

Lemma formatTimelineEntry_nonempty e :
  content e <> [] -> isEmpty (formatTimelineEntry e) = false.
Proof.
  intros Hne. unfold formatTimelineEntry. rewrite (isEmpty_false _ Hne).
  destruct (kind e); by apply isEmpty_false.
Qed.

Lemma filter_nonempty_id (l : list TimelineEntry) :
  Forall (fun x => content x <> []) l ->
  List.filter (fun s => negb (isEmpty s)) (map formatTimelineEntry l)
  = map formatTimelineEntry l.
Proof.
  induction l as [|e l IH]; intros Hall; [done|].
  apply Forall_cons in Hall as [He Hall]. cbn [map List.filter].
  rewrite (formatTimelineEntry_nonempty e He). cbn [negb]. by rewrite IH.
Qed.

Lemma join_nonempty (sep p : jsstring) (rest : list jsstring) :
  p <> [] -> join sep (p :: rest) <> [].
Proof. destruct rest; destruct p; done. Qed.

End Running.

(** X23. While a run is in progress the card shows the process, not the
    answer: on every tracker that the public operations can produce, in a
    status that is not terminal, a timeline that is not empty makes the
    body the lines of the timeline entries, one line per entry, and the
    draft answer is not shown; the draft answer (or the placeholder) is the
    body only while the timeline is empty. *)
Theorem running_card_shows_process
    (ops : list TrackerOp) (collapseTimeline : bool) :
  let t := runOps ops newTracker in
  let rs := buildRenderState collapseTimeline t in
  isTerminalStatus (status t) = false ->
  rs_timeline rs = timeline t /\ finalAnswer rs = None
  /\ (timeline t <> [] ->
      body rs = join [10] (map formatTimelineEntry (timeline t))
      /\ body rs <> [])
  /\ (timeline t = [] -> body rs = orElse (draftAnswer t) (js "思考中...")).
Proof.
  intros t rs Hterm.
  pose proof (runOps_content ops newTracker (Forall_nil_2 _)) as Hall.
  fold t in Hall.
  unfold rs, buildRenderState. rewrite Hterm.
  cbn [rs_timeline finalAnswer body filterTimelineEntries].
  split; [done|]. split; [done|].
  rewrite (filter_nonempty_id _ Hall). split.
  - intros Hne. destruct (timeline t) as [|e l] eqn:Htl; [done|].
    apply Forall_cons in Hall as [He _].
    assert (join [10] (map formatTimelineEntry (e :: l)) <> []) as Hbody.
    { cbn [map]. apply join_nonempty. intros Hnil.
      pose proof (formatTimelineEntry_nonempty e He) as Hf.
      by rewrite Hnil in Hf. }
    assert (forall b, orElse (join [10] (map formatTimelineEntry (e :: l))) b
                      = join [10] (map formatTimelineEntry (e :: l))) as Hor.
    { intros b. unfold orElse. by rewrite (isEmpty_false _ Hbody). }
    by rewrite Hor.
  - by intros ->.
Qed.

Lemma running_card_shows_process_witness :
  body (buildRenderState false
          (runOps [OpAppendMessages 1000
                     (toolCallBatch (js "exec") (js "call-1") None);
                   OpSetDraftAnswer (js "partial answer")] newTracker))
  = js "调用 `'exec'` 工具".
Proof.
  refine (eq_trans
            (proj1 (proj1 (proj2 (proj2
               (running_card_shows_process
                  [OpAppendMessages 1000
                     (toolCallBatch (js "exec") (js "call-1") None);
                   OpSetDraftAnswer (js "partial answer")] false eq_refl)))
               _)) _).
  - by vm_compute.
  - by vm_compute.
Defined.

(** ** The card *)

Section CardShape.
Context `{Host}.
Variable mentionTargets : option (list MentionTarget).

Lemma orElse_nonempty (a b : jsstring) : b <> [] -> orElse a b <> [].
Proof. intros Hb. unfold orElse. by destruct a. Qed.

Lemma body_fallback (a : jsstring) : orElse a (js "思考中...") <> [].
Proof. apply orElse_nonempty. by vm_compute. Qed.

Lemma panel_fallback (a : jsstring) : orElse a (js "暂无过程记录") <> [].
Proof. apply orElse_nonempty. by vm_compute. Qed.

(** X9. The card of every renderer state has a body that ends with
    exactly one markdown element, whose text is never empty (whatever the
    mention formatter returns); before it there is at most one element, the
    collapsible panel of the process, which is there exactly when the
    status is terminal and the filtered timeline is not empty, is unfolded
    exactly when the card was not asked to be collapsed, and never has an
    empty text. *)
Theorem card_shape (collapseTimeline : bool) (r : Renderer) :
  let card := theCard mentionTargets collapseTimeline r in
  let shown := rs_timeline (buildRenderState collapseTimeline (tracker r)) in
  exists bodyText, bodyText <> []
    /\ (((isTerminalStatus (status (tracker r)) = false \/ shown = [])
         /\ elements card = [Markdown bodyText])
        \/ (isTerminalStatus (status (tracker r)) = true /\ shown <> []
            /\ exists md, md <> []
                 /\ elements card
                    = [CollapsiblePanel (negb collapseTimeline) (js "执行过程") md;
                       Markdown bodyText])).
Proof.
  intros card shown. unfold card, shown, theCard, buildLarkCard.
  cbn [showTimelinePanel rs_timeline isTimelineCollapsed timelineMarkdown
       body elements].
  unfold buildRenderState.
  destruct (isTerminalStatus (status (tracker r))) eqn:Hterm;
    cbn [showTimelinePanel rs_timeline isTimelineCollapsed timelineMarkdown
         body].
  - destruct (filterTimelineEntries _ _) as [|e l] eqn:Hf;
      cbn [length Nat.eqb negb andb app].
    + eexists. split; [apply body_fallback|].
      left. split; [by right|]. reflexivity.
    + eexists. split; [apply body_fallback|].
      right. split; [done|]. split; [done|].
      eexists. split; [apply panel_fallback|]. reflexivity.
  - eexists. split; [apply body_fallback|].
    left. split; [by left|]. reflexivity.
Qed.

End CardShape.

(** ** An answer of one text part *)

Section Trim.

Implicit Types (s : jsstring).

Lemma trimStart_idem s : trimStart (trimStart s) = trimStart s.
Proof.
  induction s as [|c s IH]; [done|]. simpl.
  destruct (isSpace c) eqn:Hc; [done|]. simpl. by rewrite Hc.
Qed.

Lemma trimEnd_idem s : trimEnd (trimEnd s) = trimEnd s.
Proof.
  induction s as [|c s IH]; [done|]. simpl.
  destruct (trimEnd s) as [|d r] eqn:Hr.
  - destruct (isSpace c) eqn:Hc; [done|]. simpl. by rewrite Hc.
  - change (trimEnd (c :: d :: r))
      with (match trimEnd (d :: r) with
            | [] => if isSpace c then [] else [c]
            | r' => c :: r'
            end).
    by rewrite IH.
Qed.

(** Trimming the end leaves a first unit that is not white space first. *)
Lemma trimStart_trimEnd s : trimStart s = s -> trimStart (trimEnd s) = trimEnd s.
Proof.
  destruct s as [|c s]; [done|]. simpl.
  destruct (isSpace c) eqn:Hc.
  - intros Heq. exfalso.
    assert (length (trimStart s) <= length s)%nat as Hlen.
    { clear. induction s as [|d s IH]; [done|]. simpl.
      destruct (isSpace d); simpl; lia. }
    rewrite Heq in Hlen. simpl in Hlen. lia.
  - intros _. destruct (trimEnd s); simpl; by rewrite Hc.
Qed.

Lemma trim_idem s : trim (trim s) = trim s.
Proof.
  unfold trim.
  rewrite (trimStart_trimEnd (trimStart s)) by apply trimStart_idem.
  apply trimEnd_idem.
Qed.

End Trim.

(** X18. An answer that is one text part is not shown twice: after such a
    message was appended to a new tracker and the run has completed, the
    text is the final answer and the body of the card, the text entry is
    filtered from the timeline, and the card has no process panel. *)
Theorem single_text_answer_not_echoed
    (now : Z) (text : jsstring) (collapseTimeline : bool) :
  hasInk text = true ->
  let t := setStatus Completed
             (appendMessages now [AssistantMessage [TextPart text]] newTracker) in
  let rs := buildRenderState collapseTimeline t in
  map content (timeline t) = [trim text]
  /\ draftAnswer t = trim text
  /\ rs_timeline rs = []
  /\ finalAnswer rs = Some (trim text)
  /\ elements (buildLarkCard rs) = [Markdown (trim text)].
Proof.
  intros Hink t rs.
  pose proof (trim_ink text Hink) as Hne.
  assert (t = {| status := Completed;
                 timeline := [{| kind := KindText; content := trim text;
                                 toolUseId := None; toolName := None;
                                 durationMs := None |}];
                 seen := {[ js "text|" ++ trim text ]} ∪ ∅;
                 draftAnswer := trim text |}) as Ht.
  { unfold t, appendMessages, collectDisplayChunks.
    cbn [foldl collectMessage collectContent].
    rewrite isEmpty_normalizeWhitespace, Hink.
    cbn [negb col_timeline col_textParts chunk_timeline finalText app join foldl].
    rewrite trim_idem, (isEmpty_false _ Hne).
    unfold appendEntry. cbn [content]. rewrite (isEmpty_false _ Hne).
    rewrite bool_decide_eq_false_2 by set_solver.
    cbn [negb andb]. reflexivity. }
  assert (rs_timeline rs = [] /\ finalAnswer rs = Some (trim text)
          /\ body rs = trim text /\ showTimelinePanel rs = false)
    as (Htl & Hfa & Hbody & Hpanel).
  { unfold rs. rewrite Ht. unfold buildRenderState.
    cbn [status isTerminalStatus draftAnswer timeline].
    rewrite trim_idem, (isEmpty_false _ Hne).
    unfold filterTimelineEntries. rewrite (isEmpty_false _ Hne).
    rewrite (isEmpty_false _ (normalizeText_trim_nonempty _ Hne)).
    cbn [List.filter kind content]. rewrite bool_decide_eq_true_2 by done.
    unfold eqb. rewrite bool_decide_eq_true_2 by done. cbn [negb].
    cbn [rs_timeline finalAnswer body showTimelinePanel length Nat.eqb negb].
    done. }
  split; [by rewrite Ht|]. split; [by rewrite Ht|].
  split; [done|]. split; [done|].
  unfold buildLarkCard. rewrite Hpanel, Hbody. cbn [andb app elements].
  unfold orElse. by rewrite (isEmpty_false _ Hne).
Qed.

Lemma single_text_answer_not_echoed_witness :
  elements (buildLarkCard
              (buildRenderState true
                 (setStatus Completed
                    (appendMessages 0 [AssistantMessage [TextPart (js " Done. ")]]
                       newTracker))))
  = [Markdown (trim (js " Done. "))].
Proof.
  refine (proj2 (proj2 (proj2 (proj2
            (single_text_answer_not_echoed 0 (js " Done. ") true _))))).
  reflexivity.
Defined.

(** ** Probing a payload *)

Lemma firstMessages_spec (candidates : list (option (list RawItem))) l :
  firstMessages candidates = Some l ->
  l <> [] /\ existsb hasRole l = true /\ Some l ∈ candidates.
Proof.
  induction candidates as [|c candidates IH]; [done|]. cbn [firstMessages].
  destruct c as [[|x l']|].
  - intros Hl. destruct (IH Hl) as (? & ? & ?). split_and!; [done..|by right].
  - destruct (existsb hasRole (x :: l')) eqn:Hrole.
    + intros [= <-]. split_and!; [done..|left].
    + intros Hl. destruct (IH Hl) as (? & ? & ?). split_and!; [done..|by right].
  - intros Hl. destruct (IH Hl) as (? & ? & ?). split_and!; [done..|by right].
Qed.

Lemma firstEvents_spec (candidates : list (option (list VerboseEvent))) l :
  firstEvents candidates = Some l -> l <> [] /\ Some l ∈ candidates.
Proof.
  induction candidates as [|c candidates IH]; [done|]. cbn [firstEvents].
  destruct c as [[|x l']|].
  - intros Hl. destruct (IH Hl) as (? & ?). split; [done|by right].
  - intros [= <-]. split; [done|left].
  - intros Hl. destruct (IH Hl) as (? & ?). split; [done|by right].
Qed.

(** X19. Probing a payload never yields an empty array: the messages
    found are one of the six candidate arrays, not empty and with an
    element that has a role; the events found are one of the five
    candidate arrays, not empty.  The top-level [messages] and [events]
    win whenever they qualify. *)
Theorem payload_probing (p : ReplyPayload) :
  (forall l, extractAgentMessages p = Some l ->
     l <> [] /\ existsb hasRole l = true
     /\ Some l ∈ [ messages p; meta_agentMessages p; meta_messages p;
                   extra_messages p; context_messages p; delta_messages p ])
  /\ (forall l, extractVerboseEvents p = Some l ->
        l <> [] /\ Some l ∈ [ events p; meta_events p; extra_events p;
                              context_events p; delta_events p ])
  /\ (forall l, messages p = Some l -> existsb hasRole l = true ->
        extractAgentMessages p = Some l)
  /\ (forall l, events p = Some l -> l <> [] ->
        extractVerboseEvents p = Some l).
Proof.
  split_and!.
  - intros l. apply firstMessages_spec.
  - intros l. apply firstEvents_spec.
  - intros l Hl Hrole. unfold extractAgentMessages. rewrite Hl.
    cbn [firstMessages]. destruct l as [|x l]; [done|]. by rewrite Hrole.
  - intros l Hl Hne. unfold extractVerboseEvents. rewrite Hl.
    cbn [firstEvents]. by destruct l.
Qed.

Lemma payload_probing_witness :
  extractAgentMessages bothPayload
  = Some [RawMessage (AssistantMessage [TextPart (js "Hi")])].
Proof.
  exact (proj1 (proj2 (proj2 (payload_probing bothPayload))) _ eq_refl eq_refl).
Defined.

(** ** The plain-text heuristic: text without a colon *)

Section PlainText.
Context `{Host}.

Implicit Types (s line text : jsstring).

Lemma trimStart_subseteq s : trimStart s ⊆ s.
Proof.
  induction s as [|c s IH]; [done|]. simpl. destruct (isSpace c); [|done].
  intros x Hx. right. by apply IH.
Qed.

Lemma trimEnd_subseteq s : trimEnd s ⊆ s.
Proof.
  induction s as [|c s IH]; [done|]. simpl.
  destruct (trimEnd s) as [|d r] eqn:Hr.
  - destruct (isSpace c); [intros x Hx; by apply elem_of_nil in Hx|].
    intros x Hx. apply list_elem_of_singleton in Hx as ->. left.
  - intros x Hx. apply elem_of_cons in Hx as [->|Hx]; [left|right; by apply IH].
Qed.

Lemma trim_subseteq s : trim s ⊆ s.
Proof.
  unfold trim. etrans; [apply trimEnd_subseteq|apply trimStart_subseteq].
Qed.

Lemma colon_head {A} (l : jsstring) (f : jsstring -> option A) m :
  match l with 58 :: after => f after | _ => None end = Some m ->
  exists after, l = 58 :: after.
Proof.
  destruct l as [|d after]; [done|]. destruct d as [|p]; [done|].
  repeat (destruct p as [p|p|]; try done).
  intros _. by eexists.
Qed.

Lemma matchName_colon s m : matchName s = Some m -> 58 ∈ s.
Proof.
  unfold matchName. destruct s as [|c r]; [done|].
  destruct (isAsciiLetter c); [|done].
  intros Hm. apply colon_head in Hm as [after Hrest].
  right. apply (subseteq_drop (length (takeRun 60 isNameChar r))).
  apply trimStart_subseteq. rewrite Hrest. left.
Qed.

Lemma matchPrefix_cases s m :
  matchPrefix s = Some m ->
  matchName s = Some m
  \/ exists k, (0 < k)%nat /\ (k <= length s)%nat
                /\ matchPrefix (drop k s) = Some m.
Proof.
  destruct s as [|c r]; [by left|]. cbn [matchPrefix].
  destruct r as [|lo r'].
  - destruct (inPrefixClass c); [|by left].
    destruct (matchPrefix []) eqn:Hrec; [|by left].
    intros [= <-]. right. exists 1%nat. cbn [length drop]. split; [lia|].
    split; [lia|done].
  - destruct (isHighSurrogate c && isLowSurrogate lo).
    + destruct (isExtendedPictographic _); [|by left].
      destruct (matchPrefix r') eqn:Hrec; [|by left].
      intros [= <-]. right. exists 2%nat. cbn [length drop]. split; [lia|].
      split; [lia|done].
    + destruct (inPrefixClass c); [|by left].
      destruct (matchPrefix (lo :: r')) eqn:Hrec; [|by left].
      intros [= <-]. right. exists 1%nat. cbn [length drop]. split; [lia|].
      split; [lia|done].
Qed.

Lemma matchPrefix_colon s m : matchPrefix s = Some m -> 58 ∈ s.
Proof.
  remember (length s) as n eqn:Hn. revert s Hn m.
  induction n as [n IH] using lt_wf_ind. intros s -> m Hm.
  apply matchPrefix_cases in Hm as [Hm|(k & Hk & Hle & Hm)].
  - by eapply matchName_colon.
  - apply (subseteq_drop k). eapply (IH (length (drop k s))); [|done|exact Hm].
    rewrite length_drop. lia.
Qed.

Lemma matchToolLine_colon s m : matchToolLine s = Some m -> 58 ∈ s.
Proof.
  induction s as [|c r IH]; cbn [matchToolLine].
  - apply matchPrefix_colon.
  - destruct (isSpace c); [|apply matchPrefix_colon].
    destruct (matchToolLine r) eqn:Hrec; [|apply matchPrefix_colon].
    intros [= <-]. right. by eapply IH.
Qed.

Lemma splitLine_plain (acc : list jsstring * list jsstring) line :
  58 ∉ line -> splitLine acc line = (fst acc, snd acc ++ [line]).
Proof.
  intros Hno. unfold splitLine. destruct (isEmpty (trim line)); [done|].
  destruct (matchToolLine (trim line)) as [[g1 g2]|] eqn:Hm; [|done].
  destruct Hno. by eapply trim_subseteq, matchToolLine_colon.
Qed.

Lemma foldl_splitLine_plain (lines : list jsstring) acc :
  Forall (fun line => 58 ∉ line) lines ->
  foldl splitLine acc lines = (fst acc, snd acc ++ lines).
Proof.
  revert acc. induction lines as [|l lines IH]; intros acc Hno.
  - rewrite app_nil_r. by destruct acc.
  - apply Forall_cons in Hno as [Hl Hno]. cbn [foldl].
    rewrite splitLine_plain by done. rewrite IH by done. cbn [fst snd].
    by rewrite <- app_assoc.
Qed.

Lemma splitLines_nonempty text : splitLines text <> [].
Proof.
  induction text as [|c r IH]; [done|]. cbn [splitLines].
  destruct (c =? 10); [done|]. destruct (_ && _); [done|].
  by destruct (splitLines r).
Qed.

Lemma splitLines_units text :
  Forall (fun line => line ⊆ text) (splitLines text).
Proof.
  induction text as [|c r IH]; [by repeat constructor|]. cbn [splitLines].
  assert (Forall (fun line => line ⊆ c :: r) (splitLines r)) as IH'.
  { eapply Forall_impl; [exact IH|]. intros l Hl x Hx. right. by apply Hl. }
  destruct (c =? 10).
  { constructor; [|done]. intros x Hx. by apply elem_of_nil in Hx. }
  destruct (_ && _); [done|].
  destruct (splitLines r) as [|l rest].
  { constructor; [|done]. intros x Hx.
    apply list_elem_of_singleton in Hx as ->. left. }
  apply Forall_cons in IH' as [Hl Hrest]. constructor; [|done].
  intros x Hx. apply elem_of_cons in Hx as [->|Hx]; [left|by apply Hl].
Qed.

Lemma join_cons (sep p : jsstring) (rest : list jsstring) :
  rest <> [] -> join sep (p :: rest) = p ++ sep ++ join sep rest.
Proof. by destruct rest. Qed.

(** Without carriage returns the lines joined by line feeds are the text. *)
Lemma join_splitLines text : 13 ∉ text -> join [10] (splitLines text) = text.
Proof.
  induction text as [|c r IH]; intros Hno; [done|].
  assert (13 ∉ r) as Hr by (intros Hin; apply Hno; by right).
  assert (c <> 13) as Hc by (intros ->; apply Hno; left).
  specialize (IH Hr). cbn [splitLines].
  destruct (c =? 10) eqn:Hlf.
  - apply N.eqb_eq in Hlf as ->.
    rewrite join_cons by apply splitLines_nonempty. by rewrite IH.
  - rewrite (proj2 (N.eqb_neq c 13) Hc). cbn [andb].
    pose proof (splitLines_nonempty r) as Hne.
    destruct (splitLines r) as [|l rest]; [done|].
    destruct rest as [|l2 rest].
    + cbn [join] in *. by rewrite IH.
    + rewrite join_cons by done. rewrite join_cons in IH by done.
      by rewrite <- IH.
Qed.

Lemma plain_summary text :
  58 ∉ text ->
  splitToolSummaryLines text
  = {| toolLines := []; remainingText := trim (join [10] (splitLines text)) |}.
Proof.
  intros Hno.
  assert (foldl splitLine ([], []) (splitLines text) = ([], splitLines text))
    as Hfold.
  { rewrite foldl_splitLine_plain; [done|].
    eapply Forall_impl; [apply splitLines_units|].
    intros l Hl Hin. by apply Hno, Hl. }
  unfold splitToolSummaryLines. cbn zeta. by rewrite Hfold.
Qed.

(** X10. A text without a colon holds no tool line: the heuristic finds
    no tool lines in it, and what remains is the text itself, with CR LF
    pairs read as line feeds and the ends trimmed; without a carriage
    return it is just the trimmed text. *)
Theorem splitToolSummaryLines_plain_text text :
  58 ∉ text ->
  toolLines (splitToolSummaryLines text) = []
  /\ remainingText (splitToolSummaryLines text)
     = trim (join [10] (splitLines text))
  /\ (13 ∉ text -> remainingText (splitToolSummaryLines text) = trim text).
Proof.
  intros Hno. rewrite (plain_summary text Hno). cbn [toolLines remainingText].
  split; [done|]. split; [done|].
  intros Hcr. by rewrite join_splitLines.
Qed.

End PlainText.

Lemma splitToolSummaryLines_plain_text_witness :
  remainingText (splitToolSummaryLines (H := sampleHost) (js " Hello, world "))
  = trim (js " Hello, world ").
Proof.
  refine (proj2 (proj2 (splitToolSummaryLines_plain_text (H := sampleHost)
                          (js " Hello, world ") _)) _);
    vm_compute; intros Hin;
    repeat (apply elem_of_cons in Hin as [Hin|Hin]; [discriminate|]);
    by apply elem_of_nil in Hin.
Defined.

(** ** Renderer controller: the statuses of a run *)

Section Statuses.
Context `{Host}.
Variable mentionTargets : option (list MentionTarget).

Implicit Types (r : Renderer) (t : AgentRunTracker).

Lemma appendMessages_status now messages t :
  status (appendMessages now messages t) = status t.
Proof.
  unfold appendMessages. cbn zeta.
  destruct (foldl_appendEntry_history
              (chunk_timeline (collectDisplayChunks now messages)) t) as [Hs _].
  by destruct (isEmpty _).
Qed.

Lemma applyVerboseEvent_live now t buf evt :
  liveStatus (status t) = true ->
  liveStatus (status (applyVerboseEvent now (t, buf) evt).1) = true.
Proof.
  intros Hlive. unfold applyVerboseEvent.
  destruct (stream evt).
  - by destruct (isEmpty _).
  - destruct (phaseIs _ "start").
    { cbn [fst]. by rewrite appendMessages_status. }
    destruct (_ || _); [|done]. cbn [fst setStatus status].
    by destruct (match data_isError evt with Some b => b | None => _ end).
  - destruct (phaseIs _ "start"); [done|]. by destruct (phaseIs _ "error").
  - done.
Qed.

Lemma foldl_applyVerboseEvent_live now (evts : list VerboseEvent) t buf :
  liveStatus (status t) = true ->
  liveStatus (status (foldl (applyVerboseEvent now) (t, buf) evts).1) = true.
Proof.
  revert t buf. induction evts as [|evt evts IH]; intros t buf Hlive; [done|].
  cbn [foldl].
  pose proof (applyVerboseEvent_live now t buf evt Hlive) as Hlive1.
  destruct (applyVerboseEvent now (t, buf) evt) as [t1 buf1]. by apply IH.
Qed.

Lemma applyEvents_live now evts r :
  liveStatus (status (tracker r)) = true ->
  liveStatus (status (tracker (applyEvents now evts r))) = true.
Proof.
  intros Hlive. unfold applyEvents. destruct evts as [[|e l]|]; try done.
  pose proof (foldl_applyVerboseEvent_live now (e :: l) (tracker r)
                (assistantBufferState r) Hlive) as Hlive1.
  by destruct (foldl _ _ _).
Qed.

Lemma applyMessages_live now msgs r :
  liveStatus (status (tracker r)) = true ->
  liveStatus (status (tracker (applyMessages now msgs r))) = true.
Proof.
  intros Hlive. unfold applyMessages. cbn [tracker withTracker].
  rewrite appendMessages_status. unfold inferStatusFromMessages.
  destruct (existsb isToolCallPart _); [done|].
  by destruct (existsb isThinkingPart _).
Qed.

Lemma applyText_live now payloadText r :
  liveStatus (status (tracker r)) = true ->
  liveStatus (status (tracker (applyText now payloadText r))) = true.
Proof.
  intros Hlive. unfold applyText. cbn zeta.
  destruct (toolLines _) as [|l ls]; destruct (isEmpty _);
    cbn [tracker withTracker status setStatus setDraftAnswer];
    rewrite ?appendMessages_status; done.
Qed.

Lemma deliver_live now sendResult payload r :
  liveStatus (status (tracker r)) = true ->
  liveStatus (status (tracker (deliver mentionTargets now sendResult payload r)))
  = true.
Proof.
  intros Hlive. unfold deliver. cbn zeta.
  pose proof (applyEvents_live now (extractVerboseEvents payload) r Hlive) as H1.
  destruct (extractAgentMessages payload).
  - rewrite present_tracker. by apply applyMessages_live.
  - destruct (negb _).
    + rewrite present_tracker. by apply applyText_live.
    + destruct (extractVerboseEvents payload); [|done].
      by rewrite present_tracker.
Qed.

Lemma renderCard_tracker now collapse r :
  tracker (renderCard mentionTargets now collapse r) = tracker r.
Proof. unfold renderCard. by destruct (messageId r). Qed.

Lemma finalize_live now r :
  liveStatus (status (tracker r)) = true ->
  liveStatus (status (tracker (finalize mentionTargets now r))) = true.
Proof.
  intros Hlive. unfold finalize. destruct (_ && _); [done|].
  cbn [tracker withUpdater]. by rewrite renderCard_tracker.
Qed.

Lemma onError_live now r :
  liveStatus (status (tracker r)) = true ->
  liveStatus (status (tracker (onError mentionTargets now r))) = true.
Proof.
  intros Hlive. unfold onError. destruct (_ && _); [done|].
  cbn [tracker withUpdater]. by rewrite renderCard_tracker.
Qed.

(** X22. The renderer never makes a run Idle or Canceled: whatever
    payloads are delivered, and whether the run is finalized or fails, the
    status is Thinking, ToolCalling, WaitingToolResult, Completed or
    Error; so the header of a card is never orange. *)
Theorem renderer_never_idle_or_canceled (r : Renderer) :
  reachable mentionTargets r ->
  liveStatus (status (tracker r)) = true
  /\ forall collapseTimeline,
       header_template (theCard mentionTargets collapseTimeline r) <> js "orange".
Proof.
  intros Hreach.
  assert (liveStatus (status (tracker r)) = true) as Hlive.
  { induction Hreach as [|now sendResult payload r Hr IH Hnow|now r Hr IH Hnow
                         |now r Hr IH Hnow|e r r' Hr IH Hsettle].
    - done.
    - by apply deliver_live.
    - by apply finalize_live.
    - by apply onError_live.
    - unfold settle in Hsettle. destruct (isHostCall e); [done|].
      destruct (updater r) as [u|]; [|done].
      destruct (step e u); [|done]. by injection Hsettle as <-. }
  split; [done|]. intros collapseTimeline.
  unfold theCard, buildLarkCard, buildRenderState.
  destruct (status (tracker r)); try done;
    cbn [isTerminalStatus rs_status header_template headerTemplate];
    by vm_compute.
Qed.

End Statuses.

Lemma renderer_never_idle_or_canceled_witness :
  liveStatus
    (status (tracker (onError (H := sampleHost) None 2000
                        (deliver (H := sampleHost) None 1000 (Some (js "om_1"))
                           (textPayload (js "hello")) createAgentCardRenderer))))
  = true.
Proof.
  refine (proj1 (renderer_never_idle_or_canceled (H := sampleHost) None _ _)).
  apply reach_onError; [|by vm_compute].
  apply reach_deliver; [apply reach_create|by vm_compute].
Defined.

(** ** The renderer controller: [deliver] *)

Section Deliver.
Context `{Host}.
Variable mentionTargets : option (list MentionTarget).

Implicit Types (r : Renderer) (p : ReplyPayload).

Lemma present_buffer now sendResult r :
  assistantBuffer (present mentionTargets now sendResult r) = assistantBuffer r.
Proof.
  unfold present, renderCard.
  destruct (messageId r); [done|]. by destruct sendResult.
Qed.

(** X11. A payload that has only text, without a colon and without a
    carriage return, streams into the answer: the trimmed text is merged
    into the assistant buffer, the merged text becomes the draft answer,
    the status becomes Thinking, and the timeline is left alone. *)
Theorem deliver_plain_text (now : Z) (sendResult : option jsstring) p r :
  extractAgentMessages p = None -> extractVerboseEvents p = None ->
  58 ∉ payloadText p -> 13 ∉ payloadText p -> trim (payloadText p) <> [] ->
  let r' := deliver mentionTargets now sendResult p r in
  let merged := mergeStreamText (assistantBuffer r) (trim (payloadText p)) in
  tracker r' = {| status := Thinking; timeline := timeline (tracker r);
                  seen := seen (tracker r); draftAnswer := merged |}
  /\ assistantBuffer r' = merged.
Proof.
  intros Hm He Hcolon Hcr Hne r' merged.
  assert (r' = present mentionTargets now sendResult
                 (applyText now (payloadText p) r)) as ->.
  { unfold r', deliver. rewrite Hm, He. cbn [applyEvents].
    fold (payloadText p). by rewrite (isEmpty_false _ Hne). }
  rewrite present_tracker, present_buffer.
  unfold applyText. cbn zeta.
  rewrite (plain_summary _ Hcolon), (join_splitLines _ Hcr).
  cbn [toolLines remainingText]. by rewrite (isEmpty_false _ Hne).
Qed.

(** X12. A payload without canonical messages, without verbose events and
    with a blank text is skipped: the renderer stays as it is, no card is
    built, and neither external operation is called. *)
Theorem deliver_blank_payload (now : Z) (sendResult : option jsstring) p r :
  extractAgentMessages p = None -> extractVerboseEvents p = None ->
  hasInk (payloadText p) = false ->
  deliver mentionTargets now sendResult p r = r.
Proof.
  intros Hm He Hblank. unfold deliver. rewrite Hm, He. cbn [applyEvents].
  fold (payloadText p). by rewrite (proj2 (trim_nil _) Hblank).
Qed.

(** X13. After a payload of canonical messages (without verbose events)
    the status is ToolCalling when the messages hold a tool call, else
    Thinking when they hold a thinking part, else what it was: such a
    payload never ends the run; and the tracker keeps its history. *)
Theorem deliver_messages_status (now : Z) (sendResult : option jsstring)
    p r msgs :
  extractAgentMessages p = Some msgs -> extractVerboseEvents p = None ->
  let r' := deliver mentionTargets now sendResult p r in
  let parts := assistantParts (coreMessages msgs) in
  status (tracker r')
  = (if existsb isToolCallPart parts then ToolCalling
     else if existsb isThinkingPart parts then Thinking
     else status (tracker r))
  /\ seen (tracker r) ⊆ seen (tracker r')
  /\ (forall i e, timeline (tracker r) !! i = Some e ->
        exists e', timeline (tracker r') !! i = Some e' /\ supersedes e' e).
Proof.
  intros Hm He r' parts.
  assert (tracker r' = tracker (applyMessages now msgs r)) as ->.
  { unfold r', deliver. rewrite Hm, He. cbn [applyEvents].
    apply present_tracker. }
  unfold applyMessages. cbn [tracker withTracker].
  set (t := match inferStatusFromMessages (coreMessages msgs) with
            | Some nextStatus => setStatus nextStatus (tracker r)
            | None => tracker r
            end).
  assert (keepsHistory t (appendMessages now (coreMessages msgs) t)) as Hkeep.
  { unfold appendMessages. cbn zeta.
    pose proof (foldl_appendEntry_history
                  (chunk_timeline (collectDisplayChunks now (coreMessages msgs)))
                  t) as Hh.
    by destruct (isEmpty _). }
  destruct Hkeep as (Hst & Hseen & _ & Hl).
  assert (timeline t = timeline (tracker r) /\ seen t = seen (tracker r)
          /\ status t = (if existsb isToolCallPart parts then ToolCalling
                         else if existsb isThinkingPart parts then Thinking
                         else status (tracker r))) as (Htl & Hs & Hstatus).
  { unfold t, inferStatusFromMessages. fold (assistantParts (coreMessages msgs)).
    fold parts.
    destruct (existsb isToolCallPart parts); [done|].
    by destruct (existsb isThinkingPart parts). }
  rewrite Hst, Hstatus, <- Hs, <- Htl. done.
Qed.

(** X14. A renderer creates no second message: once it has a message
    (with a non-empty id), [deliver] keeps the message and calls the create
    operation no more;
    [finalize] and [onError] never call it; and without a message
    [deliver] calls it at most once, taking the message id from the
    answer. *)
Theorem one_message_per_renderer (now : Z) (sendResult : option jsstring) p r :
  (forall id, messageId r = Some id -> id <> [] ->
     messageId (deliver mentionTargets now sendResult p r) = Some id
     /\ created (deliver mentionTargets now sendResult p r) = created r)
  /\ (messageId r = None ->
      deliver mentionTargets now sendResult p r = r
      \/ exists card,
           created (deliver mentionTargets now sendResult p r)
           = created r ++ [card]
           /\ messageId (deliver mentionTargets now sendResult p r) = sendResult)
  /\ (messageId (finalize mentionTargets now r) = messageId r
      /\ created (finalize mentionTargets now r) = created r)
  /\ (messageId (onError mentionTargets now r) = messageId r
      /\ created (onError mentionTargets now r) = created r).
Proof.
  assert (forall r0, messageId (applyEvents now (extractVerboseEvents p) r0)
                     = messageId r0
                     /\ created (applyEvents now (extractVerboseEvents p) r0)
                        = created r0) as Hev.
  { intros r0. unfold applyEvents.
    destruct (extractVerboseEvents p) as [[|e l]|]; try done.
    by destruct (foldl _ _ _). }
  assert (forall t r0, messageId (applyText now t r0) = messageId r0
                       /\ created (applyText now t r0) = created r0) as Htx.
  { intros t r0. unfold applyText. cbn zeta.
    destruct (toolLines _); by destruct (isEmpty _). }
  assert (forall r0 id, messageId r0 = Some id ->
            messageId (present mentionTargets now sendResult r0) = Some id
            /\ created (present mentionTargets now sendResult r0) = created r0)
    as Hps.
  { intros r0 id Hid. unfold present, renderCard. by rewrite Hid. }
  assert (forall r0, messageId r0 = None ->
            exists card,
              created (present mentionTargets now sendResult r0)
              = created r0 ++ [card]
              /\ messageId (present mentionTargets now sendResult r0) = sendResult)
    as Hpn.
  { intros r0 Hid. unfold present. rewrite Hid.
    destruct sendResult; by eexists. }
  split; [|split; [|split]].
  - intros id Hid _. unfold deliver. cbn zeta.
    destruct (Hev r) as [Hev1 Hev2].
    destruct (extractAgentMessages p) as [msgs|].
    + destruct (Hps (applyMessages now msgs
                       (applyEvents now (extractVerboseEvents p) r)) id)
        as [-> ->]; [by rewrite <- Hid, <- Hev1|done].
    + destruct (negb _).
      * destruct (Htx (match text p with Some t => t | None => [] end)
                      (applyEvents now (extractVerboseEvents p) r)) as [Ht1 Ht2].
        destruct (Hps (applyText now (match text p with Some t => t | None => [] end)
                         (applyEvents now (extractVerboseEvents p) r)) id)
          as [-> ->]; [by rewrite Ht1, Hev1|by rewrite Ht2].
      * destruct (extractVerboseEvents p) eqn:He; [|done].
        destruct (Hps (applyEvents now (Some l) r) id) as [-> ->];
          [by rewrite Hev1|done].
  - intros Hid. unfold deliver. cbn zeta.
    destruct (Hev r) as [Hev1 Hev2].
    destruct (extractAgentMessages p) as [msgs|].
    + right.
      destruct (Hpn (applyMessages now msgs
                       (applyEvents now (extractVerboseEvents p) r)))
        as (card & -> & ->); [by rewrite <- Hid, <- Hev1|].
      exists card. by rewrite <- Hev2.
    + destruct (negb _).
      * right.
        destruct (Htx (match text p with Some t => t | None => [] end)
                      (applyEvents now (extractVerboseEvents p) r)) as [Ht1 Ht2].
        destruct (Hpn (applyText now (match text p with Some t => t | None => [] end)
                         (applyEvents now (extractVerboseEvents p) r)))
          as (card & -> & ->); [by rewrite Ht1, Hev1|].
        exists card. by rewrite Ht2, Hev2.
      * destruct (extractVerboseEvents p) eqn:He; [|by left].
        right.
        destruct (Hpn (applyEvents now (Some l) r)) as (card & -> & ->);
          [by rewrite Hev1|].
        exists card. by rewrite Hev2.
  - unfold finalize. destruct (_ && _); [done|].
    unfold renderCard. cbn [messageId withTracker].
    destruct (messageId r) eqn:Hid;
      cbn [messageId created withUpdater withTracker]; by rewrite ?Hid.
  - unfold onError. destruct (_ && _); [done|].
    unfold renderCard. cbn [messageId withTracker].
    destruct (messageId r) eqn:Hid;
      cbn [messageId created withUpdater withTracker]; by rewrite ?Hid.
Qed.

End Deliver.

Lemma deliver_plain_text_witness :
  assistantBuffer
    (deliver (H := sampleHost) None 1000 (Some (js "om_1"))
       (textPayload (js " Hello, world ")) createAgentCardRenderer)
  = mergeStreamText [] (trim (js " Hello, world ")).
Proof.
  refine (proj2 (deliver_plain_text (H := sampleHost) None 1000 (Some (js "om_1"))
                   (textPayload (js " Hello, world ")) createAgentCardRenderer
                   eq_refl eq_refl _ _ _));
    vm_compute; try done; intros Hin;
    repeat (apply elem_of_cons in Hin as [Hin|Hin]; [discriminate|]);
    by apply elem_of_nil in Hin.
Defined.

Lemma deliver_blank_payload_witness :
  deliver (H := sampleHost) None 1000 (Some (js "om_1")) (textPayload (js "  "))
    createAgentCardRenderer
  = createAgentCardRenderer.
Proof.
  exact (deliver_blank_payload (H := sampleHost) None 1000 (Some (js "om_1"))
           (textPayload (js "  ")) createAgentCardRenderer
           eq_refl eq_refl eq_refl).
Defined.

Lemma deliver_messages_status_witness :
  status (tracker (deliver (H := sampleHost) None 1000 (Some (js "om_1"))
                     (messagesOnly searchCallPayload) createAgentCardRenderer))
  = ToolCalling.
Proof.
  exact (proj1 (deliver_messages_status (H := sampleHost) None 1000
                  (Some (js "om_1")) (messagesOnly searchCallPayload)
                  createAgentCardRenderer _ eq_refl eq_refl)).
Defined.

Lemma one_message_per_renderer_witness :
  let r := deliver (H := sampleHost) None 1000 (Some (js "om_1"))
             (textPayload (js "hello")) createAgentCardRenderer in
  created (deliver (H := sampleHost) None 2000 (Some (js "om_2"))
             (textPayload (js "hello again")) r)
  = created r.
Proof.
  intros r.
  refine (proj2 (proj1 (one_message_per_renderer (H := sampleHost) None 2000
                          (Some (js "om_2")) (textPayload (js "hello again")) r)
                   (js "om_1") eq_refl _)).
  by vm_compute.
Defined.

(** ** The plain-text path and the status *)

Section TextStatus.
Context `{Host}.
Variable mentionTargets : option (list MentionTarget).

Implicit Types (s line text : jsstring) (r : Renderer).

Lemma hasInk_app s1 s2 : hasInk (s1 ++ s2) = hasInk s1 || hasInk s2.
Proof. unfold hasInk. apply existsb_app. Qed.

Lemma hasInk_join_splitLines text :
  hasInk (join [10] (splitLines text)) = hasInk text.
Proof.
  induction text as [|c r IH]; [done|]. cbn [splitLines].
  pose proof (splitLines_nonempty r) as Hne.
  destruct (c =? 10) eqn:Hlf.
  - apply N.eqb_eq in Hlf as ->.
    rewrite join_cons by done. by rewrite !hasInk_app, IH.
  - destruct ((c =? 13) && _) eqn:Hcr.
    + apply andb_true_iff in Hcr as [Hc _]. apply N.eqb_eq in Hc as ->.
      by rewrite IH.
    + destruct (splitLines r) as [|l rest]; [done|].
      destruct rest as [|l2 rest].
      * cbn [join] in *. change (hasInk (c :: l)) with (negb (isSpace c) || hasInk l).
        change (hasInk (c :: r)) with (negb (isSpace c) || hasInk r).
        by rewrite IH.
      * rewrite join_cons by done. rewrite join_cons in IH by done.
        change (hasInk ((c :: l) ++ [10] ++ join [10] (l2 :: rest)))
          with (negb (isSpace c) || hasInk (l ++ [10] ++ join [10] (l2 :: rest))).
        change (hasInk (c :: r)) with (negb (isSpace c) || hasInk r).
        by rewrite IH.
Qed.

Lemma splitLine_fst (acc : list jsstring * list jsstring) line :
  fst (splitLine acc line) = [] ->
  fst acc = [] /\ snd (splitLine acc line) = snd acc ++ [line].
Proof.
  unfold splitLine. destruct (isEmpty (trim line)); [done|].
  destruct (matchToolLine (trim line)) as [[g1 g2]|]; [|done].
  cbn [fst]. intros Hnil. by apply app_eq_nil in Hnil as [_ ?].
Qed.

Lemma foldl_splitLine_fst (lines : list jsstring) acc :
  fst (foldl splitLine acc lines) = [] ->
  fst acc = [] /\ snd (foldl splitLine acc lines) = snd acc ++ lines.
Proof.
  revert acc. induction lines as [|l lines IH]; intros acc Hnil.
  - by rewrite app_nil_r.
  - cbn [foldl] in *. destruct (IH _ Hnil) as [Hfst Hsnd].
    destruct (splitLine_fst acc l Hfst) as [Hacc Hl].
    split; [done|]. by rewrite Hsnd, Hl, <- app_assoc.
Qed.

(** When no tool line is found, what remains is the whole text. *)
Lemma no_tool_lines_remaining text :
  toolLines (splitToolSummaryLines text) = [] ->
  remainingText (splitToolSummaryLines text)
  = trim (join [10] (splitLines text)).
Proof.
  unfold splitToolSummaryLines. cbn zeta. cbn [toolLines remainingText].
  intros Hnil. destruct (foldl_splitLine_fst _ _ Hnil) as [_ Hsnd].
  rewrite Hnil, Hsnd. done.
Qed.

(** X21. After a payload that has only text, and whose text is not
    blank, the status is ToolCalling when the heuristic finds a tool line
    in the text and Thinking when it finds none; in the second case the
    timeline is left alone. *)
Theorem deliver_text_status (now : Z) (sendResult : option jsstring)
    (p : ReplyPayload) r :
  extractAgentMessages p = None -> extractVerboseEvents p = None ->
  hasInk (payloadText p) = true ->
  let r' := deliver mentionTargets now sendResult p r in
  let summary := splitToolSummaryLines (payloadText p) in
  status (tracker r')
  = (if bool_decide (toolLines summary = []) then Thinking else ToolCalling)
  /\ (toolLines summary = [] -> timeline (tracker r') = timeline (tracker r)).
Proof.
  intros Hm He Hink r' summary.
  assert (isEmpty (trim (payloadText p)) = false) as Hne.
  { apply isEmpty_false. intros Hnil. apply trim_nil in Hnil. congruence. }
  unfold r'. rewrite (deliver_text_only mentionTargets now sendResult p r Hm He Hne).
  unfold applyText. cbn zeta. fold summary.
  destruct (toolLines summary) as [|l ls] eqn:Hlines.
  - rewrite bool_decide_eq_true_2 by done.
    unfold summary. rewrite (no_tool_lines_remaining _ Hlines).
    rewrite (isEmpty_false (trim _)); [done|].
    intros Hnil. apply trim_nil in Hnil.
    rewrite hasInk_join_splitLines in Hnil. congruence.
  - rewrite bool_decide_eq_false_2 by done.
    destruct (isEmpty (remainingText summary));
      cbn [tracker withTracker status setDraftAnswer];
      by rewrite appendMessages_status.
Qed.

End TextStatus.

Lemma deliver_text_status_witness :
  status (tracker (deliver (H := sampleHost) None 1000 (Some (js "om_1"))
                     searchPayload createAgentCardRenderer))
  = ToolCalling.
Proof.
  exact (proj1 (deliver_text_status (H := sampleHost) None 1000
                  (Some (js "om_1")) searchPayload createAgentCardRenderer
                  eq_refl eq_refl eq_refl)).
Defined.

(** ** The plain-text heuristic: a name and a colon *)

Section NamedLine.
Context `{Host}.

Implicit Types (s line text : jsstring).

Lemma takeRun_stop (p : N -> bool) (run : jsstring) (n : nat) x rest :
  forallb p run = true -> (length run <= n)%nat -> p x = false ->
  takeRun n p (run ++ x :: rest) = run.
Proof.
  revert n. induction run as [|c run IH]; intros n Hall Hlen Hx.
  - destruct n; cbn [app takeRun]; [done|]. by rewrite Hx.
  - cbn [forallb] in Hall. apply andb_true_iff in Hall as [Hc Hall].
    cbn [length] in Hlen. destruct n as [|n]; [lia|].
    cbn [app takeRun]. rewrite Hc. f_equal. apply IH; [done|lia|done].
Qed.

Lemma linefeed_head (r : jsstring) :
  match r with 10 :: _ => true | _ => false end = true ->
  exists r', r = 10 :: r'.
Proof.
  destruct r as [|d r]; [done|]. destruct d as [|p]; [done|].
  repeat (destruct p as [p|p|]; try done).
  intros _. by eexists.
Qed.

Lemma splitLines_single text : 10 ∉ text -> splitLines text = [text].
Proof.
  induction text as [|c r IH]; intros Hno; [done|].
  assert (10 ∉ r) as Hr by (intros Hin; apply Hno; by right).
  assert (c <> 10) as Hc by (intros ->; apply Hno; left).
  cbn [splitLines]. rewrite (proj2 (N.eqb_neq c 10) Hc).
  destruct ((c =? 13) && _) eqn:Hcr.
  - apply andb_true_iff in Hcr as [_ Hlf].
    apply linefeed_head in Hlf as [r' ->]. destruct Hr. left.
  - by rewrite (IH Hr).
Qed.

Lemma existsb_subseteq {A} (p : A -> bool) (l1 l2 : list A) :
  l1 ⊆ l2 -> existsb p l2 = false -> existsb p l1 = false.
Proof.
  intros Hsub Hno. apply not_true_is_false. intros Hex.
  apply existsb_exists in Hex as (x & Hx & Hp).
  assert (existsb p l2 = true) as Hex2; [|congruence].
  apply existsb_exists. exists x. split; [|done].
  apply list_elem_of_In, Hsub. by apply list_elem_of_In.
Qed.

(** The pattern on a line that starts with a name and a colon. *)
Lemma matchToolLine_named c (run rest : jsstring) :
  pictographsOffLetters ->
  isAsciiLetter c = true -> forallb isNameChar run = true ->
  (length run <= 60)%nat -> existsb isLineTerminator rest = false ->
  matchToolLine (c :: run ++ 58 :: rest) = Some (c :: run, trimStart rest).
Proof.
  intros Hpict Hc Hrun Hlen Hrest.
  rewrite matchToolLine_letter; [|done|by apply Hpict].
  unfold matchName. rewrite Hc. cbn zeta.
  rewrite (takeRun_stop isNameChar run 60 58 rest Hrun Hlen eq_refl).
  rewrite drop_app_length. cbn [trimStart].
  replace (isSpace 58) with false by reflexivity.
  by rewrite (existsb_subseteq _ _ _ (trimStart_subseteq rest) Hrest).
Qed.

Lemma trim_trimStart s : trim (trimStart s) = trim s.
Proof. unfold trim. by rewrite trimStart_idem. Qed.

(** X25. A line that reads a name, a colon and anything is taken for a
    tool line, whether or not the name is that of a tool: when the trimmed
    text is one line that starts with an ASCII letter and at most 60
    letters, digits, underscores and spaces, followed by a colon, the
    heuristic returns exactly one tool line - the label of the normalized
    name if the table has one, else the name itself, then the trimmed rest
    of the line - and no remaining text. *)
Theorem named_line_is_tool_line text c (run rest : jsstring) :
  pictographsOffLetters ->
  10 ∉ text -> trim text = c :: run ++ 58 :: rest ->
  isAsciiLetter c = true -> forallb isNameChar run = true ->
  (length run <= 60)%nat -> existsb isLineTerminator rest = false ->
  splitToolSummaryLines text
  = {| toolLines := [toolLineOf (c :: run) rest]; remainingText := [] |}.
Proof.
  intros Hpict Hlf Htrim Hc Hrun Hlen Hrest.
  unfold splitToolSummaryLines. cbn zeta.
  rewrite (splitLines_single text Hlf). cbn [foldl].
  assert (splitLine ([], []) text = ([toolLineOf (c :: run) rest], [])) as ->.
  { unfold splitLine. rewrite Htrim. cbn [isEmpty].
    change (c :: run ++ 58 :: rest) with (c :: (run ++ 58 :: rest)).
    rewrite (matchToolLine_named c run rest Hpict Hc Hrun Hlen Hrest).
    cbn [fst snd app]. unfold toolLineOf. cbn zeta.
    by rewrite trim_trimStart. }
  reflexivity.
Qed.

End NamedLine.

Lemma named_line_is_tool_line_witness :
  splitToolSummaryLines (H := sampleHost) (js "Answer: 42")
  = {| toolLines := [js "调用`Answer`工具: 42"]; remainingText := [] |}.
Proof.
  refine (eq_trans
            (named_line_is_tool_line (H := sampleHost) (js "Answer: 42")
               65 (js "nswer") (js " 42") _ _ eq_refl eq_refl eq_refl _ eq_refl)
            _).
  - intros c Hc. apply isAsciiLetter_range in Hc.
    cbn [isExtendedPictographic sampleHost].
    rewrite (proj2 (N.leb_gt 127744 c)) by lia.
    by rewrite (proj2 (N.leb_gt 9728 c)) by lia.
  - vm_compute. intros Hin.
    repeat (apply elem_of_cons in Hin as [Hin|Hin]; [discriminate|]).
    by apply elem_of_nil in Hin.
  - vm_compute. lia.
  - reflexivity.
Defined.

(** ** Update scheduler: what is published, and when *)

Section SchedulerCards.

Local Open Scope Z_scope.
Implicit Types (s : State) (e : Event) (trace : list Event).

Lemma handled_publish t s c :
  pending s = Some c -> handled (publish t s) = handled s.
Proof.
  intros Hp. unfold handled, publish. cbn [published pending].
  by rewrite map_app, Hp, app_nil_r.
Qed.

Lemma handled_setLoop l s : handled (setLoop l s) = handled s.
Proof. done. Qed.

Lemma handled_setFlush f s : handled (setFlush f s) = handled s.
Proof. done. Qed.

Lemma handled_setClock t s : handled (setClock t s) = handled s.
Proof. done. Qed.

Lemma loopSettled_handled ok t s :
  pending s = None \/ ok = false -> handled (loopSettled ok t s) = handled s.
Proof.
  intros Hp. unfold loopSettled. destruct (flushCall s); try done.
  destruct ok; [|done]. destruct Hp as [Hp|?]; [|done].
  by rewrite flushTail_empty.
Qed.

Lemma loopTurn_handled t s : handled (loopTurn t s) = handled s.
Proof.
  pose proof (loopTurn_cases t s) as Hcases.
  destruct (pending s) as [c|] eqn:Hp.
  - destruct Hcases as [[_ ->]|[_ ->]]; [done|].
    rewrite handled_setLoop. by eapply handled_publish.
  - rewrite Hcases. by rewrite loopSettled_handled by by left.
Qed.

Lemma schedule_handled t card s :
  handled (schedule t card s) = map snd (published s) ++ [Some card].
Proof.
  unfold schedule, kick. cbn [inFlight setPending setClock].
  destruct (inFlight s); [by rewrite loopTurn_handled|done..].
Qed.

Lemma flush_handled t s : schedInv s -> handled (flush t s) = handled s.
Proof.
  intros (Hidle & _). unfold flush. cbn [inFlight setClock].
  destruct (inFlight s) eqn:Hl; [|done..].
  rewrite flushTail_empty; [done|]. by apply Hidle.
Qed.

Lemma timerFired_handled t s due :
  schedInv s -> inFlight s = LoopWaiting due -> handled (timerFired t s) = handled s.
Proof.
  intros (_ & Hwait & _) Hl. destruct (Hwait due Hl) as [[c Hp] _].
  unfold timerFired. rewrite handled_setLoop.
  by rewrite (handled_publish t (setClock t s) c).
Qed.

Lemma updateSettled_handled t ok s : handled (updateSettled t ok s) = handled s.
Proof.
  unfold updateSettled. destruct ok; [by rewrite loopTurn_handled|].
  rewrite loopSettled_handled by by right.
  cbn [pending setLoop setClock]. destruct (pending s); [|done].
  unfold kick. cbn [inFlight setLoop]. by rewrite loopTurn_handled.
Qed.

Lemma apply_handled e s :
  schedInv s -> enabled e s = true ->
  handled (apply e s)
  = match e with
    | Schedule _ card => map snd (published s) ++ [Some card]
    | _ => handled s
    end.
Proof.
  intros Hinv Hen. destruct e as [t card|t|t|t ok|t|t ok]; cbn [apply].
  - apply schedule_handled.
  - by apply flush_handled.
  - apply timer_enabled in Hen as (due & Hl & _). by eapply timerFired_handled.
  - apply updateSettled_handled.
  - by rewrite flushTimer_disabled in Hen.
  - by rewrite flushUpdate_disabled in Hen.
Qed.

Lemma scheduledCards_cons e trace :
  scheduledCards (e :: trace)
  = match e with Schedule _ card => [Some card] | _ => [] end
    ++ scheduledCards trace.
Proof.
  unfold scheduledCards, scheduleCalls. cbn [flat_map]. rewrite map_app.
  by destruct e.
Qed.

Lemma run_handled trace s s' (before : list (option LarkCard)) :
  schedInv s -> handled s `sublist_of` before -> run trace s = Some s' ->
  handled s' `sublist_of` before ++ scheduledCards trace.
Proof.
  revert s before. induction trace as [|e trace IH]; intros s before Hinv Hsub Hrun.
  - injection Hrun as <-. by rewrite app_nil_r.
  - simpl in Hrun. destruct (step e s) as [s1|] eqn:Hstep; [|done].
    apply step_Some in Hstep as [Hen ->].
    pose proof (apply_handled e s Hinv Hen) as Hh.
    pose proof (apply_inv e s Hinv Hen) as Hinv1.
    rewrite scheduledCards_cons, app_assoc.
    eapply IH; [exact Hinv1| |exact Hrun]. rewrite Hh.
    destruct e; rewrite ?app_nil_r; try done.
    apply sublist_app; [|done].
    etrans; [|exact Hsub]. unfold handled. by apply sublist_inserts_r.
Qed.

Lemma editsInFlight_loop s :
  schedInv s ->
  editsInFlight s = match inFlight s with LoopPublishing => 1%nat | _ => 0%nat end.
Proof.
  intros (_ & _ & _ & Hf & _). unfold editsInFlight.
  destruct (flushCall s); try done; lia.
Qed.

Lemma loopSettled_published ok t s :
  pending s = None \/ ok = false ->
  published (loopSettled ok t s) = published s
  /\ inFlight (loopSettled ok t s) = inFlight s.
Proof.
  intros Hp. unfold loopSettled. destruct (flushCall s); try done.
  destruct ok; [|done]. destruct Hp as [Hp|?]; [|done].
  by rewrite flushTail_empty.
Qed.

Lemma loopTurn_started t s :
  length (published (loopTurn t s))
  = (length (published s)
     + match inFlight (loopTurn t s) with LoopPublishing => 1 | _ => 0 end)%nat.
Proof.
  pose proof (loopTurn_cases t s) as Hcases.
  destruct (pending s) as [c|] eqn:Hp.
  - destruct Hcases as [[_ ->]|[_ ->]];
      cbn [published inFlight setLoop publish]; [lia|].
    rewrite length_app. done.
  - rewrite Hcases.
    destruct (loopSettled_published true t (setLoop LoopIdle s)) as [-> ->];
      [by left|].
    cbn [published inFlight setLoop]. lia.
Qed.

Lemma apply_started e s (n : nat) :
  schedInv s -> enabled e s = true ->
  length (published s) = (n + editsInFlight s)%nat ->
  length (published (apply e s))
  = (n + (if isEditSettled e then 1 else 0) + editsInFlight (apply e s))%nat.
Proof.
  intros Hinv Hen Hn.
  rewrite (editsInFlight_loop _ (apply_inv e s Hinv Hen)).
  rewrite (editsInFlight_loop _ Hinv) in Hn.
  destruct e as [t card|t|t|t ok|t|t ok]; cbn [apply isEditSettled].
  - unfold schedule, kick. cbn [inFlight setPending setClock].
    destruct (inFlight s) eqn:Hl.
    + rewrite loopTurn_started. cbn [published setPending setClock]. lia.
    + cbn [published inFlight setPending setClock]. rewrite Hl. lia.
    + cbn [published inFlight setPending setClock]. rewrite Hl. lia.
  - destruct Hinv as (Hidle & _). unfold flush. cbn [inFlight setClock].
    destruct (inFlight s) eqn:Hl.
    + rewrite flushTail_empty by by apply Hidle.
      cbn [published inFlight setFlush setClock]. rewrite Hl. lia.
    + cbn [published inFlight setFlush setClock]. rewrite Hl. lia.
    + cbn [published inFlight setFlush setClock]. rewrite Hl. lia.
  - apply timer_enabled in Hen as (due & Hl & _). rewrite Hl in Hn.
    unfold timerFired. cbn [published inFlight setLoop publish setClock].
    rewrite length_app. cbn [length]. lia.
  - apply update_enabled in Hen as [Hl _]. rewrite Hl in Hn.
    unfold updateSettled. destruct ok.
    + rewrite loopTurn_started. cbn [published setClock]. lia.
    + destruct (loopSettled_published false t
                  (match pending (setLoop LoopIdle (setClock t s)) with
                   | Some _ => kick t (setLoop LoopIdle (setClock t s))
                   | None => setLoop LoopIdle (setClock t s)
                   end)) as [-> ->]; [by right|].
      cbn [pending setLoop setClock]. destruct (pending s).
      * unfold kick. cbn [inFlight setLoop]. rewrite loopTurn_started.
        cbn [published setLoop setClock]. lia.
      * cbn [published inFlight setLoop setClock]. lia.
  - by rewrite flushTimer_disabled in Hen.
  - by rewrite flushUpdate_disabled in Hen.
Qed.

Lemma run_started trace s s' (n : nat) :
  schedInv s -> length (published s) = (n + editsInFlight s)%nat ->
  run trace s = Some s' ->
  length (published s')
  = (n + length (List.filter isEditSettled trace) + editsInFlight s')%nat.
Proof.
  revert s n. induction trace as [|e trace IH]; intros s n Hinv Hn Hrun.
  - injection Hrun as <-. cbn [List.filter length]. lia.
  - simpl in Hrun. destruct (step e s) as [s1|] eqn:Hstep; [|done].
    apply step_Some in Hstep as [Hen ->].
    pose proof (apply_started e s n Hinv Hen Hn) as Hn1.
    pose proof (apply_inv e s Hinv Hen) as Hinv1.
    rewrite (IH _ _ Hinv1 Hn1 Hrun). cbn [List.filter].
    destruct (isEditSettled e); cbn [length]; lia.
Qed.

End SchedulerCards.

(** X16. The controller publishes only what was scheduled, in the order
    of the calls, and no card twice for one call: in every execution the
    cards of the edit operations so far, followed by the pending card if
    there is one, are a subsequence of the cards of the [schedule] calls
    (cards in between are dropped, never invented or reordered). *)
Theorem published_cards_were_scheduled
    (now : Z) (trace : list Event) (s : State) :
  run trace (createCardUpdateController now) = Some s ->
  handled s `sublist_of` scheduledCards trace
  /\ (length (published s) <= length (scheduleCalls trace))%nat.
Proof.
  intros Hrun.
  pose proof (run_handled trace _ s [] (schedInv_create now)
                (sublist_nil_l _) Hrun) as Hsub.
  cbn [app] in Hsub. split; [exact Hsub|].
  apply sublist_length in Hsub. unfold handled, scheduledCards in Hsub.
  rewrite length_app, !length_map in Hsub. lia.
Qed.

Lemma published_cards_were_scheduled_witness :
  exists s, run burstAtZero (createCardUpdateController 0) = Some s
            /\ handled s `sublist_of` scheduledCards burstAtZero.
Proof.
  eexists. split; [reflexivity|].
  exact (proj1 (published_cards_were_scheduled 0 burstAtZero _ eq_refl)).
Defined.

(** X17. The controller makes one edit at a time: in every execution the
    calls of the edit operation so far are as many as their completions
    plus the calls under way, and at most one call is under way; [flush]
    never makes a call of its own. *)
Theorem edits_one_at_a_time (now : Z) (trace : list Event) (s : State) :
  run trace (createCardUpdateController now) = Some s ->
  length (published s)
  = (length (List.filter isEditSettled trace) + editsInFlight s)%nat
  /\ (editsInFlight s <= 1)%nat
  /\ flushCall s <> FlushPublishing.
Proof.
  intros Hrun.
  pose proof (run_inv trace _ s (schedInv_create now) Hrun) as Hinv.
  split; [|split].
  - by rewrite (run_started trace _ s 0 (schedInv_create now) eq_refl Hrun).
  - rewrite (editsInFlight_loop s Hinv). destruct (inFlight s); lia.
  - by destruct Hinv as (_ & _ & _ & Hf & _).
Qed.

Lemma edits_one_at_a_time_witness :
  exists s, run burstAtZero (createCardUpdateController 0) = Some s
            /\ length (published s)
               = (length (List.filter isEditSettled burstAtZero)
                  + editsInFlight s)%nat.
Proof.
  eexists. split; [reflexivity|].
  exact (proj1 (edits_one_at_a_time 0 burstAtZero _ eq_refl)).
Defined.

(** ** Update scheduler: a failed edit *)

Section FailedEdit.

Local Open Scope Z_scope.
Implicit Types (s : State) (e : Event) (trace : list Event).

(** An idle controller stays idle and publishes nothing until the next
    [schedule] call. *)
Lemma idle_apply e s :
  schedInv s -> inFlight s = LoopIdle -> isSchedule e = false ->
  enabled e s = true ->
  inFlight (apply e s) = LoopIdle /\ published (apply e s) = published s.
Proof.
  intros Hinv Hl Hns Hen.
  destruct e as [t card|t|t|t ok|t|t ok]; cbn [apply].
  - done.
  - destruct Hinv as (Hidle & _). unfold flush. cbn [inFlight setClock].
    rewrite Hl. by rewrite flushTail_empty by by apply Hidle.
  - apply timer_enabled in Hen as (due & Hw & _). congruence.
  - apply update_enabled in Hen as [Hp _]. congruence.
  - by rewrite flushTimer_disabled in Hen.
  - by rewrite flushUpdate_disabled in Hen.
Qed.

Lemma idle_run trace s s' :
  schedInv s -> inFlight s = LoopIdle -> existsb isSchedule trace = false ->
  run trace s = Some s' ->
  inFlight s' = LoopIdle /\ published s' = published s.
Proof.
  revert s. induction trace as [|e trace IH]; intros s Hinv Hl Hns Hrun.
  - by injection Hrun as <-.
  - cbn [existsb] in Hns. apply orb_false_iff in Hns as [He Hns].
    simpl in Hrun. destruct (step e s) as [s1|] eqn:Hstep; [|done].
    apply step_Some in Hstep as [Hen ->].
    destruct (idle_apply e s Hinv Hl He Hen) as [Hl1 Hp1].
    destruct (IH (apply e s)) as [Hl2 Hp2];
      [by apply apply_inv|done|done|done|].
    split; [done|congruence].
Qed.

(** X20. A failed edit is not retried.  When the external edit operation
    fails and no newer card is pending, the controller goes idle with
    nothing pending and nothing more is published until the next
    [schedule] call: the card of the failed edit is lost.  When a newer
    card is pending, the loop starts again for that card, which stays
    pending or is published at once.  In both cases a [flush] that awaits
    the loop is rejected. *)
Theorem failed_edit_is_not_retried
    (now : Z) (trace : list Event) (s : State) (t : Z) :
  run trace (createCardUpdateController now) = Some s ->
  enabled (UpdateSettled t false) s = true ->
  let s1 := apply (UpdateSettled t false) s in
  (pending s = None ->
     pending s1 = None /\ inFlight s1 = LoopIdle
     /\ forall after s',
          existsb isSchedule after = false -> run after s1 = Some s' ->
          published s' = published s)
  /\ (forall c, pending s = Some c ->
        inFlight s1 <> LoopIdle /\ handled s1 = handled s
        /\ latest s1 = Some c)
  /\ (flushCall s = FlushAwaitingLoop -> flushCall s1 = FlushRejected).
Proof.
  intros Hrun Hen s1.
  pose proof (run_inv trace _ s (schedInv_create now) Hrun) as Hinv.
  pose proof (apply_inv _ s Hinv Hen) as Hinv1. fold s1 in Hinv1.
  assert (forall s0, published (loopSettled false t s0) = published s0
                     /\ pending (loopSettled false t s0) = pending s0
                     /\ inFlight (loopSettled false t s0) = inFlight s0
                     /\ (flushCall s0 = FlushAwaitingLoop ->
                         flushCall (loopSettled false t s0) = FlushRejected))
    as Hset.
  { intros s0. unfold loopSettled. destruct (flushCall s0); done. }
  assert (forall s0, flushCall (loopTurn t (setLoop LoopIdle (setClock t s0)))
                     = flushCall s0 \/ pending s0 = None) as Hturn.
  { intros s0. pose proof (loopTurn_cases t (setLoop LoopIdle (setClock t s0)))
      as Hcases.
    cbn [pending setLoop setClock] in Hcases.
    destruct (pending s0); [|by right].
    left. by destruct Hcases as [[_ ->]|[_ ->]]. }
  split_and!.
  - intros Hp. unfold s1 in *. cbn [apply] in *. unfold updateSettled in *.
    cbn zeta in *. cbn [pending setLoop setClock] in *. rewrite Hp in *.
    destruct (Hset (setLoop LoopIdle (setClock t s)))
      as (Hpub & Hpend & Hloop & _).
    split_and!; [by rewrite Hpend|by rewrite Hloop|].
    intros after s' Hns Hrun'.
    destruct (idle_run after _ s' Hinv1 ltac:(by rewrite Hloop) Hns Hrun')
      as [_ ->]. by rewrite Hpub.
  - intros c Hp. split_and!.
    + unfold s1. cbn [apply]. unfold updateSettled. cbn zeta.
      cbn [pending setLoop setClock]. rewrite Hp. unfold kick.
      cbn [inFlight setLoop].
      destruct (Hset (loopTurn t (setLoop LoopIdle (setClock t s))))
        as (_ & _ & -> & _).
      pose proof (loopTurn_cases t (setLoop LoopIdle (setClock t s))) as Hcases.
      cbn [pending setLoop setClock] in Hcases. rewrite Hp in Hcases.
      by destruct Hcases as [[_ ->]|[_ ->]].
    + apply updateSettled_handled.
    + unfold s1. cbn [apply]. rewrite updateSettled_latest.
      unfold latest. by rewrite Hp.
  - intros Hf. unfold s1. cbn [apply]. unfold updateSettled. cbn zeta.
    cbn [pending setLoop setClock].
    destruct (pending s) as [c|] eqn:Hp.
    + unfold kick. cbn [inFlight setLoop].
      destruct (Hset (loopTurn t (setLoop LoopIdle (setClock t s))))
        as (_ & _ & _ & Hrej).
      apply Hrej. destruct (Hturn s) as [->|Hnone]; [done|congruence].
    + destruct (Hset (setLoop LoopIdle (setClock t s))) as (_ & _ & _ & Hrej).
      by apply Hrej.
Qed.

End FailedEdit.

Lemma failed_edit_is_not_retried_witness :
  exists s, run [Schedule 1000 cardA] (createCardUpdateController 1000) = Some s
            /\ inFlight (apply (UpdateSettled 1200 false) s) = LoopIdle.
Proof.
  eexists. split; [reflexivity|].
  exact (proj1 (proj2 (proj1 (failed_edit_is_not_retried 1000
                                [Schedule 1000 cardA] _ 1200 eq_refl eq_refl)
                         eq_refl))).
Defined.

(** ** Renderer controller: [onError] *)

Section OnError.
Context `{Host}.
Variable mentionTargets : option (list MentionTarget).

Local Open Scope Z_scope.
Implicit Types (r : Renderer).

(** The card of a failed run: a red header and a folded panel. *)
Lemma error_card r :
  status (tracker r) = Error ->
  header_template (theCard mentionTargets true r) = js "red"
  /\ header_title (theCard mentionTargets true r) = js "执行异常"
  /\ forall expanded title md,
       CollapsiblePanel expanded title md ∈ elements (theCard mentionTargets true r) ->
       expanded = false.
Proof.
  intros Hs. unfold theCard, buildLarkCard, buildRenderState. rewrite Hs.
  cbn [isTerminalStatus rs_status header_template header_title headline
       elements showTimelinePanel
       rs_timeline isTimelineCollapsed timelineMarkdown body headerTemplate
       statusTitles].
  split; [done|]. split; [done|].
  intros expanded title md Hin. apply elem_of_app in Hin as [Hin|Hin].
  - destruct (_ && _); [|by apply elem_of_nil in Hin].
    apply list_elem_of_singleton in Hin. by injection Hin as -> _ _.
  - apply list_elem_of_singleton in Hin. discriminate.
Qed.

(** X15. [onError] on a renderer that the host can reach.  Without a
    message it makes no external call, and it leaves the renderer
    untouched when the assistant buffer is blank (whatever the status);
    with a message it sets the status to Error, schedules the red card of
    that state with the timeline collapsed and awaits a flush: once the
    flush has resolved that card is the one published last, and while the
    edit operation succeeds the flush resolves after at most three
    completions, each of which can happen.  The error itself is not shown:
    the card depends on the tracker only. *)
Theorem onError_outcome (now : Z) (r : Renderer) :
  reachable mentionTargets r ->
  let r' := onError mentionTargets now r in
  (messageId r = None ->
     created r' = created r /\ updater r' = None
     /\ (isEmpty (trim (assistantBuffer r)) = true -> r' = r)
     /\ (isEmpty (trim (assistantBuffer r)) = false ->
         status (tracker r') = Error))
  /\ (forall id, messageId r = Some id -> id <> [] ->
        let card := theCard mentionTargets true r' in
        created r' = created r
        /\ status (tracker r') = Error
        /\ timeline (tracker r') = timeline (tracker r)
        /\ draftAnswer (tracker r') = draftAnswer (tracker r)
        /\ header_template card = js "red"
        /\ (forall expanded title md,
              CollapsiblePanel expanded title md ∈ elements card ->
              expanded = false)
        /\ exists u', updater r' = Some u' /\ latest u' = Some card
           /\ (forall after r'' u'',
                 settleAll after r' = Some r'' -> updater r'' = Some u'' ->
                 flushCall u'' = FlushResolved ->
                 lastPublished u'' = Some card
                 /\ exists tp, (tp, Some card) ∈ published u'')
           /\ (forall after r'' u'',
                 forallb succeeds after = true ->
                 settleAll after r' = Some r'' -> updater r'' = Some u'' ->
                 (length after <= 3)%nat
                 /\ (flushCall u'' = FlushResolved
                     \/ exists e, nextCompletion u'' = Some e
                                  /\ enabled e u'' = true
                                  /\ isCompletion e = true
                                  /\ succeeds e = true))).
Proof.
  intros Hreach r'. pose proof (reachable_inv mentionTargets r Hreach) as Hinv.
  unfold rendererInv in Hinv. split.
  - intros Hm. rewrite Hm in Hinv.
    destruct (updater r) as [u|] eqn:Hu; [done|].
    unfold r', onError. rewrite Hm.
    rewrite (bool_decide_eq_true_2 _ eq_refl). cbn [andb].
    destruct (isEmpty (trim (assistantBuffer r))) eqn:Hblank.
    + done.
    + unfold renderCard. cbn [messageId withTracker]. rewrite Hm.
      cbn [created updater withUpdater withTracker]. rewrite Hu.
      split_and!; try done.
  - intros id Hm _ card. rewrite Hm in Hinv.
    destruct (updater r) as [u|] eqn:Hu; [|done].
    assert (r' = withUpdater
                   (Some (flush now
                            (schedule now
                               (theCard mentionTargets true
                                  (withTracker (setStatus Error (tracker r)) r))
                               u)))
                   (withTracker (setStatus Error (tracker r)) r)) as Hr'.
    { unfold r', onError. rewrite Hm.
      rewrite (bool_decide_eq_false_2 (Some id = None)) by done. cbn [andb].
      unfold renderCard. cbn [messageId withTracker]. rewrite Hm.
      cbn [updater withUpdater withTracker]. by rewrite Hu. }
    assert (card = theCard mentionTargets true
                     (withTracker (setStatus Error (tracker r)) r)) as Hcard
      by (unfold card; by rewrite Hr').
    destruct (error_card (withTracker (setStatus Error (tracker r)) r)
                eq_refl) as (Hred & _ & Hfolded).
    rewrite <- Hcard in Hred, Hfolded.
    split_and!; try done; try (by rewrite Hr').
    set (u1 := schedule now card u).
    assert (schedInv (flush now u1)) as Hinv'
      by by apply flush_inv, schedule_inv.
    assert (latest (flush now u1) = Some card) as Hlatest.
    { rewrite flush_latest by by apply schedule_inv. apply schedule_latest. }
    exists (flush now u1). split_and!.
    + rewrite Hr'. cbn [updater withUpdater]. by rewrite <- Hcard.
    + exact Hlatest.
    + intros after r'' u'' Hrun Hu'' Hres.
      destruct (settleAll_run after r' r'' (flush now u1)) as (u2 & Hrun2 & Hu2 & Hns & _);
        [by rewrite Hr', <- Hcard|done|].
      rewrite Hu'' in Hu2. injection Hu2 as <-.
      pose proof (run_latest after _ u'' _ Hinv' Hlatest Hrun2) as Hl.
      rewrite (lastScheduled_no_schedule after _ Hns) in Hl.
      pose proof (run_settled after _ u'' Hinv'
                    (flush_settled now u1 (schedule_inv now card u Hinv)) Hns Hrun2)
        as Hset.
      destruct (Hset Hres) as [Hp _].
      unfold latest in Hl. rewrite Hp in Hl. split; [exact Hl|].
      unfold lastPublished in Hl.
      destruct (last (published u'')) as [[tp c]|] eqn:Hlast; [|done]. subst c.
      exists tp. by apply last_Some_elem_of.
    + intros after r'' u'' Hok Hrun Hu''.
      destruct (settleAll_run after r' r'' (flush now u1)) as (u2 & Hrun2 & Hu2 & _ & Hc);
        [by rewrite Hr', <- Hcard|done|].
      rewrite Hu'' in Hu2. injection Hu2 as <-.
      destruct (run_progress after _ u'' Hinv'
                  (flush_progress now u1 (schedule_inv now card u Hinv))
                  Hc Hok Hrun2) as [Hprog Hle].
      pose proof (completionsLeft_bound (flush now u1)).
      split; [lia|].
      destruct Hprog as [[_ Hres]|[Hbusy _]]; [by left|].
      right. by apply nextCompletion_enabled.
Qed.

End OnError.

Lemma onError_outcome_witness :
  let r := deliver (H := sampleHost) None 1000 (Some (js "om_1"))
             (textPayload (js "hello")) createAgentCardRenderer in
  let r' := onError (H := sampleHost) None 2000 r in
  status (tracker r') = Error
  /\ header_template (theCard (H := sampleHost) None true r') = js "red"
  /\ exists u', updater r' = Some u'
                /\ latest u' = Some (theCard (H := sampleHost) None true r').
Proof.
  intros r r'.
  assert (reachable (H := sampleHost) None r) as Hreach.
  { apply reach_deliver; [apply reach_create|by vm_compute]. }
  destruct (onError_outcome (H := sampleHost) None 2000 r Hreach) as [_ Hmsg].
  destruct (Hmsg (js "om_1") eq_refl ltac:(by vm_compute))
    as (_ & Hst & _ & _ & Hred & _ & u' & Hu' & Hl & _).
  split; [exact Hst|]. split; [exact Hred|]. by exists u'.
Defined.
